(** * rateslib.fx : FXRates and FXForwards

    A shallow embedding of [rateslib/fx.py].  Python floats are idealised as
    exact rationals ([Qc], rationals in lowest terms, with Leibniz equality),
    so every statement below is a statement of exact arithmetic; rounding is
    outside this development.  A string is a sequence of characters, one
    [ascii] value for each; [lower] is [str.lower] on ASCII characters, and
    [lower_unicode] is [str.lower] where a claim depends on characters that
    are not ASCII. *)

From Stdlib Require Import QArith Qcanon Field ZArith Lia.
From Stdlib Require Import String Ascii.
From stdpp Require Import base list strings numbers.

Local Open Scope Qc_scope.
Local Open Scope string_scope.
Local Open Scope list_scope.

(** ** Exceptions and results *)

(** The [ValueError]s of the module, one constructor per message. *)
Inductive value_error :=
  | Overspecified (q : nat) (npairs : nat)
  | Underspecified (q : nat) (npairs : nat)
  | NotInCurrencies (ccy : string)
  | SamePairs
  | UnexpectedCurrency (cash coll : string)
  | CurvesOverspecified
  | CurvesUnderspecified
  | CoDependent
  | Broadcast
  | InitialDates.

Inductive exn :=
  | ValueError (e : value_error)
  | KeyError (key : string)
  | IndexError
  | ZeroDivisionError
  | TypeError
  | SolveError.

Inductive result (A : Type) :=
  | Ok (a : A)
  | Raise (e : exn).
Arguments Ok {A} a.
Arguments Raise {A} e.

Global Instance result_ret : MRet result := fun A a => Ok a.
Global Instance result_bind : MBind result := fun A B k m =>
  match m with
  | Ok a => k a
  | Raise e => Raise e
  end.

Definition of_option {A} (e : exn) (o : option A) : result A :=
  match o with
  | Some a => Ok a
  | None => Raise e
  end.

(** A [for] loop whose body may raise. *)
Fixpoint fold_result {S A} (f : S -> A -> result S) (l : list A) (s : S) : result S :=
  match l with
  | [] => Ok s
  | a :: l' => s' ← f s a; fold_result f l' s'
  end.

(** A comprehension whose element expression may raise. *)
Fixpoint map_result {A B} (f : A -> result B) (l : list A) : result (list B) :=
  match l with
  | [] => Ok []
  | a :: l' => b ← f a; bs ← map_result f l'; Ok (b :: bs)
  end.

(** ** Strings *)

Definition lower_ascii (c : ascii) : ascii :=
  let n := nat_of_ascii c in
  if ((65 <=? n)%nat && (n <=? 90)%nat)%bool then ascii_of_nat (n + 32) else c.

(** [s.lower()] on ASCII characters; the values from 128 up stay as they
    are (see [lower_unicode]). *)
Fixpoint lower (s : string) : string :=
  match s with
  | EmptyString => EmptyString
  | String c s' => String (lower_ascii c) (lower s')
  end.

(** [s[:n]], the first [n] characters *)
Fixpoint str_take (n : nat) (s : string) : string :=
  match n, s with
  | S n', String c s' => String c (str_take n' s')
  | _, _ => EmptyString
  end.

(** [s[n:]], the characters after the first [n] *)
Fixpoint str_drop (n : nat) (s : string) : string :=
  match n, s with
  | S n', String _ s' => str_drop n' s'
  | _, _ => s
  end.

(** [s[a:b]] for [a <= b] *)
Definition str_slice (a b : nat) (s : string) : string :=
  str_take (b - a) (str_drop a s).

(** ** Dictionaries

    A Python [dict] keeps its keys in insertion order; assigning to a key that
    is present replaces the value and leaves the position alone. *)

Section Dict.
Context {V : Type}.

Fixpoint dict_get (d : list (string * V)) (k : string) : option V :=
    match d with
    | [] => None
    | (k', v) :: d' => if String.eqb k' k then Some v else dict_get d' k
    end.

Fixpoint dict_set (d : list (string * V)) (k : string) (v : V) : list (string * V) :=
    match d with
    | [] => [(k, v)]
    | (k', v') :: d' =>
        if String.eqb k' k then (k', v) :: d' else (k', v') :: dict_set d' k v
    end.

(** [{k: v for k, v in items}] *)
Definition dict_of_items (items : list (string * V)) : list (string * V) :=
    fold_left (fun d kv => dict_set d (fst kv) (snd kv)) items [].

Definition dict_keys (d : list (string * V)) : list string := map fst d.

Definition dict_mem (d : list (string * V)) (k : string) : bool :=
    match dict_get d k with Some _ => true | None => false end.

(** [d[k]] *)
Definition dict_item (d : list (string * V)) (k : string) : result V :=
    of_option (KeyError k) (dict_get d k).
End Dict.

(** [k in l] for a list of strings *)
Definition str_in (k : string) (l : list string) : bool :=
  existsb (String.eqb k) l.

(** [list(dict.fromkeys(l))] *)
Definition fromkeys (l : list string) : list string :=
  dict_keys (dict_of_items (map (fun k => (k, tt)) l)).

(** [enumerate(l)] *)
Definition enumerate {A} (l : list A) : list (nat * A) :=
  combine (seq 0 (length l)) l.

(** ** Dual numbers

    [rateslib.dual] is imported by [fx.py]; the class [Dual] and its
    arithmetic are described by the specification. *)

(** Modelled from the spec: the class [Dual] of [rateslib.dual] (first order):
    a real value together with an ordered mapping from variable names to
    partial derivatives. *)
Record Dual := mkDual { real : Qc; grad : list (string * Qc) }.

(** [d.vars] *)
Definition vars (d : Dual) : list string := dict_keys (grad d).

(** Modelled from the spec: [d.gradient(v)]; gradient entries of absent
    variables are implicitly zero. *)
Definition gradient (d : Dual) (v : string) : Qc := default 0 (dict_get (grad d) v).

(** The variables of a result are the union of the variables of the operands. *)
Definition union_vars (a b : Dual) : list string :=
  vars a ++ List.filter (fun v => negb (str_in v (vars a))) (vars b).

(** Modelled from the spec: for [y = f(a, b)], [y.value = f(a.value, b.value)]
    and [y.grad[v] = df/da * a.grad[v] + df/db * b.grad[v]]. *)
Definition dual_binop (r da db : Qc) (a b : Dual) : Dual :=
  mkDual r (map (fun v => (v, da * gradient a v + db * gradient b v)) (union_vars a b)).

Definition dual_add (a b : Dual) : Dual := dual_binop (real a + real b) 1 1 a b.
Definition dual_sub (a b : Dual) : Dual := dual_binop (real a - real b) 1 (-1) a b.
Definition dual_mul (a b : Dual) : Dual :=
  dual_binop (real a * real b) (real b) (real a) a b.
Definition dual_div (a b : Dual) : result Dual :=
  if decide (real b = 0) then Raise ZeroDivisionError
  else Ok (dual_binop (real a / real b) (/ real b) (- (real a / (real b * real b))) a b).

(** A Python number as [fx.py] handles it: a plain [float] (or [int]) or a
    [Dual]. *)
Inductive Number :=
  | NFloat (x : Qc)
  | NDual (d : Dual).

(** A plain float is lifted to a constant dual in mixed arithmetic. *)
Definition to_dual (n : Number) : Dual :=
  match n with
  | NFloat x => mkDual x []
  | NDual d => d
  end.

(** [float(n)], also [n.real] *)
Definition to_float (n : Number) : Qc := real (to_dual n).

(** [isinstance(n, Dual)] *)
Definition is_dual (n : Number) : bool :=
  match n with NDual _ => true | NFloat _ => false end.

Definition num_add (a b : Number) : Number :=
  match a, b with
  | NFloat x, NFloat y => NFloat (x + y)
  | _, _ => NDual (dual_add (to_dual a) (to_dual b))
  end.

Definition num_mul (a b : Number) : Number :=
  match a, b with
  | NFloat x, NFloat y => NFloat (x * y)
  | _, _ => NDual (dual_mul (to_dual a) (to_dual b))
  end.

Definition num_div (a b : Number) : result Number :=
  match a, b with
  | NFloat x, NFloat y =>
      if decide (y = 0) then Raise ZeroDivisionError else Ok (NFloat (x / y))
  | _, _ => d ← dual_div (to_dual a) (to_dual b); Ok (NDual d)
  end.

(** [Dual(x, name)]: a dual with one variable, of gradient 1. *)
Definition dual_var (x : Qc) (name : string) : Dual := mkDual x [(name, 1)].

(** [np.sum] of an object array: left to right, 0 for the empty array. *)
Definition np_sum (l : list Number) : Number :=
  match l with
  | [] => NFloat 0
  | a :: l' => fold_left num_add l' a
  end.

(** Value and partial derivative of a number, gradient 0 for a float. *)
Definition ngrad (n : Number) (v : string) : Qc := gradient (to_dual n) v.

(** Equality of numbers as duals: equal values and equal partial derivatives
    with respect to every variable, an absent variable standing for 0. *)
Definition num_eq (a b : Number) : Prop :=
  to_float a = to_float b /\ forall v, ngrad a v = ngrad b v.

Definition num_sub (a b : Number) : Number :=
  match a, b with
  | NFloat x, NFloat y => NFloat (x - y)
  | _, _ => NDual (dual_sub (to_dual a) (to_dual b))
  end.

(** Decision of [num_eq]: only the variables of the two operands matter. *)
Definition num_eqb (a b : Number) : bool :=
  bool_decide (to_float a = to_float b)
  && forallb (fun v => bool_decide (ngrad a v = ngrad b v))
       (vars (to_dual a) ++ vars (to_dual b)).

(** ** Arrays *)

Definition date := Z.
Abbreviation vector := (list Number).
Abbreviation matrix := (list (list Number)).

(** [v[i]] *)
Definition vec_get {A} (v : list A) (i : nat) : result A :=
  of_option IndexError (v !! i).

(** [v[i] = a] *)
Definition vec_set {A} (v : list A) (i : nat) (a : A) : result (list A) :=
  if (i <? length v)%nat then Ok (<[i:=a]> v) else Raise IndexError.

(** [M[i, j]] *)
Definition mat_get {A} (M : list (list A)) (i j : nat) : result A :=
  row ← vec_get M i; vec_get row j.

(** [M[i, j] = a] *)
Definition mat_set {A} (M : list (list A)) (i j : nat) (a : A)
  : result (list (list A)) :=
  row ← vec_get M i; row' ← vec_set row j a; vec_set M i row'.

(** [M[:, j]] *)
Definition mat_col {A} (M : list (list A)) (j : nat) : result (list A) :=
  map_result (fun row => vec_get row j) M.

(** [np.eye(q, dtype="object")] *)
Definition np_eye (q : nat) : matrix :=
  map (fun i => map (fun j => if (i =? j)%nat then NFloat 1 else NFloat 0) (seq 0 q))
      (seq 0 q).

(** [np.zeros((q, q), dtype="object")] *)
Definition np_zeros2 (q : nat) : matrix := replicate q (replicate q (NFloat 0)).

(** The pairs [(i, j)] visited by
    [for i in range(q): for j in range(i+1, q)], in order. *)
Definition upper_pairs (q : nat) : list (nat * nat) :=
  flat_map (fun i => map (pair i) (seq (i + 1) (q - (i + 1)))) (seq 0 q).

(** The pairs visited by [for row in range(q): for col in range(q)]. *)
Definition all_pairs (q : nat) : list (nat * nat) :=
  flat_map (fun i => map (pair i) (seq 0 q)) (seq 0 q).

(** The row-by-vector product of [A @ x]. *)
Definition dot (row x : vector) : Number := np_sum (zip_with num_mul row x).

(** [x] solves [A x = b], equality being that of duals. *)
Definition solves (A : matrix) (x b : vector) : Prop :=
  length x = length b /\
  forall i row bi, A !! i = Some row -> b !! i = Some bi -> num_eq (dot row x) bi.

Definition solvesb (A : matrix) (x b : vector) : bool :=
  (length x =? length b)%nat
  && forallb (fun rb => num_eqb (dot (fst rb) x) (snd rb)) (zip A b).

(** ** A solver

    Modelled from the spec: [dual_solve(A, b)] of [rateslib.dual], Gaussian
    elimination with partial pivoting carried out in dual arithmetic, the
    pivot chosen on the absolute value of the real part.  The candidate is
    checked against the system before it is returned, so the solver is
    certifying. *)

Definition aug_row : Type := vector * Number.

Definition row_scale (c : Number) (r : aug_row) : aug_row :=
  (map (num_mul c) (fst r), num_mul c (snd r)).

(** [r - c * p] *)
Definition row_elim (p : aug_row) (k : nat) (r : aug_row) : aug_row :=
  let c := default (NFloat 0) (fst r !! k) in
  (zip_with (fun a b => num_sub a (num_mul c b)) (fst r) (fst p),
   num_sub (snd r) (num_mul c (snd p))).

Definition pivot_abs (k : nat) (r : aug_row) : Qc :=
  let a := to_float (default (NFloat 0) (fst r !! k)) in
  if decide (a < 0) then - a else a.

(** The row of largest pivot, and the others in their order. *)
Fixpoint pick_pivot (k : nat) (rows : list aug_row) : option (aug_row * list aug_row) :=
  match rows with
  | [] => None
  | r :: rows' =>
      match pick_pivot k rows' with
      | None => Some (r, [])
      | Some (p, others) =>
          if decide (pivot_abs k r < pivot_abs k p) then Some (p, r :: others)
          else Some (r, rows')
      end
  end.

Fixpoint gauss_jordan (cols : list nat) (done rest : list aug_row)
  : result (list aug_row) :=
  match cols with
  | [] => Ok done
  | k :: cols' =>
      match pick_pivot k rest with
      | None => Raise SolveError
      | Some (p, others) =>
          piv ← vec_get (fst p) k;
          inv ← match num_div (NFloat 1) piv with
                | Ok i => Ok i
                | Raise _ => Raise SolveError
                end;
          let p' := row_scale inv p in
          gauss_jordan cols' (map (row_elim p' k) done ++ [p']) (map (row_elim p' k) others)
      end
  end.

Definition dual_solve_gauss (A : matrix) (b : vector) : option vector :=
  match gauss_jordan (seq 0 (length b)) [] (zip A b) with
  | Ok rows =>
      let x := map snd rows in
      if solvesb A x b then Some x else None
  | Raise _ => None
  end.

(** ** FXRates *)

Record FXRates := mkFXRates {
  _ad : nat;
  settlement : option date;
  fx_rates : list (string * Dual);
  pairs : list string;
  variables : list string;
  currencies : list (string * nat);
  currencies_list : list string;
  base : string;
  q : nat;
  fx_vector : vector;
  fx_array : matrix
}.

(** [_convert_dual(k, v)] of [FXRates.__init__] *)
Definition convert_dual (k : string) (v : Number) : Dual :=
  match v with
  | NDual d => d
  | NFloat x => dual_var x ("fx_" +:+ lower k)
  end.

(** [set(a) == set(b)] *)
Definition set_eqb (a b : list string) : bool :=
  forallb (fun k => str_in k b) a && forallb (fun k => str_in k a) b.

(** [set(a).difference(set(b))], as the list of its elements *)
Definition set_difference (a b : list string) : list string :=
  List.filter (fun k => negb (str_in k b)) (fromkeys a).

(** The currencies of a pair list, in the order [__init__] finds them:
    [dict.fromkeys([p[:3] for p in pairs] + [p[3:6] for p in pairs])]. *)
Definition find_currencies (pairs : list string) : list string :=
  fromkeys (map (str_take 3) pairs ++ map (str_slice 3 6) pairs).

(** One turn of the loop of [__init__] that fills the system [A x = b]. *)
Definition system_step (currencies : list (string * nat))
    (fx_rates : list (string * Dual)) (Ab : matrix * vector) (ip : nat * string)
  : result (matrix * vector) :=
  let A := fst Ab in
  let b := snd Ab in
  let i := fst ip in
  let pair := snd ip in
  domestic_idx ← dict_item currencies (str_take 3 pair);
  foreign_idx ← dict_item currencies (str_drop 3 pair);
  A ← mat_set A (i + 1) domestic_idx (NFloat (-1));
  r ← dict_item fx_rates pair;
  inv ← num_div (NFloat 1) (NDual r);
  A ← mat_set A (i + 1) foreign_idx inv;
  b ← vec_set b (i + 1) (NFloat 0);
  Ok (A, b).

(** One turn of the double loop that fills [fx_array] from [x]. *)
Definition array_step (x : vector) (M : matrix) (ij : nat * nat) : result matrix :=
  let i := fst ij in
  let j := snd ij in
  xj ← vec_get x j;
  xi ← vec_get x i;
  a ← num_div xj xi;
  b ← num_div xi xj;
  M ← mat_set M i j a;
  mat_set M j i b.

Section Model.
(** [defaults.base_currency], from a module that is not part of [fx.py]. *)
Variable base_currency : string.
(** [dual_solve] of [rateslib.dual]; [None] when the solve fails. *)
Variable dual_solve : matrix -> vector -> option vector.

(** [FXRates.__init__] *)
Definition FXRates_init (fx_rates : list (string * Number))
      (settlement : option date) (base : option string) : result FXRates :=
    let fx_rates_ :=
      dict_of_items (map (fun kv => (lower (fst kv), convert_dual (fst kv) (snd kv))) fx_rates) in
    let pairs := dict_keys fx_rates_ in
    let variables := map (fun pair => "fx_" +:+ pair) pairs in
    let currencies :=
      dict_of_items (map (fun ik => (snd ik, fst ik)) (enumerate (find_currencies pairs))) in
    let currencies_list := dict_keys currencies in
    base_ ← match base with
            | None =>
                if str_in base_currency currencies_list then Ok base_currency
                else vec_get currencies_list 0
            | Some b => Ok (lower b)
            end;
    let q := length currencies in
    if (Z.of_nat q - 1 <? Z.of_nat (length pairs))%Z then
      Raise (ValueError (Overspecified q (length pairs)))
    else if (Z.of_nat (length pairs) <? Z.of_nat q - 1)%Z then
      Raise (ValueError (Underspecified q (length pairs)))
    else
      A ← mat_set (np_zeros2 q) 0 0 (NFloat 1);
      Ab ← fold_result (system_step currencies fx_rates_) (enumerate pairs)
             (A, replicate q (NFloat 1));
      x ← of_option SolveError (dual_solve (fst Ab) (snd Ab));
      fx_array ← fold_result (array_step x) (upper_pairs q) (np_eye q);
      Ok {| _ad := 1; settlement := settlement; fx_rates := fx_rates_;
            pairs := pairs; variables := variables; currencies := currencies;
            currencies_list := currencies_list; base := base_; q := q;
            fx_vector := x; fx_array := fx_array |}.

(** [FXRates.rate] *)
Definition FXRates_rate (self : FXRates) (pair : string) : result Number :=
    let domestic := lower (str_take 3 pair) in
    let foreign := lower (str_drop 3 pair) in
    i ← dict_item (currencies self) domestic;
    j ← dict_item (currencies self) foreign;
    mat_get (fx_array self) i j.

(** [FXRates.copy] *)
Definition FXRates_copy (self : FXRates) : result FXRates :=
    FXRates_init (map (fun kd => (fst kd, NDual (snd kd))) (fx_rates self))
      (settlement self) (Some (base self)).

(** [FXRates.restate] *)
Definition FXRates_restate (self : FXRates) (pairs_ : list string) (keep_ad : bool)
    : result FXRates :=
    if set_eqb pairs_ (pairs self) && keep_ad then FXRates_copy self
    else
      items ← map_result (fun pair =>
                 r ← FXRates_rate self pair;
                 Ok (pair, if keep_ad then r else NFloat (to_float r))) pairs_;
      FXRates_init (dict_of_items items) (settlement self) None.

(** [FXRates.convert]; the result carries the warnings that were emitted. *)
Definition FXRates_convert (self : FXRates) (value : Number) (domestic : string)
      (foreign : option string) (on_error : string)
    : result (option Number * list string) :=
    let foreign := match foreign with None => base self | Some f => lower f end in
    let domestic := lower domestic in
    match List.find (fun ccy => negb (dict_mem (currencies self) ccy)) [domestic; foreign] with
    | Some ccy =>
        if String.eqb on_error "ignore" then Ok (None, [])
        else if String.eqb on_error "warn" then
          Ok (None, ["'" +:+ ccy +:+ "' not in FXRates.currencies: returning None."])
        else Raise (ValueError (NotInCurrencies ccy))
    | None =>
        i ← dict_item (currencies self) (lower domestic);
        j ← dict_item (currencies self) (lower foreign);
        r ← mat_get (fx_array self) i j;
        Ok (Some (num_mul value r), [])
    end.

(** [array_ * self.fx_array[:, j]] with the broadcasting of numpy. *)
Definition np_mul (array : list Qc) (col : vector) : result vector :=
    if (length array =? length col)%nat then
      Ok (zip_with (fun a c => num_mul (NFloat a) c) array col)
    else
      match array, col with
      | [a], _ => Ok (map (num_mul (NFloat a)) col)
      | _, [c] => Ok (map (fun a => num_mul (NFloat a) c) array)
      | _, _ => Raise (ValueError Broadcast)
      end.

(** [FXRates.convert_positions] *)
Definition FXRates_convert_positions (self : FXRates) (array : list Qc)
      (base_ : option string) : result Number :=
    let base_ := match base_ with None => base self | Some b => lower b end in
    j ← dict_item (currencies self) base_;
    col ← mat_col (fx_array self) j;
    prod ← np_mul array col;
    Ok (np_sum prod).

(** [FXRates._get_positions_from_delta] *)
Definition FXRates_get_positions_from_delta (self : FXRates) (delta : Qc)
      (pair : string) (base_ : string) : result (list Qc) :=
    b_idx ← dict_item (currencies self) base_;
    let domestic := str_take 3 pair in
    let foreign := str_drop 3 pair in
    d_idx ← dict_item (currencies self) domestic;
    f_idx ← dict_item (currencies self) foreign;
    let z := replicate (q self) 0 in
    bf ← mat_get (fx_array self) b_idx f_idx;
    let f_val := delta * to_float bf in
    z ← vec_set z d_idx f_val;
    fd ← mat_get (fx_array self) f_idx d_idx;
    v ← (if decide (to_float fd = 0) then Raise ZeroDivisionError
         else Ok (- f_val / to_float fd));
    vec_set z f_idx v.

(** [FXRates.positions] *)
Definition FXRates_positions (self : FXRates) (value : Number)
      (base_ : option string) : result (list Qc) :=
    let value := to_dual value in
    let base_ := match base_ with None => base self | Some b => lower b end in
    let start :=
      map (fun ccy => if negb (String.eqb ccy base_) then 0 else real value)
        (currencies_list self) in
    fold_result (fun acc pair =>
             if String.eqb (str_take 3 pair) "fx_" then
               let delta := gradient value pair in
               d ← FXRates_get_positions_from_delta self delta (str_drop 3 pair) base_;
               Ok (zip_with Qcplus acc d)
             else Ok acc)
      (vars value) start.

(** [FXRates.update], from the state of the object to its new state. *)
Definition FXRates_update (self : FXRates) (fx_rates_new : list (string * Number))
    : result FXRates :=
    let fx_rates_ := dict_of_items (map (fun kv => (lower (fst kv), snd kv)) fx_rates_new) in
    let pairs_ := dict_keys fx_rates_ in
    if negb (length (set_difference pairs_ (pairs self)) =? 0)%nat then
      Raise (ValueError SamePairs)
    else
      items ← map_result (fun pair =>
                 if negb (str_in pair pairs_) then
                   r ← dict_item (fx_rates self) pair; Ok (pair, NFloat (real r))
                 else v ← dict_item fx_rates_ pair; Ok (pair, v)) (pairs self);
      new ← FXRates_init (dict_of_items items) (settlement self) (Some (base self));
      Ok {| _ad := _ad self; settlement := settlement self; fx_rates := fx_rates new;
            pairs := pairs self; variables := variables self;
            currencies := currencies self; currencies_list := currencies_list self;
            base := base self; q := q self;
            fx_vector := fx_vector new; fx_array := fx_array new |}.
End Model.

(** ** Objects and identity

    An object is known to its holders by its identity, here its index in the
    heap; [update] writes the new state at the identity it was called on. *)

Abbreviation heap := (list FXRates).

Section Heap.
Variable base_currency : string.
Variable dual_solve : matrix -> vector -> option vector.

(** [obj.update(fx_rates)] for the object of identity [id]. *)
Definition FXRates_update_at (h : heap) (id : nat)
      (fx_rates_new : list (string * Number)) : result heap :=
    self ← vec_get h id;
    self' ← FXRates_update base_currency dual_solve self fx_rates_new;
    Ok (<[id:=self']> h).
End Heap.

(** ** FXForwards *)

Section Forwards.
Variable base_currency : string.
Variable dual_solve : matrix -> vector -> option vector.
(** The class [Curve] of [rateslib.curves], through what [fx.py] uses of it:
    [curve[date]], [curve.node_dates] and [isinstance(curve, LineCurve)]. *)
Variable Curve : Type.
Variable curve_getitem : Curve -> option date -> result Number.
Variable node_dates : Curve -> list date.
Variable is_line_curve : Curve -> bool.
(** [np.linalg.matrix_rank] *)
Variable matrix_rank : list (list Qc) -> nat.

Record FXForwards := mkFXForwards {
    fxf_fx_curves : list (string * Curve);
    fxf_immediate : option date;
    fxf_terminal : date;
    fxf_fx_rates : FXRates;
    fxf_currencies : list (string * nat);
    fxf_q : nat;
    fxf_currencies_list : list string;
    fxf_transform : list (list Qc);
    fxf_base : string;
    fxf_pairs : list string;
    fxf_variables : list string;
    fxf_fx_rates_immediate : FXRates
  }.

(** The loop of [FXForwards.update] over the curves, which finds
    [immediate] and [terminal]. *)
Definition curve_dates_step (it : option date * date) (kc : string * Curve)
    : result (option date * date) :=
    let curve := snd kc in
    first ← vec_get (node_dates curve) 0;
    immediate ← match fst it with
                | None => Ok (Some first)
                | Some d =>
                    if negb (d =? first)%Z then Raise (ValueError InitialDates)
                    else Ok (Some d)
                end;
    if is_line_curve curve then Raise TypeError
    else
      final ← vec_get (node_dates curve) (length (node_dates curve) - 1);
      Ok (immediate, if (final <? snd it)%Z then final else snd it).

(** [FXForwards._get_forwards_transformation_matrix] *)
Definition get_forwards_transformation_matrix (q : nat)
      (currencies : list (string * nat)) (fx_curves : list (string * Curve))
    : result (list (list Qc)) :=
    T ← fold_result (fun T kc =>
           let cash := lower (str_take 3 (fst kc)) in
           let coll := lower (str_drop 3 (fst kc)) in
           match dict_get currencies cash, dict_get currencies coll with
           | Some cash_idx, Some coll_idx => mat_set T cash_idx coll_idx 1
           | _, _ => Raise (ValueError (UnexpectedCurrency cash coll))
           end) fx_curves (replicate q (replicate q 0));
    let total := foldr Qcplus 0 (concat T) in
    let expected := Qc_of_Z (2 * Z.of_nat q - 1) in
    if decide (expected < total) then Raise (ValueError CurvesOverspecified)
    else if decide (total < expected) then Raise (ValueError CurvesUnderspecified)
    else if negb (matrix_rank T =? q)%nat then Raise (ValueError CoDependent)
    else Ok T.

(** One turn of the double loop of [_update_fx_rates_immediate]. *)
Definition immediate_step (q : nat) (transform : list (list Qc))
      (currencies_list : list string) (fx_curves : list (string * Curve))
      (fxr : FXRates) (d : list (string * Number)) (rc : nat * nat)
    : result (list (string * Number)) :=
    let row := fst rc in
    let col := snd rc in
    if (row =? col)%nat then Ok d
    else
      t ← mat_get transform row col;
      if decide (t = 0) then Ok d
      else
        cash_ccy ← vec_get currencies_list row;
        coll_ccy ← vec_get currencies_list col;
        cv ← dict_item fx_curves (coll_ccy +:+ coll_ccy);
        v_i ← curve_getitem cv (settlement fxr);
        cw ← dict_item fx_curves (cash_ccy +:+ coll_ccy);
        w_i ← curve_getitem cw (settlement fxr);
        a ← mat_get (fx_array fxr) row col;
        r ← num_div (num_mul a v_i) w_i;
        Ok (dict_set d (cash_ccy +:+ coll_ccy) r).

(** [FXForwards._update_fx_rates_immediate], on the attributes it reads. *)
Definition update_fx_rates_immediate (q : nat) (transform : list (list Qc))
      (currencies_list : list string) (fx_curves : list (string * Curve))
      (fxr : FXRates) (immediate : option date) : result FXRates :=
    d ← fold_result (immediate_step q transform currencies_list fx_curves fxr)
          (all_pairs q) [];
    fxi ← FXRates_init base_currency dual_solve d immediate None;
    FXRates_restate base_currency dual_solve fxi (pairs fxr) true.

Definition FXForwards_update_fx_rates_immediate (self : FXForwards) : result FXRates :=
    update_fx_rates_immediate (fxf_q self) (fxf_transform self)
      (fxf_currencies_list self) (fxf_fx_curves self) (fxf_fx_rates self)
      (fxf_immediate self).

(** [FXForwards.__init__] for a single [FXRates] object. *)
Definition FXForwards_init (fx_rates_ : FXRates) (fx_curves : list (string * Curve))
      (base_ : option string) : result FXForwards :=
    let fx_curves_ := dict_of_items (map (fun kc => (lower (fst kc), snd kc)) fx_curves) in
    dates ← fold_result curve_dates_step fx_curves_ (None, 803169%Z);
    let currencies_ := currencies fx_rates_ in
    let q_ := length (dict_keys currencies_) in
    let currencies_list_ := dict_keys currencies_ in
    transform ← get_forwards_transformation_matrix q_ currencies_ fx_curves_;
    let b := match base_ with None => base fx_rates_ | Some b => b end in
    imm ← update_fx_rates_immediate q_ transform currencies_list_ fx_curves_
            fx_rates_ (fst dates);
    Ok {| fxf_fx_curves := fx_curves_; fxf_immediate := fst dates;
          fxf_terminal := snd dates; fxf_fx_rates := fx_rates_;
          fxf_currencies := currencies_; fxf_q := q_;
          fxf_currencies_list := currencies_list_; fxf_transform := transform;
          fxf_base := b; fxf_pairs := pairs fx_rates_;
          fxf_variables := map (fun pair => "fx_" +:+ pair) (pairs fx_rates_);
          fxf_fx_rates_immediate := imm |}.

(** *** The immediate rates as the specification words them *)

(** The immediate rate of the entry (row = cash, col = coll):
    [fx_array[cash, coll] * v_coll(settlement) / w_cashcoll(settlement)]. *)
Definition spec_immediate_rate (self : FXForwards) (rc : nat * nat)
    : result (string * Number) :=
    cash ← vec_get (fxf_currencies_list self) (fst rc);
    coll ← vec_get (fxf_currencies_list self) (snd rc);
    cv ← dict_item (fxf_fx_curves self) (coll +:+ coll);
    v ← curve_getitem cv (settlement (fxf_fx_rates self));
    cw ← dict_item (fxf_fx_curves self) (cash +:+ coll);
    w ← curve_getitem cw (settlement (fxf_fx_rates self));
    a ← mat_get (fx_array (fxf_fx_rates self)) (fst rc) (snd rc);
    r ← num_div (num_mul a v) w;
    Ok (cash +:+ coll, r).

(** The entry (row, col) is off the diagonal and not zero. *)
Definition is_unit_entry (transform : list (list Qc)) (rc : nat * nat) : bool :=
    negb (fst rc =? snd rc)%nat
    && match transform !! fst rc with
       | Some row =>
           match row !! snd rc with
           | Some t => negb (bool_decide (t = 0))
           | None => false
           end
       | None => false
       end.

(** The off-diagonal unit entries of the transform matrix. *)
Definition unit_entries (self : FXForwards) : list (nat * nat) :=
    List.filter (is_unit_entry (fxf_transform self)) (all_pairs (fxf_q self)).

Definition spec_fx_rates_immediate (self : FXForwards) : result FXRates :=
    items ← map_result (spec_immediate_rate self) (unit_entries self);
    fxi ← FXRates_init base_currency dual_solve (dict_of_items items)
            (fxf_immediate self) None;
    FXRates_restate base_currency dual_solve fxi (pairs (fxf_fx_rates self)) true.
End Forwards.

Arguments fxf_fx_curves {Curve} _.
Arguments fxf_immediate {Curve} _.
Arguments fxf_terminal {Curve} _.
Arguments fxf_fx_rates {Curve} _.
Arguments fxf_currencies {Curve} _.
Arguments fxf_q {Curve} _.
Arguments fxf_currencies_list {Curve} _.
Arguments fxf_transform {Curve} _.
Arguments fxf_base {Curve} _.
Arguments fxf_pairs {Curve} _.
Arguments fxf_variables {Curve} _.
Arguments fxf_fx_rates_immediate {Curve} _.

(** ** The table of rates *)

(** A [DataFrame] of floats: its data, row labels and column labels. *)
Record DataFrame := mkDataFrame {
  df_data : list (list Qc);
  df_index : list string;
  df_columns : list string
}.

(** [FXRates.rates_table] *)
Definition FXRates_rates_table (self : FXRates) : DataFrame :=
  {| df_data := map (map to_float) (fx_array self);
     df_index := currencies_list self;
     df_columns := currencies_list self |}.

(** *** The search for a chain of curves *)

(** One step of a path, [{"row": i}] or [{"col": i}]. *)
Inductive route :=
  | RouteRow (i : nat)
  | RouteCol (i : nat).

Definition route_idx (r : route) : nat :=
  match r with
  | RouteRow i => i
  | RouteCol i => i
  end.

(** [np.where(v == 1)[0]] *)
Definition np_where_one (v : list Qc) : list nat :=
  map fst (List.filter (fun ix => bool_decide (snd ix = 1)) (enumerate v)).

(** [i in l] for a list of indices *)
Definition nat_in (i : nat) (l : list nat) : bool := existsb (Nat.eqb i) l.

(** The two loops of [_get_recursive_chain] over the steps that can be
    taken, rows first; [recurse] is the recursive call for a step. *)
Fixpoint chain_loop (recurse : route -> option (result (bool * list route)))
    (start_idx search_idx : nat) (traced_paths : list nat)
    (recursive_path : list route) (steps : list route)
  : option (result (bool * list route)) :=
  match steps with
  | [] => Some (Ok (false, recursive_path))
  | r :: steps' =>
      let path_idx := route_idx r in
      if (path_idx =? start_idx)%nat then
        chain_loop recurse start_idx search_idx traced_paths recursive_path steps'
      else if negb (path_idx =? search_idx)%nat && negb (nat_in path_idx traced_paths) then
        match recurse r with
        | Some (Ok (false, _)) =>
            chain_loop recurse start_idx search_idx traced_paths recursive_path steps'
        | recursion => recursion
        end
      else chain_loop recurse start_idx search_idx traced_paths recursive_path steps'
  end.

(** [FXForwards._get_recursive_chain]; the recursion of the code is bounded
    here by [fuel], and [None] is the answer of a search that ran out of it. *)
Fixpoint get_recursive_chain (fuel : nat) (T : list (list Qc))
    (start_idx search_idx : nat) (traced_paths : list nat)
    (recursive_path : list route) : option (result (bool * list route)) :=
  match fuel with
  | O => None
  | S fuel' =>
      let traced_paths :=
        if (length traced_paths =? 0)%nat then traced_paths ++ [start_idx]
        else traced_paths in
      match vec_get T start_idx with
      | Raise e => Some (Raise e)
      | Ok row =>
          match mat_col T start_idx with
          | Raise e => Some (Raise e)
          | Ok col =>
              let row_paths := np_where_one row in
              let col_paths := np_where_one col in
              if nat_in search_idx row_paths then
                Some (Ok (true, recursive_path ++ [RouteRow search_idx]))
              else if nat_in search_idx col_paths then
                Some (Ok (true, recursive_path ++ [RouteCol search_idx]))
              else
                chain_loop
                  (fun r =>
                     get_recursive_chain fuel' T (route_idx r) search_idx
                       (traced_paths ++ [route_idx r]) (recursive_path ++ [r]))
                  start_idx search_idx traced_paths recursive_path
                  (map RouteRow row_paths ++ map RouteCol col_paths)
          end
      end
  end.

(** The entry is there and is 1. *)
Definition is_one (r : result Qc) : bool :=
  match r with
  | Ok t => bool_decide (t = 1)
  | Raise _ => false
  end.

(** The steps lead from [cur] to [goal], each along a unit entry of [T]: a
    row step from the current index as row, a column step from it as column. *)
Fixpoint chain_walk (T : list (list Qc)) (cur : nat) (steps : list route) (goal : nat)
  : bool :=
  match steps with
  | [] => (cur =? goal)%nat
  | RouteRow j :: steps' => is_one (mat_get T cur j) && chain_walk T j steps' goal
  | RouteCol i :: steps' => is_one (mat_get T i cur) && chain_walk T i steps' goal
  end.

(** [FXForwards._get_curves_for_currencies] *)
Definition get_curves_for_currencies {Curve} (fx_curves : list (string * Curve))
    (currencies : list string) : list (string * Curve) :=
  dict_of_items
    (flat_map (fun p : string * string =>
                 match dict_get fx_curves (fst p +:+ snd p) with
                 | Some curve => [(fst p +:+ snd p, curve)]
                 | None => []
                 end)
       (list_prod currencies currencies)).

(** ** Characters beyond ASCII

    A Python string is a sequence of characters (code points), and slicing
    counts characters.  A [string] here is a sequence of characters as well,
    one [ascii] value for each: the values below 128 are the ASCII
    characters, the values from 128 up stand for characters that are not
    ASCII.  Two of these are given a meaning, the character whose lowercase
    form is longer than itself and the mark that form ends with; the others
    are characters without case.  On strings of ASCII characters
    [lower_unicode] is [lower], and the operations below are those of the
    model above. *)

(** U+0130, LATIN CAPITAL LETTER I WITH DOT ABOVE *)
Definition capital_I_dot : ascii := ascii_of_nat 221.

(** U+0307, COMBINING DOT ABOVE *)
Definition combining_dot : ascii := ascii_of_nat 204.

(** [s.lower()] on these characters: an ASCII capital becomes its small
    letter, U+0130 becomes [i] followed by U+0307, anything else stays. *)
Fixpoint lower_unicode (s : string) : string :=
  match s with
  | EmptyString => EmptyString
  | String c s' =>
      if Ascii.eqb c capital_I_dot then
        String "i" (String combining_dot (lower_unicode s'))
      else String (lower_ascii c) (lower_unicode s')
  end.

(** [s.isascii()] *)
Fixpoint is_ascii (s : string) : bool :=
  match s with
  | EmptyString => true
  | String c s' => (nat_of_ascii c <? 128)%nat && is_ascii s'
  end.

(** [_convert_dual(k, v)] of [FXRates.__init__] *)
Definition convert_dual_unicode (k : string) (v : Number) : Dual :=
  match v with
  | NDual d => d
  | NFloat x => dual_var x ("fx_" +:+ lower_unicode k)
  end.

Section ModelUnicode.
Variable base_currency : string.
Variable dual_solve : matrix -> vector -> option vector.

(** [FXRates.__init__] *)
Definition FXRates_init_unicode (fx_rates : list (string * Number))
      (settlement : option date) (base : option string) : result FXRates :=
    let fx_rates_ :=
      dict_of_items (map (fun kv => (lower_unicode (fst kv),
                                     convert_dual_unicode (fst kv) (snd kv))) fx_rates) in
    let pairs := dict_keys fx_rates_ in
    let variables := map (fun pair => "fx_" +:+ pair) pairs in
    let currencies :=
      dict_of_items (map (fun ik => (snd ik, fst ik)) (enumerate (find_currencies pairs))) in
    let currencies_list := dict_keys currencies in
    base_ ← match base with
            | None =>
                if str_in base_currency currencies_list then Ok base_currency
                else vec_get currencies_list 0
            | Some b => Ok (lower_unicode b)
            end;
    let q := length currencies in
    if (Z.of_nat q - 1 <? Z.of_nat (length pairs))%Z then
      Raise (ValueError (Overspecified q (length pairs)))
    else if (Z.of_nat (length pairs) <? Z.of_nat q - 1)%Z then
      Raise (ValueError (Underspecified q (length pairs)))
    else
      A ← mat_set (np_zeros2 q) 0 0 (NFloat 1);
      Ab ← fold_result (system_step currencies fx_rates_) (enumerate pairs)
             (A, replicate q (NFloat 1));
      x ← of_option SolveError (dual_solve (fst Ab) (snd Ab));
      fx_array ← fold_result (array_step x) (upper_pairs q) (np_eye q);
      Ok {| _ad := 1; settlement := settlement; fx_rates := fx_rates_;
            pairs := pairs; variables := variables; currencies := currencies;
            currencies_list := currencies_list; base := base_; q := q;
            fx_vector := x; fx_array := fx_array |}.

(** [FXRates.rate] *)
Definition FXRates_rate_unicode (self : FXRates) (pair : string) : result Number :=
    let domestic := lower_unicode (str_take 3 pair) in
    let foreign := lower_unicode (str_drop 3 pair) in
    i ← dict_item (currencies self) domestic;
    j ← dict_item (currencies self) foreign;
    mat_get (fx_array self) i j.

(** [FXRates.convert]; the result carries the warnings that were emitted. *)
Definition FXRates_convert_unicode (self : FXRates) (value : Number) (domestic : string)
      (foreign : option string) (on_error : string)
    : result (option Number * list string) :=
    let foreign := match foreign with None => base self | Some f => lower_unicode f end in
    let domestic := lower_unicode domestic in
    match List.find (fun ccy => negb (dict_mem (currencies self) ccy)) [domestic; foreign] with
    | Some ccy =>
        if String.eqb on_error "ignore" then Ok (None, [])
        else if String.eqb on_error "warn" then
          Ok (None, ["'" +:+ ccy +:+ "' not in FXRates.currencies: returning None."])
        else Raise (ValueError (NotInCurrencies ccy))
    | None =>
        i ← dict_item (currencies self) (lower_unicode domestic);
        j ← dict_item (currencies self) (lower_unicode foreign);
        r ← mat_get (fx_array self) i j;
        Ok (Some (num_mul value r), [])
    end.
End ModelUnicode.

(** ** Definitions that follow the wording of the specification *)

(** The currencies in first-appearance order, walking the pair list pair by
    pair, domestic then foreign. *)
Definition spec_walk_currencies (pairs : list string) : list string :=
  fromkeys (flat_map (fun p => [str_take 3 p; str_slice 3 6 p]) pairs).

(** Each element once, at its first appearance. *)
Fixpoint first_seen (l : list string) : list string :=
  match l with
  | [] => []
  | x :: l' => x :: List.filter (fun y => negb (String.eqb x y)) (first_seen l')
  end.

(** The policy of [on_error] for an unknown currency [ccy]. *)
Definition spec_on_error (on_error : string) (ccy : string)
  : result (option Number * list string) :=
  if String.eqb on_error "ignore" then Ok (None, [])
  else if String.eqb on_error "warn" then
    Ok (None, ["'" +:+ ccy +:+ "' not in FXRates.currencies: returning None."])
  else Raise (ValueError (NotInCurrencies ccy)).

(** The first of the two currencies that the object does not know. *)
Definition unknown_currency (self : FXRates) (domestic foreign : string)
  : option string :=
  List.find (fun ccy => negb (dict_mem (currencies self) ccy)) [domestic; foreign].

(** The result of [rate] in the shape of the result of [convert]. *)
Definition as_optional (r : result Number) : result (option Number * list string) :=
  n ← r; Ok (Some n, []).

(** A number built as a dual from rationals, an integer, a fraction. *)
Definition qz (z : Z) : Qc := Q2Qc (inject_Z z).
Definition qq (a : Z) (b : positive) : Qc := Q2Qc (a # b).

(** The rates as [__init__] stores them. *)
Definition stored_rates (fx : list (string * Number)) : list (string * Dual) :=
  dict_of_items (map (fun kv => (lower (fst kv), convert_dual (fst kv) (snd kv))) fx).

(** The index map of the currencies of a pair list. *)
Definition index_map (ps : list string) : list (string * nat) :=
  map (fun ik : nat * string => (snd ik, fst ik)) (enumerate (find_currencies ps)).

Definition not_value_error (e : exn) : Prop := forall v, e <> ValueError v.

Definition has_shape {A} (n : nat) (M : list (list A)) : Prop :=
  length M = n /\ Forall (fun row => length row = n) M.

Definition qsum (l : list Qc) : Qc := foldr Qcplus 0 l.

Definition qdot (a b : list Qc) : Qc := qsum (zip_with Qcmult a b).

(** Row [r] of the system is the equation of the pair [p]. *)
Definition pair_row (cur : list (string * nat)) (frs : list (string * Dual))
    (n : nat) (A : matrix) (b : vector) (r : nat) (p : string) : Prop :=
  exists d f rt inv,
    dict_get cur (str_take 3 p) = Some d
    /\ dict_get cur (str_drop 3 p) = Some f
    /\ dict_get frs p = Some rt
    /\ num_div (NFloat 1) (NDual rt) = Ok inv
    /\ (d < n)%nat /\ (f < n)%nat
    /\ A !! r = Some (<[f:=inv]> (<[d:=NFloat (-1)]> (replicate n (NFloat 0))))
    /\ b !! r = Some (NFloat 0).

(** The entry [(i, j)] of the array is [x[j] / x[i]]. *)
Definition entry_ok (x : vector) (M : matrix) (i j : nat) : Prop :=
  exists xi xj c,
    x !! i = Some xi /\ x !! j = Some xj
    /\ num_div xj xi = Ok c /\ mat_get M i j = Ok c.

Definition entry_sem (x : vector) (M : matrix) (i j : nat) : Prop :=
  exists n xi xj,
    mat_get M i j = Ok n /\ x !! i = Some xi /\ x !! j = Some xj
    /\ to_float xi <> 0 /\ to_float xj <> 0
    /\ to_float n = to_float xj / to_float xi
    /\ forall v, ngrad n v
         = / to_float xi * ngrad xj v
           + - (to_float xj / (to_float xi * to_float xi)) * ngrad xi v.

Definition pair_solved (f : FXRates) (p : string) (d fi : nat) (rt : Dual) : Prop :=
  dict_get (currencies f) (str_take 3 p) = Some d
  /\ dict_get (currencies f) (str_drop 3 p) = Some fi
  /\ (d < q f)%nat /\ (fi < q f)%nat /\ d <> fi
  /\ dict_get (fx_rates f) p = Some rt
  /\ real rt <> 0
  /\ exists xd xf,
       fx_vector f !! d = Some xd /\ fx_vector f !! fi = Some xf
       /\ to_float xd <> 0 /\ to_float xf <> 0
       /\ to_float xf = real rt * to_float xd
       /\ forall v, ngrad xf v = real rt * ngrad xd v + to_float xd * gradient rt v.

(** ** Sample markets *)

Definition no_rates : FXRates :=
  {| _ad := 1; settlement := None; fx_rates := []; pairs := []; variables := [];
     currencies := []; currencies_list := []; base := ""; q := 0;
     fx_vector := []; fx_array := [] |}.

Definition built (r : result FXRates) : FXRates :=
  match r with Ok f => f | Raise _ => no_rates end.

(** [FXRates({"usdnok": 8.0})] *)
Definition usdnok_rates : list (string * Number) := [("usdnok", NFloat (qz 8))].
Definition fxr_usdnok : FXRates :=
  Eval vm_compute in built (FXRates_init "usd" dual_solve_gauss usdnok_rates None None).

(** [FXRates({"eurusd": 1.1, "gbpusd": 1.25, "usdjpy": 100})] *)
Definition market_rates : list (string * Number) :=
  [("eurusd", NFloat (qq 11 10)); ("gbpusd", NFloat (qq 5 4)); ("usdjpy", NFloat (qz 100))].
Definition fxr_market : FXRates :=
  Eval vm_compute in built (FXRates_init "usd" dual_solve_gauss market_rates None None).

(** [FXRates({"usdeur": 0.9, "eurnok": 8.5})] *)
Definition eurnok_rates : list (string * Number) :=
  [("usdeur", NFloat (qq 9 10)); ("eurnok", NFloat (qq 17 2))].
Definition fxr_eurnok : FXRates :=
  Eval vm_compute in built (FXRates_init "usd" dual_solve_gauss eurnok_rates None None).

(** [FXRates({"eurusd": 1.05}, settlement=3)], dates being day numbers *)
Definition eurusd_rates : list (string * Number) := [("eurusd", NFloat (qq 21 20))].
Definition fxr_eurusd : FXRates :=
  Eval vm_compute in
    built (FXRates_init "usd" dual_solve_gauss eurusd_rates (Some 3%Z) None).

(** A flat curve: its node dates and its one discount factor. *)
Definition flat_curve : Type := list date * Qc.
Definition flat_getitem (c : flat_curve) (d : option date) : result Number :=
  match d with
  | Some _ => Ok (NFloat (snd c))
  | None => Raise TypeError
  end.
Definition flat_node_dates (c : flat_curve) : list date := fst c.
Definition never_line_curve (c : flat_curve) : bool := false.
(** The rank of a matrix that is known to have full rank. *)
Definition full_rank (T : list (list Qc)) : nat := length T.

Definition sample_curves : list (string * flat_curve) :=
  [("usdusd", ([1%Z; 366%Z], qq 99 100));
   ("eureur", ([1%Z; 366%Z], qq 199 200));
   ("eurusd", ([1%Z; 366%Z], qq 497 500))].

Definition no_forwards : FXForwards flat_curve :=
  {| fxf_fx_curves := []; fxf_immediate := None; fxf_terminal := 0%Z;
     fxf_fx_rates := no_rates; fxf_currencies := []; fxf_q := 0;
     fxf_currencies_list := []; fxf_transform := []; fxf_base := "";
     fxf_pairs := []; fxf_variables := []; fxf_fx_rates_immediate := no_rates |}.

Definition fxf_eurusd : FXForwards flat_curve :=
  Eval vm_compute in
    match FXForwards_init "usd" dual_solve_gauss flat_curve flat_getitem
            flat_node_dates never_line_curve full_rank fxr_eurusd sample_curves None with
    | Ok x => x
    | Raise _ => no_forwards
    end.

(** The heap with the one object [fxr_eurnok], before and after
    [update({"usdeur": 1.0})]. *)
Definition heap_before : heap := [fxr_eurnok].
Definition usdeur_update : list (string * Number) := [("usdeur", NFloat (qz 1))].
Definition heap_after : heap :=
  Eval vm_compute in
    match FXRates_update_at "usd" dual_solve_gauss heap_before 0 usdeur_update with
    | Ok h => h
    | Raise _ => []
    end.

(** A value with a sensitivity to the rate usdnok, and one with a
    sensitivity to something that is not an FX rate. *)
Definition value_usdnok : Number :=
  NDual (mkDual (qz 125000) [("fx_usdnok", qz (-15625))]).
Definition value_curve : Number := NDual (mkDual (qz 100) [("v0", qz 1)]).

(** The market restated onto other pairs, without and with the
    derivatives, and [fxr_eurnok] after [update({"usdeur": 1.0})]. *)
Definition fxr_restated : FXRates :=
  Eval vm_compute in
    built (FXRates_restate "usd" dual_solve_gauss fxr_market
             ["eurgbp"; "gbpjpy"; "usdjpy"] false).

Definition fxr_restated_ad : FXRates :=
  Eval vm_compute in
    built (FXRates_restate "usd" dual_solve_gauss fxr_market
             ["eurgbp"; "gbpjpy"; "usdjpy"] true).

Definition fxr_eurnok_updated : FXRates :=
  Eval vm_compute in built (FXRates_update "usd" dual_solve_gauss fxr_eurnok usdeur_update).

(** The matrix [T] of the example in the docstring of [_get_recursive_chain]. *)
Definition chain_example : list (list Qc) :=
  [[1; 1; 1; 0]; [0; 1; 0; 1]; [0; 0; 1; 0]; [0; 0; 0; 1]].

(** A matrix in which the last currency stands alone. *)
Definition chain_apart : list (list Qc) := [[1; 1; 0]; [0; 1; 0]; [0; 0; 1]].

(** The pair [İausd] and its lowercase form, of six characters. *)
Definition dotted_pair : string := String capital_I_dot "ausd".
Definition dotted_key : string := String "i" (String combining_dot "ausd").

(** [FXRates({"i̇ausd": 2.0})], the key being [dotted_key] *)
Definition fxr_dotted : FXRates :=
  Eval vm_compute in
    built (FXRates_init_unicode "usd" dual_solve_gauss [(dotted_key, NFloat (qz 2))]
             None None).

(** [FXRates({"usdeur": 0.95}, settlement=3)], and the [FXForwards] of it and
    of the sample curves, whose cross curve [eurusd] is not a pair of it. *)
Definition usdeur_rates : list (string * Number) := [("usdeur", NFloat (qq 19 20))].
Definition fxr_usdeur : FXRates :=
  Eval vm_compute in
    built (FXRates_init "usd" dual_solve_gauss usdeur_rates (Some 3%Z) None).
Definition fxf_usdeur : FXForwards flat_curve :=
  Eval vm_compute in
    match FXForwards_init "usd" dual_solve_gauss flat_curve flat_getitem
            flat_node_dates never_line_curve full_rank fxr_usdeur sample_curves None with
    | Ok x => x
    | Raise _ => no_forwards
    end.

(** * Properties *)

(** ** The result monad *)

Lemma bind_Ok {A B} (m : result A) (k : A -> result B) (b : B) :
  (m ≫= k) = Ok b -> exists a, m = Ok a /\ k a = Ok b.
Proof. destruct m as [a|e]; simpl; intros H; [eauto | discriminate]. Qed.

Lemma bind_Raise {A B} (m : result A) (k : A -> result B) (e : exn) :
  (m ≫= k) = Raise e -> m = Raise e \/ exists a, m = Ok a /\ k a = Raise e.
Proof. destruct m as [a|e']; simpl; intros H; [eauto | left; congruence]. Qed.

Lemma of_option_Ok {A} (e : exn) (o : option A) (a : A) :
  of_option e o = Ok a <-> o = Some a.
Proof. destruct o; simpl; split; congruence. Qed.

Ltac inv_bind H :=
  let a := fresh "a" in
  let Ha := fresh "H" a in
  apply bind_Ok in H; destruct H as (a & Ha & H).

(** ** Strings *)

Lemma lower_ascii_idemp c : lower_ascii (lower_ascii c) = lower_ascii c.
Proof. destruct c as [[] [] [] [] [] [] [] []]; reflexivity. Qed.

Lemma lower_idemp s : lower (lower s) = lower s.
Proof. induction s as [|c s IH]; simpl; [done|]. by rewrite lower_ascii_idemp, IH. Qed.

Lemma lower_take n s : lower (str_take n s) = str_take n (lower s).
Proof.
  revert s; induction n as [|n IH]; intros [|c s]; simpl; try done.
  by rewrite IH.
Qed.

Lemma lower_drop n s : lower (str_drop n s) = str_drop n (lower s).
Proof. revert s; induction n as [|n IH]; intros [|c s]; simpl; try done. Qed.

Lemma lower_slice a b s : lower (str_slice a b s) = str_slice a b (lower s).
Proof. unfold str_slice. by rewrite lower_take, lower_drop. Qed.

Lemma eqb_eq_true (a b : string) : String.eqb a b = true <-> a = b.
Proof. apply String.eqb_eq. Qed.

Lemma str_in_true k l : str_in k l = true <-> k ∈ l.
Proof.
  unfold str_in. rewrite existsb_exists. split.
  - intros (x & Hx & He). apply String.eqb_eq in He. subst.
    by apply list_elem_of_In.
  - intros H. exists k. split; [by apply list_elem_of_In | apply String.eqb_refl].
Qed.

Lemma str_in_false k l : str_in k l = false <-> k ∉ l.
Proof.
  rewrite <- str_in_true. destruct (str_in k l); split; congruence.
Qed.

(** ** Case-insensitivity *)

Section CaseInsensitive.
Variable base_currency : string.
Variable dual_solve : matrix -> vector -> option vector.

Lemma rate_lower (self : FXRates) (pair : string) :
    FXRates_rate self (lower pair) = FXRates_rate self pair.
  Proof.
    unfold FXRates_rate.
    by rewrite <- !lower_take, <- !lower_drop, !lower_idemp.
  Qed.

Lemma convert_lower (self : FXRates) (value : Number) (domestic : string)
      (foreign : option string) (on_error : string) :
    FXRates_convert self value (lower domestic) (lower <$> foreign) on_error
    = FXRates_convert self value domestic foreign on_error.
  Proof.
    unfold FXRates_convert.
    destruct foreign as [f|]; simpl; by rewrite !lower_idemp.
  Qed.

Lemma init_lower (fx_rates_ : list (string * Number)) (settlement_ : option date)
      (base_ : option string) :
    FXRates_init base_currency dual_solve
      (map (fun kv => (lower (fst kv), snd kv)) fx_rates_) settlement_
      (lower <$> base_)
    = FXRates_init base_currency dual_solve fx_rates_ settlement_ base_.
  Proof.
    unfold FXRates_init.
    rewrite map_map.
    replace (map (fun x : string * Number =>
                (lower (fst (lower (fst x), snd x)),
                 convert_dual (fst (lower (fst x), snd x)) (snd (lower (fst x), snd x))))
              fx_rates_)
      with (map (fun kv : string * Number =>
                (lower (fst kv), convert_dual (fst kv) (snd kv))) fx_rates_).
    2:{ apply map_ext. intros [k v]; simpl. rewrite lower_idemp.
        destruct v; simpl; [by rewrite lower_idemp | done]. }
    destruct base_ as [b|]; simpl; [by rewrite lower_idemp | done].
  Qed.

End CaseInsensitive.

(** ** Lowercasing beyond ASCII *)

Lemma lower_unicode_ascii s : is_ascii s = true -> lower_unicode s = lower s.
Proof.
  induction s as [|c s IH]; cbn [is_ascii lower_unicode lower]; [done|].
  intros H. apply andb_prop in H as [Hc Hs]. rewrite (IH Hs).
  destruct (Ascii.eqb c capital_I_dot) eqn:E; [|done].
  apply Ascii.eqb_eq in E. subst. discriminate.
Qed.

Lemma lower_ascii_not_dotted c :
  Ascii.eqb c capital_I_dot = false -> Ascii.eqb (lower_ascii c) capital_I_dot = false.
Proof. destruct c as [[] [] [] [] [] [] [] []]; vm_compute; done. Qed.

Lemma lower_unicode_idemp s : lower_unicode (lower_unicode s) = lower_unicode s.
Proof.
  induction s as [|c s IH]; cbn [lower_unicode]; [done|].
  destruct (Ascii.eqb c capital_I_dot) eqn:E; cbn [lower_unicode].
  - change (Ascii.eqb "i" capital_I_dot) with false.
    change (Ascii.eqb combining_dot capital_I_dot) with false.
    cbv iota. change (lower_ascii "i") with "i"%char.
    change (lower_ascii combining_dot) with combining_dot. by rewrite IH.
  - by rewrite (lower_ascii_not_dotted c E), lower_ascii_idemp, IH.
Qed.

Lemma is_ascii_take n s : is_ascii s = true -> is_ascii (str_take n s) = true.
Proof.
  revert s. induction n as [|n IH]; intros [|c s]; cbn [str_take is_ascii]; try done.
  intros H. apply andb_prop in H as [-> Hs]. by rewrite IH.
Qed.

Lemma is_ascii_drop n s : is_ascii s = true -> is_ascii (str_drop n s) = true.
Proof.
  revert s. induction n as [|n IH]; intros [|c s]; cbn [str_drop is_ascii]; try done.
  intros H. apply andb_prop in H as [_ Hs]. by apply IH.
Qed.

Lemma is_ascii_lower_ascii c :
  (nat_of_ascii c <? 128)%nat = true -> (nat_of_ascii (lower_ascii c) <? 128)%nat = true.
Proof. destruct c as [[] [] [] [] [] [] [] []]; vm_compute; done. Qed.

Lemma is_ascii_lower s : is_ascii s = true -> is_ascii (lower s) = true.
Proof.
  induction s as [|c s IH]; cbn [is_ascii lower]; [done|].
  intros H. apply andb_prop in H as [Hc Hs].
  by rewrite (is_ascii_lower_ascii c Hc), IH.
Qed.

(** On ASCII arguments the operations are those of the model with [lower]. *)
Lemma rate_unicode_ascii (self : FXRates) (pair : string) :
  is_ascii pair = true -> FXRates_rate_unicode self pair = FXRates_rate self pair.
Proof.
  intros H. unfold FXRates_rate_unicode, FXRates_rate.
  by rewrite !lower_unicode_ascii by (by apply is_ascii_take || by apply is_ascii_drop).
Qed.

Section CaseInsensitiveUnicode.
Variable base_currency : string.
Variable dual_solve : matrix -> vector -> option vector.

Lemma init_unicode_ascii (fx_rates_ : list (string * Number)) (settlement_ : option date)
      (base_ : option string) :
    forallb (fun kv => is_ascii (fst kv)) fx_rates_ = true ->
    from_option is_ascii true base_ = true ->
    FXRates_init_unicode base_currency dual_solve fx_rates_ settlement_ base_
    = FXRates_init base_currency dual_solve fx_rates_ settlement_ base_.
  Proof.
    intros Hfx Hb. unfold FXRates_init_unicode, FXRates_init.
    replace (map (fun kv : string * Number =>
                (lower_unicode (fst kv), convert_dual_unicode (fst kv) (snd kv))) fx_rates_)
      with (map (fun kv : string * Number =>
                (lower (fst kv), convert_dual (fst kv) (snd kv))) fx_rates_).
    2:{ apply map_ext_in. intros [k v] Hkv. rewrite forallb_forall in Hfx.
        pose proof (Hfx _ Hkv) as Hk. cbn [fst snd] in *.
        rewrite (lower_unicode_ascii k Hk).
        destruct v; simpl; [by rewrite (lower_unicode_ascii k Hk) | done]. }
    destruct base_ as [b|]; [|done]. simpl in Hb. by rewrite (lower_unicode_ascii b Hb).
  Qed.

Lemma convert_lower_unicode (self : FXRates) (value : Number) (domestic : string)
      (foreign : option string) (on_error : string) :
    FXRates_convert_unicode self value (lower_unicode domestic)
      (lower_unicode <$> foreign) on_error
    = FXRates_convert_unicode self value domestic foreign on_error.
  Proof.
    unfold FXRates_convert_unicode.
    destruct foreign as [f|]; simpl; by rewrite !lower_unicode_idemp.
  Qed.

Lemma init_lower_unicode (fx_rates_ : list (string * Number))
      (settlement_ : option date) (base_ : option string) :
    FXRates_init_unicode base_currency dual_solve
      (map (fun kv => (lower_unicode (fst kv), snd kv)) fx_rates_) settlement_
      (lower_unicode <$> base_)
    = FXRates_init_unicode base_currency dual_solve fx_rates_ settlement_ base_.
  Proof.
    unfold FXRates_init_unicode.
    rewrite map_map.
    replace (map (fun x : string * Number =>
                (lower_unicode (fst (lower_unicode (fst x), snd x)),
                 convert_dual_unicode (fst (lower_unicode (fst x), snd x))
                   (snd (lower_unicode (fst x), snd x))))
              fx_rates_)
      with (map (fun kv : string * Number =>
                (lower_unicode (fst kv), convert_dual_unicode (fst kv) (snd kv)))
              fx_rates_).
    2:{ apply map_ext. intros [k v]; simpl. rewrite lower_unicode_idemp.
        destruct v; simpl; [by rewrite lower_unicode_idemp | done]. }
    destruct base_ as [b|]; simpl; [by rewrite lower_unicode_idemp | done].
  Qed.

(** C10, as the code has it, [.lower()] being that of Python.  For a pair of
    ASCII characters [rate] returns the same as for its lowercase form;
    [convert] returns the same for any casing of [domestic] and [foreign];
    and constructing from a map (and a base) gives the very object that the
    lowercased keys (and base) give. *)
Theorem FXRates_case_insensitive :
    (forall self pair, is_ascii pair = true ->
       FXRates_rate_unicode self pair = FXRates_rate_unicode self (lower_unicode pair))
    /\ (forall self value domestic foreign on_error,
          FXRates_convert_unicode self value domestic foreign on_error
          = FXRates_convert_unicode self value (lower_unicode domestic)
              (lower_unicode <$> foreign) on_error)
    /\ (forall fx_rates_ settlement_ base_,
          FXRates_init_unicode base_currency dual_solve fx_rates_ settlement_ base_
          = FXRates_init_unicode base_currency dual_solve
              (map (fun kv => (lower_unicode (fst kv), snd kv)) fx_rates_) settlement_
              (lower_unicode <$> base_)).
  Proof.
    split; [|split].
    - intros self pair H.
      rewrite lower_unicode_ascii by done.
      rewrite !rate_unicode_ascii by (done || by apply is_ascii_lower).
      symmetry. apply rate_lower.
    - intros. symmetry. apply convert_lower_unicode.
    - intros. symmetry. apply init_lower_unicode.
  Qed.
End CaseInsensitiveUnicode.

(** ** Dictionaries *)

Section DictFacts.
Context {V : Type}.
Implicit Types (d : list (string * V)) (k : string) (v : V).

Lemma dict_keys_set d k v :
    dict_keys (dict_set d k v)
    = if str_in k (dict_keys d) then dict_keys d else dict_keys d ++ [k].
  Proof.
    induction d as [|[k' v'] d IH]; simpl; [done|].
    rewrite (String.eqb_sym k k').
    destruct (String.eqb k' k) eqn:E; simpl; [done|].
    rewrite IH. by destruct (str_in k (dict_keys d)).
  Qed.

Lemma dict_get_set_eq d k v : dict_get (dict_set d k v) k = Some v.
  Proof.
    induction d as [|[k' v'] d IH]; simpl.
    - by rewrite String.eqb_refl.
    - destruct (String.eqb k' k) eqn:E; simpl; by rewrite E.
  Qed.

Lemma dict_get_set_ne d k k' v :
    k <> k' -> dict_get (dict_set d k v) k' = dict_get d k'.
  Proof.
    intros Hne. induction d as [|[k0 v0] d IH]; simpl.
    - destruct (String.eqb k k') eqn:E; [|done].
      apply String.eqb_eq in E. done.
    - destruct (String.eqb k0 k) eqn:E; simpl.
      + apply String.eqb_eq in E. subst k0.
        destruct (String.eqb k k') eqn:E'; [|done].
        apply String.eqb_eq in E'. done.
      + by rewrite IH.
  Qed.

Lemma dict_get_None d k : dict_get d k = None <-> k ∉ dict_keys d.
  Proof.
    induction d as [|[k' v'] d IH]; simpl.
    - split; [intros _; apply not_elem_of_nil | done].
    - rewrite not_elem_of_cons, <- IH.
      destruct (String.eqb k' k) eqn:E.
      + apply String.eqb_eq in E. subst. split; [done | intros [? _]; done].
      + apply String.eqb_neq in E. split; [intros; split; congruence | tauto].
  Qed.

Lemma dict_get_Some_elem d k v : dict_get d k = Some v -> (k, v) ∈ d.
  Proof.
    induction d as [|[k' v'] d IH]; simpl; [done|].
    destruct (String.eqb k' k) eqn:E.
    - apply String.eqb_eq in E. intros [= ->]. subst. apply elem_of_cons. by left.
    - intros H. apply elem_of_cons. right. auto.
  Qed.

Lemma dict_get_nodup d k v :
    NoDup (dict_keys d) -> (k, v) ∈ d -> dict_get d k = Some v.
  Proof.
    induction d as [|[k' v'] d IH]; simpl; intros Hnd Hin.
    - by apply elem_of_nil in Hin.
    - pose proof (NoDup_cons_1_1 _ _ Hnd) as Hk.
      apply NoDup_cons_1_2 in Hnd.
      apply elem_of_cons in Hin as [[= -> ->]|Hin].
      + by rewrite String.eqb_refl.
      + destruct (String.eqb k' k) eqn:E; [|auto].
        apply String.eqb_eq in E. subst k'. exfalso. apply Hk.
        unfold dict_keys. apply list_elem_of_fmap. by exists (k, v).
  Qed.

Lemma dict_set_fresh d k v : k ∉ dict_keys d -> dict_set d k v = d ++ [(k, v)].
  Proof.
    induction d as [|[k' v'] d IH]; simpl; [done|].
    rewrite not_elem_of_cons. intros [Hne Hk].
    destruct (String.eqb k' k) eqn:E.
    - apply String.eqb_eq in E. congruence.
    - by rewrite IH.
  Qed.

Lemma fold_dict_set_nodup (items acc : list (string * V)) :
    NoDup (dict_keys (acc ++ items)) ->
    fold_left (fun d kv => dict_set d (fst kv) (snd kv)) items acc = acc ++ items.
  Proof.
    revert acc. induction items as [|[k v] items IH]; intros acc Hnd; simpl.
    - by rewrite app_nil_r.
    - rewrite dict_set_fresh.
      + rewrite IH; rewrite <- app_assoc; [done | exact Hnd].
      + unfold dict_keys in Hnd. rewrite map_app in Hnd.
        apply list.NoDup_app in Hnd as (_ & Hd & _).
        intros Hin. apply (Hd k Hin). simpl. apply elem_of_cons. by left.
  Qed.

Lemma dict_of_items_nodup (items : list (string * V)) :
    NoDup (dict_keys items) -> dict_of_items items = items.
  Proof. intros H. unfold dict_of_items. by rewrite fold_dict_set_nodup. Qed.
End DictFacts.

(** ** The order of the currencies *)

Lemma elem_of_filter_eqb x y (l : list string) :
  x ∈ List.filter (fun z => negb (String.eqb y z)) l <-> x ∈ l /\ y <> x.
Proof.
  rewrite list_elem_of_In, filter_In, <- list_elem_of_In.
  destruct (String.eqb y x) eqn:E; simpl.
  - apply String.eqb_eq in E. split; [intros [_ ?]; done | intros [_ ?]; done].
  - apply String.eqb_neq in E. tauto.
Qed.

Lemma first_seen_elem x l : x ∈ first_seen l <-> x ∈ l.
Proof.
  induction l as [|y l IH]; simpl; [done|].
  rewrite !elem_of_cons, elem_of_filter_eqb, IH.
  destruct (decide (x = y)) as [->|Hne]; [tauto|].
  split; [tauto|]. intros [?|?]; [done|]. right. split; [done|congruence].
Qed.

Lemma first_seen_NoDup l : NoDup (first_seen l).
Proof.
  induction l as [|y l IH]; simpl; [constructor|].
  apply NoDup_cons_2.
  - rewrite elem_of_filter_eqb. intros [_ H]. done.
  - apply NoDup_ListNoDup, List.NoDup_filter, NoDup_ListNoDup, IH.
Qed.

Lemma filter_str_in_cons x acc l :
  List.filter (fun v => negb (str_in v (acc ++ [x])))
    l
  = List.filter (fun v => negb (str_in v acc))
      (List.filter (fun y => negb (String.eqb x y)) l).
Proof.
  induction l as [|y l IH]; simpl; [done|].
  unfold str_in at 1. rewrite existsb_app. simpl. rewrite orb_false_r.
  fold (str_in y acc). rewrite (String.eqb_sym y x).
  destruct (String.eqb x y); simpl.
  - rewrite orb_true_r. simpl. apply IH.
  - rewrite orb_false_r. destruct (str_in y acc); simpl; by rewrite IH.
Qed.

Lemma filter_str_in_absorb x acc l :
  str_in x acc = true ->
  List.filter (fun v => negb (str_in v acc))
    (List.filter (fun y => negb (String.eqb x y)) l)
  = List.filter (fun v => negb (str_in v acc)) l.
Proof.
  intros Hx. induction l as [|y l IH]; simpl; [done|].
  destruct (String.eqb x y) eqn:E; simpl.
  - apply String.eqb_eq in E. subst y. by rewrite Hx.
  - destruct (str_in y acc); simpl; by rewrite IH.
Qed.

Lemma fold_fromkeys (l : list string) (acc : list (string * unit)) :
  dict_keys (fold_left (fun d kv => dict_set d (fst kv) (snd kv))
               (map (fun k => (k, tt)) l) acc)
  = dict_keys acc
    ++ List.filter (fun v => negb (str_in v (dict_keys acc))) (first_seen l).
Proof.
  revert acc. induction l as [|x l IH]; intros acc; simpl.
  - by rewrite app_nil_r.
  - rewrite IH, dict_keys_set.
    destruct (str_in x (dict_keys acc)) eqn:E; simpl.
    + by rewrite filter_str_in_absorb.
    + by rewrite <- app_assoc, filter_str_in_cons.
Qed.

(** [dict.fromkeys] keeps each key at its first appearance. *)
Lemma fromkeys_first_seen l : fromkeys l = first_seen l.
Proof.
  unfold fromkeys, dict_of_items. rewrite fold_fromkeys. simpl.
  induction (first_seen l) as [|y t IH]; simpl; [done|]. by rewrite IH.
Qed.

Lemma enumerate_keys (l : list string) :
  dict_keys (map (fun ik : nat * string => (snd ik, fst ik)) (enumerate l)) = l.
Proof.
  unfold dict_keys, enumerate. rewrite map_map. simpl.
  generalize 0%nat. induction l as [|x l IH]; intros n; simpl; [done|].
  by rewrite IH.
Qed.

(** The index map of [__init__] is the enumeration of the currencies found. *)
Lemma currencies_enumerate (ps : list string) :
  dict_of_items (map (fun ik : nat * string => (snd ik, fst ik))
                   (enumerate (find_currencies ps)))
  = map (fun ik : nat * string => (snd ik, fst ik)) (enumerate (find_currencies ps)).
Proof.
  apply dict_of_items_nodup. rewrite enumerate_keys.
  unfold find_currencies. rewrite fromkeys_first_seen. apply first_seen_NoDup.
Qed.

Lemma enumerate_lookup_from (l : list string) (n j : nat) (c : string) :
  NoDup l ->
  (dict_get (map (fun ik : nat * string => (snd ik, fst ik))
               (combine (seq n (length l)) l)) c = Some j
   <-> exists i, j = (n + i)%nat /\ l !! i = Some c).
Proof.
  revert n. induction l as [|x l IH]; intros n Hnd; simpl.
  - split; [done | intros (i & _ & H); done].
  - pose proof (NoDup_cons_1_1 _ _ Hnd) as Hx. apply NoDup_cons_1_2 in Hnd.
    destruct (String.eqb x c) eqn:E.
    + apply String.eqb_eq in E. subst x. split.
      * intros [= <-]. exists 0%nat. split; [lia | done].
      * intros ([|i] & -> & Hi); [f_equal; lia|]. simpl in Hi.
        exfalso. apply Hx. eapply list_elem_of_lookup_2. exact Hi.
    + apply String.eqb_neq in E. rewrite (IH (S n) Hnd). split.
      * intros (i & -> & Hi). exists (S i). split; [lia | done].
      * intros ([|i] & -> & Hi); simpl in Hi; [congruence|].
        exists i. split; [lia | done].
Qed.

Lemma enumerate_lookup (l : list string) (i : nat) (c : string) :
  NoDup l ->
  (l !! i = Some c
   <-> dict_get (map (fun ik : nat * string => (snd ik, fst ik)) (enumerate l)) c = Some i).
Proof.
  intros Hnd. unfold enumerate. rewrite (enumerate_lookup_from l 0 i c Hnd).
  split; [intros H; exists i; done | intros (i' & -> & H); done].
Qed.

Lemma find_currencies_NoDup ps : NoDup (find_currencies ps).
Proof. unfold find_currencies. rewrite fromkeys_first_seen. apply first_seen_NoDup. Qed.

(** ** What a successful construction establishes *)

Section Construction.
Variable base_currency : string.
Variable dual_solve : matrix -> vector -> option vector.

Local Abbreviation init := (FXRates_init base_currency dual_solve).

Lemma init_inv fx s b f :
    init fx s b = Ok f ->
    let ps := dict_keys (stored_rates fx) in
    let n := length (find_currencies ps) in
    fx_rates f = stored_rates fx
    /\ pairs f = ps
    /\ currencies f = index_map ps
    /\ currencies_list f = find_currencies ps
    /\ q f = n
    /\ settlement f = s
    /\ (Z.of_nat (length ps) = Z.of_nat n - 1)%Z
    /\ exists A0 Ab,
        mat_set (np_zeros2 n) 0 0 (NFloat 1) = Ok A0
        /\ fold_result (system_step (index_map ps) (stored_rates fx)) (enumerate ps)
             (A0, replicate n (NFloat 1)) = Ok Ab
        /\ dual_solve (fst Ab) (snd Ab) = Some (fx_vector f)
        /\ fold_result (array_step (fx_vector f)) (upper_pairs n) (np_eye n) = Ok (fx_array f).
  Proof.
    unfold FXRates_init. fold (stored_rates fx).
    set (ps := dict_keys (stored_rates fx)).
    rewrite currencies_enumerate. fold (index_map ps).
    assert (Hk : dict_keys (index_map ps) = find_currencies ps)
      by apply enumerate_keys.
    assert (Hl : length (index_map ps) = length (find_currencies ps)).
    { rewrite <- Hk. unfold dict_keys. by rewrite length_map. }
    rewrite Hk, Hl. set (n := length (find_currencies ps)).
    intros H. inv_bind H.
    destruct (Z.of_nat n - 1 <? Z.of_nat (length ps))%Z eqn:E1; [discriminate|].
    destruct (Z.of_nat (length ps) <? Z.of_nat n - 1)%Z eqn:E2; [discriminate|].
    inv_bind H. inv_bind H. inv_bind H. inv_bind H.
    injection H as <-. simpl.
    apply of_option_Ok in Ha2.
    repeat split; try done; [lia|]. eauto 10.
  Qed.
End Construction.

(** ** The exceptions of the stages of [__init__] *)

Lemma vec_get_raise {A} (l : list A) i e : vec_get l i = Raise e -> e = IndexError.
Proof. unfold vec_get. destruct (l !! i); simpl; congruence. Qed.

Lemma vec_set_raise {A} (l : list A) i a e : vec_set l i a = Raise e -> e = IndexError.
Proof. unfold vec_set. destruct (i <? length l)%nat; congruence. Qed.

Lemma mat_get_raise {A} (M : list (list A)) i j e :
  mat_get M i j = Raise e -> e = IndexError.
Proof.
  unfold mat_get. intros H. apply bind_Raise in H as [H|(r & _ & H)];
    eauto using @vec_get_raise.
Qed.

Lemma mat_set_raise {A} (M : list (list A)) i j a e :
  mat_set M i j a = Raise e -> e = IndexError.
Proof.
  unfold mat_set. intros H.
  apply bind_Raise in H as [H|(r & _ & H)]; [eauto using @vec_get_raise|].
  apply bind_Raise in H as [H|(r' & _ & H)]; eauto using @vec_set_raise.
Qed.

Lemma dict_item_raise {V} (d : list (string * V)) k e :
  dict_item d k = Raise e -> e = KeyError k.
Proof. unfold dict_item. destruct (dict_get d k); simpl; congruence. Qed.

Lemma num_div_raise a b e : num_div a b = Raise e -> e = ZeroDivisionError.
Proof.
  unfold num_div, dual_div. intros H.
  destruct a, b; simpl in H;
    repeat match type of H with
      | context [decide ?P] => destruct (decide P); simpl in H
      end; congruence.
Qed.

Lemma fold_result_raise {S A} (P : exn -> Prop) (f : S -> A -> result S) l s e :
  (forall s a e, f s a = Raise e -> P e) -> fold_result f l s = Raise e -> P e.
Proof.
  intros Hf. revert s. induction l as [|a l IH]; intros s; simpl; [done|].
  intros H. apply bind_Raise in H as [H|(s' & _ & H)]; eauto.
Qed.

Ltac raise_cases H :=
  repeat match type of H with
    | (_ ≫= _) = Raise _ =>
        let a := fresh "a" in
        apply bind_Raise in H as [H|(a & _ & H)]
    end.

Lemma system_step_raise cur frs Ab ip e :
  system_step cur frs Ab ip = Raise e -> not_value_error e.
Proof.
  unfold system_step. intros H v.
  apply bind_Raise in H as [H|(a1 & _ & H)]; [apply dict_item_raise in H; congruence|].
  apply bind_Raise in H as [H|(a2 & _ & H)]; [apply dict_item_raise in H; congruence|].
  apply bind_Raise in H as [H|(a3 & _ & H)]; [apply mat_set_raise in H; congruence|].
  apply bind_Raise in H as [H|(a4 & _ & H)]; [apply dict_item_raise in H; congruence|].
  apply bind_Raise in H as [H|(a5 & _ & H)]; [apply num_div_raise in H; congruence|].
  apply bind_Raise in H as [H|(a6 & _ & H)]; [apply mat_set_raise in H; congruence|].
  apply bind_Raise in H as [H|(a7 & _ & H)]; [apply vec_set_raise in H; congruence|].
  discriminate.
Qed.

Lemma array_step_raise x M ij e :
  array_step x M ij = Raise e -> not_value_error e.
Proof.
  unfold array_step. intros H v.
  apply bind_Raise in H as [H|(a1 & _ & H)]; [apply vec_get_raise in H; congruence|].
  apply bind_Raise in H as [H|(a2 & _ & H)]; [apply vec_get_raise in H; congruence|].
  apply bind_Raise in H as [H|(a3 & _ & H)]; [apply num_div_raise in H; congruence|].
  apply bind_Raise in H as [H|(a4 & _ & H)]; [apply num_div_raise in H; congruence|].
  apply bind_Raise in H as [H|(a5 & _ & H)]; [apply mat_set_raise in H; congruence|].
  apply mat_set_raise in H; congruence.
Qed.





Section PairCount.
Variable base_currency : string.
Variable dual_solve : matrix -> vector -> option vector.

Local Abbreviation init := (FXRates_init base_currency dual_solve).

(** C5, as the code has it: the currencies are indexed in the order of
    their first appearance in the list of all domestic codes of the pairs
    followed by all foreign codes of the pairs, and the index map sends each
    currency to its position in that order. *)
Theorem currencies_first_seen fx s b f :
    init fx s b = Ok f ->
    currencies_list f
      = first_seen (map (str_take 3) (pairs f) ++ map (str_slice 3 6) (pairs f))
    /\ forall i c, currencies_list f !! i = Some c <-> dict_get (currencies f) c = Some i.
  Proof.
    intros H. apply init_inv in H as (_ & Hp & Hc & Hl & _).
    rewrite Hp, Hc, Hl. split.
    - unfold find_currencies. apply fromkeys_first_seen.
    - intros i c. apply enumerate_lookup, find_currencies_NoDup.
  Qed.


End PairCount.

(** ** The [on_error] policy *)

Lemma dict_item_unknown {V} (d : list (string * V)) k :
  dict_mem d k = false -> dict_item d k = Raise (KeyError k).
Proof. unfold dict_mem, dict_item. destruct (dict_get d k); simpl; congruence. Qed.

Lemma dict_item_known {V} (d : list (string * V)) k :
  dict_mem d k = true -> exists v, dict_item d k = Ok v.
Proof. unfold dict_mem, dict_item. destruct (dict_get d k); simpl; [eauto | congruence]. Qed.

(** C7, as the code has it: [convert] hands an unknown currency to the
    [on_error] policy ("ignore" returns [None] silently, "warn" returns [None]
    with a warning, anything else raises), whereas [rate], which has no
    [on_error] argument, raises a [KeyError] for an unknown currency. *)
Theorem unknown_currency_policy (self : FXRates) (value : Number)
    (domestic : string) (foreign : option string) (on_error : string)
    (ccy pair : string) :
  unknown_currency self (lower domestic)
    (match foreign with None => base self | Some f => lower f end) = Some ccy ->
  unknown_currency self (lower (str_take 3 pair)) (lower (str_drop 3 pair)) <> None ->
  FXRates_convert self value domestic foreign on_error = spec_on_error on_error ccy
  /\ exists k, FXRates_rate self pair = Raise (KeyError k).
Proof.
  intros Hc Hr. split.
  - unfold FXRates_convert. unfold unknown_currency in Hc. rewrite Hc. done.
  - unfold FXRates_rate. unfold unknown_currency in Hr. cbn [List.find] in Hr.
    destruct (dict_mem (currencies self) (lower (str_take 3 pair))) eqn:E1;
      cbn [negb] in Hr.
    + destruct (dict_mem (currencies self) (lower (str_drop 3 pair))) eqn:E2;
        cbn [negb] in Hr; [by destruct Hr|].
      destruct (dict_item_known _ _ E1) as (i & Hi).
      rewrite Hi, (dict_item_unknown _ _ E2). simpl. eauto.
    + rewrite (dict_item_unknown _ _ E1). simpl. eauto.
Qed.

(** ** [update] *)

Lemma map_result_raise {A B} (P : exn -> Prop) (f : A -> result B) l e :
  (forall a e, f a = Raise e -> P e) -> map_result f l = Raise e -> P e.
Proof.
  intros Hf. induction l as [|a l IH]; simpl; [done|].
  intros H. apply bind_Raise in H as [H|(b & _ & H)]; [eauto|].
  apply bind_Raise in H as [H|(bs & _ & H)]; [eauto | discriminate].
Qed.

Lemma map_result_Ok {A B} (f : A -> result B) l bs :
  map_result f l = Ok bs -> Forall2 (fun a b => f a = Ok b) l bs.
Proof.
  revert bs. induction l as [|a l IH]; simpl; intros bs H.
  - injection H as <-. constructor.
  - inv_bind H. inv_bind H. injection H as <-. constructor; auto.
Qed.

Lemma filter_length_0 {A} (P : A -> bool) (l : list A) :
  length (List.filter P l) = 0%nat <-> forall x, x ∈ l -> P x = false.
Proof.
  induction l as [|a l IH]; simpl.
  - split; [intros _ x Hx; by apply elem_of_nil in Hx | done].
  - destruct (P a) eqn:E; simpl.
    + split; [done|]. intros H. specialize (H a). rewrite E in H.
      discriminate H. apply elem_of_cons. by left.
    + rewrite IH. split.
      * intros H x Hx. apply elem_of_cons in Hx as [->|Hx]; auto.
      * intros H x Hx. apply H. apply elem_of_cons. by right.
Qed.

Lemma set_difference_empty a b :
  length (set_difference a b) = 0%nat <-> forall k, k ∈ a -> k ∈ b.
Proof.
  unfold set_difference. rewrite filter_length_0, fromkeys_first_seen.
  split; intros H k Hk.
  - apply str_in_true. apply negb_false_iff. apply H. by apply first_seen_elem.
  - apply negb_false_iff. apply str_in_true. apply H. by apply first_seen_elem.
Qed.

Lemma subset_or_witness (a b : list string) :
  (forall k, k ∈ a -> k ∈ b) \/ (exists k, k ∈ a /\ k ∉ b).
Proof.
  induction a as [|x a [IH|(k & Hk & Hn)]].
  - left. intros k Hk. by apply elem_of_nil in Hk.
  - destruct (decide (x ∈ b)) as [Hx|Hx].
    + left. intros k Hk. apply elem_of_cons in Hk as [->|Hk]; auto.
    + right. exists x. split; [apply elem_of_cons; by left | done].
  - right. exists k. split; [apply elem_of_cons; by right | done].
Qed.

Section Update.
Variable base_currency : string.
Variable dual_solve : matrix -> vector -> option vector.

Local Abbreviation init := (FXRates_init base_currency dual_solve).
Local Abbreviation update := (FXRates_update base_currency dual_solve).

(** The constructor never raises the pair-set error of [update]. *)
Lemma init_not_same_pairs fx s b : init fx s b <> Raise (ValueError SamePairs).
  Proof.
    intros H. unfold FXRates_init in H.
    apply bind_Raise in H as [H|(base_ & _ & H)].
    { destruct b; [discriminate|]. destruct (str_in _ _); [discriminate|].
      apply vec_get_raise in H. discriminate. }
    destruct (_ <? _)%Z; [discriminate|]. destruct (_ <? _)%Z; [discriminate|].
    apply bind_Raise in H as [H|(A & _ & H)]; [apply mat_set_raise in H; congruence|].
    apply bind_Raise in H as [H|(Ab & _ & H)].
    { eapply (fold_result_raise not_value_error) in H; [by apply (H SamePairs)|].
      intros. eapply system_step_raise; eauto. }
    apply bind_Raise in H as [H|(x & _ & H)].
    { destruct (dual_solve _ _); simpl in H; congruence. }
    apply bind_Raise in H as [H|(M & _ & H)]; [|discriminate].
    eapply (fold_result_raise not_value_error) in H; [by apply (H SamePairs)|].
    intros. eapply array_step_raise; eauto.
  Qed.

Lemma update_inv self fx self' :
    update self fx = Ok self' ->
    let new_rates := dict_of_items (map (fun kv => (lower (fst kv), snd kv)) fx) in
    exists items new,
      map_result (fun pair =>
              if negb (str_in pair (dict_keys new_rates)) then
                r ← dict_item (fx_rates self) pair; Ok (pair, NFloat (real r))
              else v ← dict_item new_rates pair; Ok (pair, v)) (pairs self) = Ok items
      /\ init (dict_of_items items) (settlement self) (Some (base self)) = Ok new
      /\ self' = {| _ad := _ad self; settlement := settlement self;
                    fx_rates := fx_rates new; pairs := pairs self;
                    variables := variables self; currencies := currencies self;
                    currencies_list := currencies_list self; base := base self;
                    q := q self; fx_vector := fx_vector new;
                    fx_array := fx_array new |}.
  Proof.
    intros H new_rates. unfold FXRates_update in H. fold new_rates in H.
    destruct (negb _); [discriminate|].
    inv_bind H. inv_bind H. injection H as <-. eauto.
  Qed.

(** C6, as the code has it: [update] raises the pair-set error exactly when
    the new rates name a pair (in lowercase) that the object does not have;
    a subset of the pairs is accepted.  When the call succeeds the state is
    that of a construction from, for every pair of the object, the supplied
    rate if there is one and the real part of the current rate otherwise. *)
Theorem update_pairs_subset self fx :
    let new_rates := dict_of_items (map (fun kv => (lower (fst kv), snd kv)) fx) in
    (update self fx = Raise (ValueError SamePairs)
     <-> exists k, k ∈ dict_keys new_rates /\ k ∉ pairs self)
    /\ forall self', update self fx = Ok self' ->
         exists items new,
           init (dict_of_items items) (settlement self) (Some (base self)) = Ok new
           /\ fx_rates self' = fx_rates new
           /\ fx_vector self' = fx_vector new
           /\ fx_array self' = fx_array new
           /\ Forall2 (fun p (item : string * Number) =>
                fst item = p
                /\ (p ∈ dict_keys new_rates -> dict_get new_rates p = Some (snd item))
                /\ (p ∉ dict_keys new_rates ->
                    exists r, dict_get (fx_rates self) p = Some r
                              /\ snd item = NFloat (real r)))
                (pairs self) items.
  Proof.
    intros new_rates. split.
    - unfold FXRates_update. fold new_rates.
      destruct (negb (length (set_difference (dict_keys new_rates) (pairs self)) =? 0)%nat)
        eqn:E.
      + split; [intros _ | done].
        apply negb_true_iff, Nat.eqb_neq in E.
        destruct (subset_or_witness (dict_keys new_rates) (pairs self)) as [Hall|Hex].
        * exfalso. apply E. by apply set_difference_empty.
        * exact Hex.
      + apply negb_false_iff, Nat.eqb_eq in E.
        pose proof (proj1 (set_difference_empty _ _) E) as Hsub. split.
        * intros H. exfalso.
          apply bind_Raise in H as [H|(items & _ & H)].
          { eapply (map_result_raise not_value_error) in H; [by apply (H SamePairs)|].
            intros p e He v. destruct (negb _).
            - apply bind_Raise in He as [He|(r & _ & He)]; [|discriminate].
              apply dict_item_raise in He. congruence.
            - apply bind_Raise in He as [He|(r & _ & He)]; [|discriminate].
              apply dict_item_raise in He. congruence. }
          apply bind_Raise in H as [H|(new & _ & H)]; [|discriminate].
          by apply init_not_same_pairs in H.
        * intros (k & Hk & Hn). exfalso. auto.
    - intros self' H. apply update_inv in H as (items & new & Hitems & Hnew & ->).
      fold new_rates in Hitems. exists items, new. simpl.
      repeat split; try done.
      apply map_result_Ok in Hitems. clear Hnew.
      induction Hitems as [|p item ps its Hp _ IH]; constructor; [|exact IH].
      simpl in Hp.
      destruct (str_in p (dict_keys new_rates)) eqn:E; simpl in Hp.
      + apply str_in_true in E. inv_bind Hp. injection Hp as <-. simpl.
        apply of_option_Ok in Ha. split; [done|]. split; [done|]. intros Hn. done.
      + apply str_in_false in E. inv_bind Hp. injection Hp as <-. simpl.
        apply of_option_Ok in Ha. split; [done|]. split; [done|]. eauto.
  Qed.

(** The rates that [update] constructs from: for each pair of the object the
    supplied rate, or else the real part of the rate that is stored. *)
Lemma update_merged (self : FXRates) (new_rates : list (string * Number)) items :
    map_result (fun pair =>
            if negb (str_in pair (dict_keys new_rates)) then
              r ← dict_item (fx_rates self) pair; Ok (pair, NFloat (real r))
            else v ← dict_item new_rates pair; Ok (pair, v)) (pairs self) = Ok items ->
    Forall2 (fun p (item : string * Number) =>
         fst item = p
         /\ (p ∈ dict_keys new_rates -> dict_get new_rates p = Some (snd item))
         /\ (p ∉ dict_keys new_rates ->
             exists r, dict_get (fx_rates self) p = Some r
                       /\ snd item = NFloat (real r)))
      (pairs self) items.
  Proof.
    intros H. apply map_result_Ok in H.
    induction H as [|p item ps its Hp _ IH]; constructor; [|exact IH].
    cbv beta in Hp.
    destruct (str_in p (dict_keys new_rates)) eqn:E; cbn [negb] in Hp.
    - apply str_in_true in E. inv_bind Hp. injection Hp as <-. cbn [fst snd].
      apply of_option_Ok in Ha. split; [done|]. split; [done|]. intros Hn. done.
    - apply str_in_false in E. inv_bind Hp. injection Hp as <-. cbn [fst snd].
      apply of_option_Ok in Ha. split; [done|]. split; [done|]. eauto.
  Qed.

(** C9: a successful [update] writes the new state at the identity of the
    object and no other object changes.  In the new state [pairs],
    [currencies] (with their order), [currencies_list], [base],
    [settlement], [variables], [q] and [_ad] are as before; [fx_rates],
    [fx_vector] and [fx_array] are those of the object that [__init__]
    constructs, with the settlement and base of the object, from the merged
    rates: for every pair of the object, in order, the supplied rate if the
    call supplies one and the real part of the stored rate otherwise. *)
Theorem update_in_place (h : heap) (id : nat) fx (h' : heap) :
    FXRates_update_at base_currency dual_solve h id fx = Ok h' ->
    let new_rates := dict_of_items (map (fun kv => (lower (fst kv), snd kv)) fx) in
    exists self self',
      h !! id = Some self /\ h' !! id = Some self'
      /\ length h' = length h
      /\ (forall j, j <> id -> h' !! j = h !! j)
      /\ pairs self' = pairs self
      /\ currencies self' = currencies self
      /\ currencies_list self' = currencies_list self
      /\ base self' = base self
      /\ settlement self' = settlement self
      /\ variables self' = variables self
      /\ q self' = q self
      /\ _ad self' = _ad self
      /\ update self fx = Ok self'
      /\ exists items new,
           Forall2 (fun p (item : string * Number) =>
                fst item = p
                /\ (p ∈ dict_keys new_rates -> dict_get new_rates p = Some (snd item))
                /\ (p ∉ dict_keys new_rates ->
                    exists r, dict_get (fx_rates self) p = Some r
                              /\ snd item = NFloat (real r)))
             (pairs self) items
           /\ init (dict_of_items items) (settlement self) (Some (base self)) = Ok new
           /\ fx_rates self' = fx_rates new
           /\ fx_vector self' = fx_vector new
           /\ fx_array self' = fx_array new.
  Proof.
    intros H new_rates. unfold FXRates_update_at in H.
    inv_bind H. inv_bind H. injection H as <-.
    apply of_option_Ok in Ha.
    pose proof (update_inv _ _ _ Ha0) as (items & new & Hitems & Hnew & Heq).
    fold new_rates in Hitems. apply update_merged in Hitems.
    exists a, a0. split; [done|].
    split. { apply list_lookup_insert_eq. eapply lookup_lt_Some; eauto. }
    split. { apply length_insert. }
    split. { intros j Hj. by apply list_lookup_insert_ne. }
    rewrite Heq at 1 2 3 4 5 6 7 8. cbn [pairs currencies currencies_list base settlement
      variables q _ad].
    repeat (split; [reflexivity|]). split; [done|].
    exists items, new. rewrite Heq. cbn [fx_rates fx_vector fx_array]. done.
  Qed.
End Update.

(** ** Arrays and their shapes *)

Lemma vec_set_Ok {A} (l : list A) i a l' :
  vec_set l i a = Ok l' -> (i < length l)%nat /\ l' = <[i:=a]> l.
Proof.
  unfold vec_set. destruct (i <? length l)%nat eqn:E; [|discriminate].
  apply Nat.ltb_lt in E. intros [= <-]. done.
Qed.

Lemma vec_get_Ok {A} (l : list A) i a : vec_get l i = Ok a <-> l !! i = Some a.
Proof. unfold vec_get. apply of_option_Ok. Qed.

Lemma mat_set_Ok {A} (M : list (list A)) i j a M' :
  mat_set M i j a = Ok M' ->
  exists row, M !! i = Some row /\ (j < length row)%nat
              /\ M' = <[i:=<[j:=a]> row]> M.
Proof.
  unfold mat_set. intros H. inv_bind H. inv_bind H.
  apply vec_get_Ok in Ha0. apply vec_set_Ok in Ha1 as [Hj ->].
  apply vec_set_Ok in H as [_ ->]. eauto.
Qed.

Lemma mat_set_shape {A} n (M : list (list A)) i j a M' :
  has_shape n M -> mat_set M i j a = Ok M' -> has_shape n M'.
Proof.
  intros [Hl Hr] H. apply mat_set_Ok in H as (row & Hrow & Hj & ->).
  split; [by rewrite length_insert|].
  apply Forall_insert; [done|]. rewrite length_insert.
  eapply Forall_lookup_1 in Hr; eauto.
Qed.

Lemma mat_get_shape {A} n (M : list (list A)) i j :
  has_shape n M -> (i < n)%nat -> (j < n)%nat -> exists a, mat_get M i j = Ok a.
Proof.
  intros [Hl Hr] Hi Hj. unfold mat_get, vec_get.
  destruct (lookup_lt_is_Some_2 M i) as [row Hrow]; [lia|].
  rewrite Hrow. simpl.
  eapply Forall_lookup_1 in Hr; eauto.
  destruct (lookup_lt_is_Some_2 row j) as [a Ha]; [lia|].
  rewrite Ha. simpl. eauto.
Qed.

Lemma replicate_shape {A} n (a : A) : has_shape n (replicate n (replicate n a)).
Proof.
  split; [apply length_replicate|].
  apply Forall_replicate. apply length_replicate.
Qed.

Lemma fold_result_invariant {S A} (P : S -> Prop) (f : S -> A -> result S) l s s' :
  (forall s a s', P s -> f s a = Ok s' -> P s') ->
  P s -> fold_result f l s = Ok s' -> P s'.
Proof.
  intros Hf. revert s. induction l as [|a l IH]; intros s Hs H; simpl in H.
  - by injection H as <-.
  - inv_bind H. eauto.
Qed.

Lemma all_pairs_elem n i j : (i, j) ∈ all_pairs n -> (i < n)%nat /\ (j < n)%nat.
Proof.
  unfold all_pairs. rewrite list_elem_of_In, in_flat_map.
  intros (i' & Hi & Hin). apply in_map_iff in Hin as (j' & [= <- <-] & Hj).
  apply in_seq in Hi, Hj. lia.
Qed.

(** ** The immediate rates of [FXForwards] *)

Section ForwardsFacts.
Variable base_currency : string.
Variable dual_solve : matrix -> vector -> option vector.
Variable Curve : Type.
Variable curve_getitem : Curve -> option date -> result Number.
Variable node_dates : Curve -> list date.
Variable is_line_curve : Curve -> bool.
Variable matrix_rank : list (list Qc) -> nat.

Local Abbreviation FXF := (FXForwards Curve).

Lemma transformation_matrix_shape n cur (curves : list (string * Curve)) T :
    get_forwards_transformation_matrix Curve matrix_rank n cur curves = Ok T ->
    has_shape n T.
  Proof.
    unfold get_forwards_transformation_matrix. intros H. inv_bind H.
    assert (Hs : has_shape n a).
    { eapply (fold_result_invariant (has_shape n)); [| |exact Ha].
      - intros M kc M' HM Hstep. cbv beta in Hstep.
        repeat match type of Hstep with
          | context [dict_get ?c ?k] => destruct (dict_get c k); [|discriminate]
          end.
        eapply mat_set_shape; eauto.
      - apply replicate_shape. }
    repeat match type of H with
      | context [decide ?P] => destruct (decide P); [discriminate|]
      end.
    destruct (negb _); [discriminate|]. by injection H as <-.
  Qed.

Lemma immediate_step_spec (self : FXF) (d : list (string * Number)) (rc : nat * nat) t :
    mat_get (fxf_transform self) (fst rc) (snd rc) = Ok t ->
    immediate_step Curve curve_getitem (fxf_q self) (fxf_transform self)
      (fxf_currencies_list self) (fxf_fx_curves self) (fxf_fx_rates self) d rc
    = if is_unit_entry (fxf_transform self) rc
      then kv ← spec_immediate_rate Curve curve_getitem self rc;
           Ok (dict_set d (fst kv) (snd kv))
      else Ok d.
  Proof.
    intros Ht. unfold immediate_step, is_unit_entry.
    destruct (fst rc =? snd rc)%nat eqn:E; cbn [negb andb]; [done|].
    rewrite Ht. cbn [mbind result_bind].
    unfold mat_get, vec_get in Ht.
    destruct (fxf_transform self !! fst rc) as [r|]; [|discriminate]. simpl in Ht.
    destruct (r !! snd rc) as [t'|]; [|discriminate]. injection Ht as ->.
    destruct (decide (t = 0)) as [Hz|Hz].
    { by rewrite bool_decide_eq_true_2 by done. }
    rewrite bool_decide_eq_false_2 by done. cbn [negb].
    unfold spec_immediate_rate.
    repeat match goal with
      | |- context [?m ≫= _] =>
          lazymatch m with
          | _ ≫= _ => fail
          | _ => destruct m; cbn [mbind result_bind]; [|done]
          end
      end.
    done.
  Qed.

(** The loop of [_update_fx_rates_immediate] collects what the
    comprehension over the unit entries collects. *)
Lemma immediate_loop (self : FXF) (l : list (nat * nat)) (d : list (string * Number)) :
    (forall rc, rc ∈ l -> exists t, mat_get (fxf_transform self) (fst rc) (snd rc) = Ok t) ->
    fold_result (immediate_step Curve curve_getitem (fxf_q self) (fxf_transform self)
             (fxf_currencies_list self) (fxf_fx_curves self) (fxf_fx_rates self)) l d
    = items ← map_result (spec_immediate_rate Curve curve_getitem self)
                (List.filter (is_unit_entry (fxf_transform self)) l);
      Ok (fold_left (fun d kv => dict_set d (fst kv) (snd kv)) items d).
  Proof.
    revert d. induction l as [|rc l IH]; intros d Hget; [done|].
    assert (Hl : forall rc, rc ∈ l ->
              exists t, mat_get (fxf_transform self) (fst rc) (snd rc) = Ok t).
    { intros rc' Hrc. apply Hget. apply elem_of_cons. by right. }
    destruct (Hget rc) as (t & Ht); [apply elem_of_cons; by left|].
    cbn [fold_result List.filter]. rewrite (immediate_step_spec self d rc t Ht).
    destruct (is_unit_entry (fxf_transform self) rc).
    - cbn [map_result].
      destruct (spec_immediate_rate Curve curve_getitem self rc) as [kv|];
        cbn [mbind result_bind]; [|reflexivity].
      rewrite IH by done.
      destruct (map_result _ _) as [items|]; reflexivity.
    - cbn [mbind result_bind]. by apply IH.
  Qed.

Lemma immediate_refines (self : FXF) :
    has_shape (fxf_q self) (fxf_transform self) ->
    FXForwards_update_fx_rates_immediate base_currency dual_solve Curve curve_getitem self
    = spec_fx_rates_immediate base_currency dual_solve Curve curve_getitem self.
  Proof.
    intros Hs. unfold FXForwards_update_fx_rates_immediate, update_fx_rates_immediate,
      spec_fx_rates_immediate, unit_entries.
    rewrite immediate_loop.
    - destruct (map_result _ _) as [items|]; reflexivity.
    - intros [i j] Hin. apply all_pairs_elem in Hin as [Hi Hj].
      eapply mat_get_shape; eauto.
  Qed.

End ForwardsFacts.

(** ** Dual arithmetic *)

Lemma dict_get_tabulate (g : string -> Qc) (l : list string) (v : string) :
  dict_get (map (fun k => (k, g k)) l) v = if str_in v l then Some (g v) else None.
Proof.
  induction l as [|k l IH]; simpl; [done|].
  rewrite (String.eqb_sym v k).
  destruct (String.eqb k v) eqn:E; simpl; [|done].
  apply String.eqb_eq in E. by subst.
Qed.

Lemma gradient_absent (d : Dual) (v : string) :
  str_in v (vars d) = false -> gradient d v = 0.
Proof.
  intros H. unfold gradient. apply str_in_false in H.
  apply dict_get_None in H. by rewrite H.
Qed.

Lemma str_in_app v l1 l2 : str_in v (l1 ++ l2) = str_in v l1 || str_in v l2.
Proof. unfold str_in. apply existsb_app. Qed.

Lemma str_in_filter_absent v l1 l2 :
  str_in v l1 = false ->
  str_in v (List.filter (fun k => negb (str_in k l1)) l2) = str_in v l2.
Proof.
  intros H. induction l2 as [|k l2 IH]; simpl; [done|].
  destruct (str_in k l1) eqn:E; simpl.
  - rewrite IH. destruct (String.eqb v k) eqn:E'; [|done].
    apply String.eqb_eq in E'. subst. congruence.
  - by rewrite IH.
Qed.

Lemma gradient_binop r da db a b v :
  gradient (dual_binop r da db a b) v = da * gradient a v + db * gradient b v.
Proof.
  unfold dual_binop, gradient at 1. simpl. rewrite dict_get_tabulate.
  unfold union_vars. rewrite str_in_app.
  destruct (str_in v (vars a)) eqn:Ea; simpl; [done|].
  rewrite str_in_filter_absent by done.
  destruct (str_in v (vars b)) eqn:Eb; simpl; [done|].
  rewrite !gradient_absent by done. ring.
Qed.

Lemma ngrad_float x v : ngrad (NFloat x) v = 0.
Proof. reflexivity. Qed.

Lemma to_float_add a b : to_float (num_add a b) = to_float a + to_float b.
Proof. destruct a, b; reflexivity. Qed.

Lemma ngrad_add a b v : ngrad (num_add a b) v = ngrad a v + ngrad b v.
Proof.
  destruct a, b; unfold ngrad; simpl;
    try (unfold dual_add; rewrite gradient_binop); unfold gradient; simpl; ring.
Qed.

Lemma to_float_mul a b : to_float (num_mul a b) = to_float a * to_float b.
Proof. destruct a, b; reflexivity. Qed.

Lemma ngrad_mul a b v :
  ngrad (num_mul a b) v = to_float b * ngrad a v + to_float a * ngrad b v.
Proof.
  destruct a, b; unfold ngrad, to_float; simpl;
    try (unfold dual_mul; rewrite gradient_binop); unfold gradient; simpl; ring.
Qed.

Lemma num_div_Ok a b c :
  num_div a b = Ok c ->
  to_float b <> 0
  /\ to_float c = to_float a / to_float b
  /\ forall v, ngrad c v
       = / to_float b * ngrad a v
         + - (to_float a / (to_float b * to_float b)) * ngrad b v.
Proof.
  unfold num_div, dual_div, to_float, ngrad.
  destruct a as [x|da], b as [y|db]; simpl; intros H;
    match type of H with
    | context [decide ?P] => destruct (decide P) as [Hz|Hz]; simpl in H; [discriminate|]
    end; injection H as <-; simpl; (split; [done|]); (split; [done|]); intros v;
    try rewrite gradient_binop; unfold gradient; simpl; ring.
Qed.

Lemma num_div_defined a b : to_float b <> 0 -> exists c, num_div a b = Ok c.
Proof.
  unfold num_div, dual_div, to_float.
  destruct a as [x|da], b as [y|db]; simpl; intros H;
    match goal with
    | |- context [decide ?P] => destruct (decide P) as [Hz|Hz]; [done|]
    end; simpl; eauto.
Qed.

(** ** Sums *)


Lemma fold_num_add_float l a :
  to_float (fold_left num_add l a) = to_float a + qsum (map to_float l).
Proof.
  revert a. induction l as [|n l IH]; intros a; simpl; [ring|].
  rewrite IH, to_float_add. unfold qsum. simpl. ring.
Qed.

Lemma fold_num_add_grad l a v :
  ngrad (fold_left num_add l a) v = ngrad a v + qsum (map (fun n => ngrad n v) l).
Proof.
  revert a. induction l as [|n l IH]; intros a; simpl; [ring|].
  rewrite IH, ngrad_add. unfold qsum. simpl. ring.
Qed.

Lemma to_float_sum l : to_float (np_sum l) = qsum (map to_float l).
Proof.
  destruct l as [|a l]; simpl; [done|]. rewrite fold_num_add_float.
  unfold qsum. simpl. ring.
Qed.

Lemma ngrad_sum l v : ngrad (np_sum l) v = qsum (map (fun n => ngrad n v) l).
Proof.
  destruct l as [|a l]; simpl; [done|]. rewrite fold_num_add_grad.
  unfold qsum. simpl. ring.
Qed.

Lemma to_float_dot row x :
  to_float (dot row x) = qdot (map to_float row) (map to_float x).
Proof.
  unfold dot, qdot. rewrite to_float_sum. f_equal.
  revert x. induction row as [|a row IH]; intros [|b x]; simpl; try done.
  by rewrite to_float_mul, IH.
Qed.

Lemma ngrad_dot row x v :
  ngrad (dot row x) v
  = qdot (map (fun n => ngrad n v) row) (map to_float x)
    + qdot (map to_float row) (map (fun n => ngrad n v) x).
Proof.
  unfold dot, qdot. rewrite ngrad_sum.
  revert x. induction row as [|a row IH]; intros [|b x]; simpl;
    try (unfold qsum; simpl; ring).
  unfold qsum in *. simpl. rewrite IH, ngrad_mul. ring.
Qed.

Lemma qdot_replicate_0 n y : qdot (replicate n 0) y = 0.
Proof.
  unfold qdot, qsum. revert y. induction n as [|n IH]; intros [|b y]; simpl; try done.
  rewrite IH. ring.
Qed.

Lemma qdot_insert l y i a li yi :
  l !! i = Some li -> y !! i = Some yi ->
  qdot (<[i:=a]> l) y = qdot l y + (a - li) * yi.
Proof.
  unfold qdot, qsum. revert y i. induction l as [|b l IH]; intros [|c y] [|i]; simpl;
    try done.
  - intros [= ->] [= ->]. ring.
  - intros Hl Hy. rewrite (IH _ _ Hl Hy). ring.
Qed.

Lemma qdot_add a b y :
  length a = length b ->
  qdot (zip_with Qcplus a b) y = qdot a y + qdot b y.
Proof.
  unfold qdot, qsum. revert b y.
  induction a as [|x a IH]; intros [|x' b] [|c y]; simpl; try done; intros H;
    try ring.
  injection H as H. rewrite (IH _ _ H). ring.
Qed.

(** ** The two loops of [__init__] *)



Lemma dict_item_Ok {V} (d : list (string * V)) k v :
  dict_item d k = Ok v <-> dict_get d k = Some v.
Proof. unfold dict_item. apply of_option_Ok. Qed.

Lemma system_step_Ok cur frs A b i p A' b' :
  system_step cur frs (A, b) (i, p) = Ok (A', b') ->
  exists d f rt inv row,
    dict_get cur (str_take 3 p) = Some d
    /\ dict_get cur (str_drop 3 p) = Some f
    /\ dict_get frs p = Some rt
    /\ num_div (NFloat 1) (NDual rt) = Ok inv
    /\ A !! (i + 1)%nat = Some row
    /\ (d < length row)%nat /\ (f < length row)%nat
    /\ A' = <[(i + 1)%nat:=<[f:=inv]> (<[d:=NFloat (-1)]> row)]> A
    /\ (i + 1 < length b)%nat
    /\ b' = <[(i + 1)%nat:=NFloat 0]> b.
Proof.
  unfold system_step. cbn [fst snd]. intros H.
  inv_bind H. inv_bind H. inv_bind H. inv_bind H. inv_bind H. inv_bind H. inv_bind H.
  injection H as <- <-.
  apply dict_item_Ok in Ha, Ha0, Ha2.
  apply mat_set_Ok in Ha1 as (row & Hrow & Hd & ->).
  apply mat_set_Ok in Ha4 as (row' & Hrow' & Hf & ->).
  apply vec_set_Ok in Ha5 as [Hb ->].
  rewrite list_lookup_insert_eq in Hrow' by (eapply lookup_lt_Some; eauto).
  injection Hrow' as <-. rewrite length_insert in Hf.
  rewrite list_insert_insert_eq.
  exists a, a0, a2, a3, row. done.
Qed.

Lemma system_loop cur frs n (l : list string) :
  forall k A b A' b',
    fold_result (system_step cur frs) (combine (seq k (length l)) l) (A, b) = Ok (A', b') ->
    (forall r row, (k < r)%nat -> A !! r = Some row -> row = replicate n (NFloat 0)) ->
    (forall r, (r <= k)%nat -> A' !! r = A !! r /\ b' !! r = b !! r)
    /\ forall j p, l !! j = Some p -> pair_row cur frs n A' b' (k + j + 1) p.
Proof.
  induction l as [|p l IH]; intros k A b A' b' H Hz; simpl in H.
  - injection H as <- <-. split; [intros r _; split; reflexivity|].
    intros j p Hj. by rewrite lookup_nil in Hj.
  - inv_bind H. destruct a as [A1 b1].
    apply system_step_Ok in Ha
      as (d & f & rt & inv & row & Hd & Hf & Hrt & Hinv & Hrow & Hdl & Hfl & -> & Hb & ->).
    pose proof (Hz (k + 1)%nat row ltac:(lia) Hrow) as ->. rewrite length_replicate in Hdl, Hfl.
    apply IH in H as [Hkeep Hrows].
    2:{ intros r row Hr Hrow'. rewrite list_lookup_insert_ne in Hrow' by lia.
        eapply Hz; [|exact Hrow']. lia. }
    split.
    + intros r Hr. destruct (Hkeep r ltac:(lia)) as [-> ->].
      rewrite !list_lookup_insert_ne by lia. done.
    + intros [|j] q Hj; simpl in Hj.
      * injection Hj as <-. exists d, f, rt, inv.
        destruct (Hkeep (k + 1)%nat ltac:(lia)) as [HA Hb'].
        replace (k + 0 + 1)%nat with (k + 1)%nat by lia.
        rewrite HA, Hb'.
        rewrite !list_lookup_insert_eq; [done | done |].
        eapply lookup_lt_Some; eauto.
      * replace (k + S j + 1)%nat with (S k + j + 1)%nat by lia. auto.
Qed.

Lemma mat_get_set {A} (M : list (list A)) i j a M' i' j' :
  mat_set M i j a = Ok M' ->
  mat_get M' i' j' = if decide (i = i' /\ j = j') then Ok a else mat_get M i' j'.
Proof.
  intros H. apply mat_set_Ok in H as (row & Hrow & Hj & ->).
  unfold mat_get, vec_get.
  destruct (decide (i = i')) as [<-|Hi].
  - rewrite list_lookup_insert_eq by (eapply lookup_lt_Some; eauto).
    rewrite Hrow. simpl.
    destruct (decide (j = j')) as [<-|Hj'].
    + rewrite list_lookup_insert_eq by done.
      by rewrite decide_True.
    + rewrite list_lookup_insert_ne by done.
      rewrite decide_False by tauto. done.
  - rewrite list_lookup_insert_ne by done.
    rewrite decide_False by tauto. done.
Qed.

Lemma array_step_Ok x M i j M' :
  array_step x M (i, j) = Ok M' ->
  exists xi xj a b M1,
    x !! i = Some xi /\ x !! j = Some xj
    /\ num_div xj xi = Ok a /\ num_div xi xj = Ok b
    /\ mat_set M i j a = Ok M1 /\ mat_set M1 j i b = Ok M'.
Proof.
  unfold array_step. cbn [fst snd]. intros H.
  inv_bind H. inv_bind H. inv_bind H. inv_bind H. inv_bind H.
  apply vec_get_Ok in Ha, Ha0. eauto 12.
Qed.

Lemma array_step_entries x M i0 j0 M' :
  array_step x M (i0, j0) = Ok M' ->
  (forall i j, entry_ok x M i j -> entry_ok x M' i j)
  /\ entry_ok x M' i0 j0 /\ entry_ok x M' j0 i0
  /\ (i0 <> j0 -> forall k, mat_get M' k k = mat_get M k k)
  /\ forall n, has_shape n M -> has_shape n M'.
Proof.
  intros H. apply array_step_Ok in H
    as (xi & xj & a & b & M1 & Hxi & Hxj & Ha & Hb & HM1 & HM').
  assert (Hget : forall i j, mat_get M' i j
            = if decide (j0 = i /\ i0 = j) then Ok b
              else if decide (i0 = i /\ j0 = j) then Ok a else mat_get M i j).
  { intros i j. rewrite (mat_get_set _ _ _ _ _ i j HM').
    destruct (decide _); [done|]. apply (mat_get_set _ _ _ _ _ i j HM1). }
  split; [|split; [|split; [|split]]].
  - intros i j (yi & yj & c & Hyi & Hyj & Hc & Hm).
    unfold entry_ok. rewrite Hget.
    destruct (decide (j0 = i /\ i0 = j)) as [[-> ->]|_].
    { exists xj, xi, b. done. }
    destruct (decide (i0 = i /\ j0 = j)) as [[-> ->]|_].
    { exists xi, xj, a. done. }
    exists yi, yj, c. done.
  - unfold entry_ok. rewrite Hget.
    destruct (decide (j0 = i0 /\ i0 = j0)) as [[-> _]|_].
    { exists xj, xi, b. replace xi with xj in * by congruence. done. }
    rewrite decide_True by done. exists xi, xj, a. done.
  - unfold entry_ok. rewrite Hget. rewrite decide_True by done.
    exists xj, xi, b. done.
  - intros Hne k. rewrite Hget.
    rewrite !decide_False by lia. done.
  - intros n Hs. eapply mat_set_shape; [|exact HM']. eapply mat_set_shape; eauto.
Qed.

Lemma array_loop x (l : list (nat * nat)) :
  forall M M',
    fold_result (array_step x) l M = Ok M' ->
    (forall i j, entry_ok x M i j -> entry_ok x M' i j)
    /\ (forall i j, (i, j) ∈ l -> entry_ok x M' i j /\ entry_ok x M' j i)
    /\ ((forall i j, (i, j) ∈ l -> i <> j) -> forall k, mat_get M' k k = mat_get M k k)
    /\ forall n, has_shape n M -> has_shape n M'.
Proof.
  induction l as [|[i0 j0] l IH]; intros M M' H; simpl in H.
  - injection H as <-. split; [done|]. split; [|done].
    intros i j Hin. by apply elem_of_nil in Hin.
  - inv_bind H. rename a into M1.
    apply array_step_entries in Ha as (Hkeep1 & H1 & H2 & Hdiag1 & Hs1).
    apply IH in H as (Hkeep & Hin & Hdiag & Hs).
    split; [auto|]. split; [|split].
    + intros i j Hij. apply elem_of_cons in Hij as [[= -> ->]|Hij]; auto.
    + intros Hne k. rewrite Hdiag.
      * apply Hdiag1. apply Hne. apply elem_of_cons. by left.
      * intros i j Hij. apply Hne. apply elem_of_cons. by right.
    + auto.
Qed.

Lemma upper_pairs_elem n i j : (i, j) ∈ upper_pairs n <-> (i < j)%nat /\ (j < n)%nat.
Proof.
  unfold upper_pairs. rewrite list_elem_of_In, in_flat_map. split.
  - intros (i' & Hi & Hin). apply in_map_iff in Hin as (j' & [= <- <-] & Hj).
    apply in_seq in Hi, Hj. lia.
  - intros [Hij Hj]. exists i. split; [apply in_seq; lia|].
    apply in_map_iff. exists j. split; [done|]. apply in_seq. lia.
Qed.

Lemma np_eye_shape n : has_shape n (np_eye n).
Proof.
  unfold np_eye. split; [by rewrite length_map, length_seq|].
  induction (seq 0 n) as [|i l IH] at 2; simpl; constructor; [|exact IH].
  by rewrite length_map, length_seq.
Qed.

Lemma np_eye_diag n k : (k < n)%nat -> mat_get (np_eye n) k k = Ok (NFloat 1).
Proof.
  intros Hk. unfold mat_get, vec_get, np_eye.
  rewrite list_lookup_fmap, lookup_seq_lt by done. simpl.
  rewrite list_lookup_fmap, lookup_seq_lt by done. simpl.
  by rewrite Nat.eqb_refl.
Qed.

(** ** The cross-rate array of a constructed object *)

(** The entry [(i, j)] of the array has the value and the gradient of
    [x[j] / x[i]], and both [x[i]] and [x[j]] are invertible. *)

Lemma index_map_bound ps c i :
  dict_get (index_map ps) c = Some i -> (i < length (find_currencies ps))%nat.
Proof.
  intros H. apply enumerate_lookup in H; [|apply find_currencies_NoDup].
  eapply lookup_lt_Some; eauto.
Qed.

Lemma index_map_elem ps c :
  c ∈ find_currencies ps -> exists i, dict_get (index_map ps) c = Some i.
Proof.
  intros H. apply list_elem_of_lookup in H as (i & Hi). exists i.
  apply enumerate_lookup; [apply find_currencies_NoDup | done].
Qed.

Lemma index_map_inj ps c c' i :
  dict_get (index_map ps) c = Some i -> dict_get (index_map ps) c' = Some i -> c = c'.
Proof.
  intros H H'.
  apply enumerate_lookup in H, H'; try apply find_currencies_NoDup. congruence.
Qed.

Section Constructed.
Variable base_currency : string.
Variable dual_solve : matrix -> vector -> option vector.

Local Abbreviation init := (FXRates_init base_currency dual_solve).

Lemma init_q_ge_2 fx s b f : init fx s b = Ok f -> (2 <= q f)%nat.
  Proof.
    intros H. apply init_inv in H as (_ & _ & _ & _ & Hq & _ & Hn & _).
    rewrite Hq. destruct (dict_keys (stored_rates fx)) as [|p ps] eqn:E.
    - simpl in Hn. unfold find_currencies in *. rewrite fromkeys_first_seen in *.
      simpl in Hn. lia.
    - simpl length in Hn. lia.
  Qed.

Lemma init_array fx s b f :
    init fx s b = Ok f ->
    has_shape (q f) (fx_array f)
    /\ (forall i j, (i < q f)%nat -> (j < q f)%nat -> i <> j ->
          entry_ok (fx_vector f) (fx_array f) i j)
    /\ forall k, (k < q f)%nat -> mat_get (fx_array f) k k = Ok (NFloat 1).
  Proof.
    intros H. apply init_inv in H
      as (_ & _ & _ & _ & Hq & _ & _ & A0 & Ab & _ & _ & _ & Harr).
    rewrite Hq. apply array_loop in Harr as (_ & Hin & Hdiag & Hs).
    split; [apply Hs, np_eye_shape|]. split.
    - intros i j Hi Hj Hij.
      destruct (decide (i < j)%nat) as [Hlt|Hge].
      + refine (proj1 (Hin i j _)). apply upper_pairs_elem. lia.
      + refine (proj2 (Hin j i _)). apply upper_pairs_elem. lia.
    - intros k Hk. rewrite Hdiag; [by apply np_eye_diag|].
      intros i j Hij. apply upper_pairs_elem in Hij. lia.
  Qed.

Lemma init_entry_sem fx s b f i j :
    init fx s b = Ok f -> (i < q f)%nat -> (j < q f)%nat ->
    entry_sem (fx_vector f) (fx_array f) i j.
  Proof.
    intros H Hi Hj. pose proof (init_q_ge_2 _ _ _ _ H) as Hq.
    apply init_array in H as (_ & Hent & Hdiag).
    destruct (decide (i = j)) as [<-|Hij].
    - assert (Hm : exists m, (m < q f)%nat /\ i <> m).
      { destruct i; [exists 1%nat | exists 0%nat]; lia. }
      destruct Hm as (m & Hm & Him).
      destruct (Hent i m Hi Hm Him) as (xi & xm & c & Hxi & _ & Hc & _).
      apply num_div_Ok in Hc as (Hnz & _).
      exists (NFloat 1), xi, xi. rewrite Hdiag by done.
      repeat split; try done.
      + simpl. change (to_float (NFloat 1)) with 1. field. done.
      + intros v. rewrite ngrad_float. field. done.
    - destruct (Hent i j Hi Hj Hij) as (xi & xj & c & Hxi & Hxj & Hc & Hget).
      destruct (Hent j i Hj Hi (not_eq_sym Hij)) as (xj' & xi' & c' & Hxj' & Hxi' & Hc' & _).
      replace xj' with xj in * by congruence. replace xi' with xi in * by congruence.
      apply num_div_Ok in Hc as (Hnzi & Hval & Hgrad).
      apply num_div_Ok in Hc' as (Hnzj & _).
      exists c, xi, xj. done.
  Qed.

(** The rows of the system, one for each pair. *)
Lemma init_system fx s b f :
    init fx s b = Ok f ->
    exists A rhs,
      dual_solve A rhs = Some (fx_vector f)
      /\ forall j p, pairs f !! j = Some p ->
           pair_row (currencies f) (fx_rates f) (q f) A rhs (j + 1) p.
  Proof.
    intros H. apply init_inv in H
      as (Hfr & Hp & Hc & _ & Hq & _ & _ & A0 & [A rhs] & HA0 & Hloop & Hsolve & _).
    exists A, rhs. split; [done|]. rewrite Hfr, Hp, Hc, Hq.
    unfold enumerate in Hloop. apply system_loop with (n := length (find_currencies
      (dict_keys (stored_rates fx)))) in Hloop as [_ Hrows].
    - intros j p Hj. apply (Hrows j p Hj).
    - intros r row Hr Hrow. apply mat_set_Ok in HA0 as (row0 & _ & _ & ->).
      rewrite list_lookup_insert_ne in Hrow by lia.
      unfold np_zeros2 in Hrow. apply lookup_replicate in Hrow as [-> _]. done.
  Qed.
End Constructed.

(** ** Currency codes *)

Lemma str_take_app a b n : String.length a = n -> str_take n (a +:+ b) = a.
Proof.
  revert n. induction a as [|c a IH]; intros n Hn; simpl in *; subst n.
  - by destruct b.
  - simpl. by rewrite IH.
Qed.

Lemma str_drop_app a b n : String.length a = n -> str_drop n (a +:+ b) = b.
Proof.
  revert n. induction a as [|c a IH]; intros n Hn; simpl in *; subst n.
  - by destruct b.
  - simpl. by rewrite IH.
Qed.

Lemma fold_dict_set_keys {V} (items acc : list (string * V)) k :
  k ∈ dict_keys (fold_left (fun d kv => dict_set d (fst kv) (snd kv)) items acc)
  <-> k ∈ dict_keys acc \/ k ∈ map fst items.
Proof.
  revert acc. induction items as [|[k' v'] items IH]; intros acc; simpl.
  - split; [by left | intros [?|H]; [done | by apply elem_of_nil in H]].
  - rewrite IH, dict_keys_set, elem_of_cons.
    destruct (str_in k' (dict_keys acc)) eqn:E.
    + apply str_in_true in E. split; [tauto|].
      intros [?|[->|?]]; auto.
    + rewrite elem_of_app, list_elem_of_singleton. tauto.
Qed.

Lemma dict_of_items_keys {V} (items : list (string * V)) k :
  k ∈ dict_keys (dict_of_items items) <-> k ∈ map fst items.
Proof.
  unfold dict_of_items. rewrite fold_dict_set_keys. simpl.
  split; [intros [H|?]; [by apply elem_of_nil in H | done] | by right].
Qed.

Lemma stored_pairs_lower fx p : p ∈ dict_keys (stored_rates fx) -> lower p = p.
Proof.
  unfold stored_rates. rewrite dict_of_items_keys, map_map. simpl.
  intros H. apply list_elem_of_fmap in H as (kv & -> & _). apply lower_idemp.
Qed.

Lemma find_currencies_elem ps c :
  c ∈ find_currencies ps ->
  exists p, p ∈ ps /\ (c = str_take 3 p \/ c = str_slice 3 6 p).
Proof.
  unfold find_currencies. rewrite fromkeys_first_seen, first_seen_elem, elem_of_app.
  intros [H|H]; apply list_elem_of_fmap in H as (p & -> & Hp); eauto.
Qed.

Lemma find_currencies_lower ps c :
  (forall p, p ∈ ps -> lower p = p) -> c ∈ find_currencies ps -> lower c = c.
Proof.
  intros Hps Hc. apply find_currencies_elem in Hc as (p & Hp & [->| ->]).
  - by rewrite lower_take, Hps.
  - by rewrite lower_slice, Hps.
Qed.

Section Rates.
Variable base_currency : string.
Variable dual_solve : matrix -> vector -> option vector.

Local Abbreviation init := (FXRates_init base_currency dual_solve).

Lemma init_currency fx s b f c :
    init fx s b = Ok f -> c ∈ currencies_list f ->
    lower c = c /\ exists i, dict_get (currencies f) c = Some i /\ (i < q f)%nat.
  Proof.
    intros H Hc. apply init_inv in H as (_ & _ & Hcur & Hl & Hq & _).
    rewrite Hl in Hc. rewrite Hcur, Hq. split.
    - eapply find_currencies_lower; [|exact Hc]. apply stored_pairs_lower.
    - destruct (index_map_elem _ _ Hc) as (i & Hi). exists i. split; [done|].
      eapply index_map_bound; eauto.
  Qed.

Lemma init_index_bound fx s b f c i :
    init fx s b = Ok f -> dict_get (currencies f) c = Some i -> (i < q f)%nat.
  Proof.
    intros H Hc. apply init_inv in H as (_ & _ & Hcur & _ & Hq & _).
    rewrite Hcur in Hc. rewrite Hq. eapply index_map_bound; eauto.
  Qed.

(** C3: the cross rates of a constructed object satisfy the triangular
    identity, as duals: [rate(a b) * rate(b c)] has the value of
    [rate(a c)] and the same partial derivative with respect to every
    variable. *)
Theorem rate_triangular fx s b f (ca cb cc : string) :
    init fx s b = Ok f ->
    ca ∈ currencies_list f -> cb ∈ currencies_list f -> cc ∈ currencies_list f ->
    String.length ca = 3%nat -> String.length cb = 3%nat ->
    exists n1 n2 n3,
      FXRates_rate f (ca +:+ cb) = Ok n1
      /\ FXRates_rate f (cb +:+ cc) = Ok n2
      /\ FXRates_rate f (ca +:+ cc) = Ok n3
      /\ num_eq (num_mul n1 n2) n3.
  Proof.
    intros H Ha Hb Hc La Lb.
    destruct (init_currency _ _ _ _ _ H Ha) as (Hla & ia & Hia & Hqa).
    destruct (init_currency _ _ _ _ _ H Hb) as (Hlb & ib & Hib & Hqb).
    destruct (init_currency _ _ _ _ _ H Hc) as (Hlc & ic & Hic & Hqc).
    destruct (init_entry_sem _ _ _ _ _ _ ia ib H Hqa Hqb)
      as (n1 & xa & xb & Hn1 & Hxa & Hxb & Hza & Hzb & Hv1 & Hg1).
    destruct (init_entry_sem _ _ _ _ _ _ ib ic H Hqb Hqc)
      as (n2 & xb' & xc & Hn2 & Hxb' & Hxc & _ & Hzc & Hv2 & Hg2).
    destruct (init_entry_sem _ _ _ _ _ _ ia ic H Hqa Hqc)
      as (n3 & xa' & xc' & Hn3 & Hxa' & Hxc' & _ & _ & Hv3 & Hg3).
    replace xb' with xb in * by congruence.
    replace xa' with xa in * by congruence.
    replace xc' with xc in * by congruence.
    exists n1, n2, n3. unfold FXRates_rate.
    rewrite !str_take_app, !str_drop_app by done.
    rewrite Hla, Hlb, Hlc.
    unfold dict_item. rewrite Hia, Hib, Hic. simpl.
    repeat split; try done.
    - rewrite to_float_mul, Hv1, Hv2, Hv3. field. done.
    - intros v. rewrite ngrad_mul, Hv1, Hv2, Hg1, Hg2, Hg3. field. done.
  Qed.
End Rates.

(** ** The solved vector *)

(** The equation of a pair, read on the solved vector:
    [x[foreign] = rate * x[domestic]] as duals. *)

Lemma Qc_mult_zero (a b : Qc) : a * b = 0 -> a <> 0 -> b = 0.
Proof.
  intros H Ha. destruct (Qcmult_integral _ _ H); [done | done].
Qed.

Section Solved.
Variable base_currency : string.
Variable dual_solve : matrix -> vector -> option vector.
(** The contract of [dual_solve]: a returned vector solves the system. *)
Hypothesis dual_solve_spec : forall A b x, dual_solve A b = Some x -> solves A x b.

Local Abbreviation init := (FXRates_init base_currency dual_solve).

Lemma init_pair_solved fx s b f j p :
    init fx s b = Ok f -> pairs f !! j = Some p ->
    exists d fi rt, pair_solved f p d fi rt.
  Proof.
    intros H Hp.
    destruct (init_system _ _ _ _ _ _ H) as (A & rhs & Hsolve & Hrows).
    destruct (Hrows j p Hp)
      as (d & fi & rt & inv & Hd & Hf & Hrt & Hinv & Hdq & Hfq & Hrow & Hrhs).
    apply dual_solve_spec in Hsolve as [_ Hsolve].
    specialize (Hsolve _ _ _ Hrow Hrhs) as [Hval Hgrad].
    destruct (init_entry_sem _ _ _ _ _ _ d fi H Hdq Hfq)
      as (_ & xd & xf & _ & Hxd & Hxf & Hzd & Hzf & _).
    apply num_div_Ok in Hinv as (Hzr & Hiv & Hig).
    change (to_float (NDual rt)) with (real rt) in *.
    change (to_float (NFloat 1)) with 1 in *.
    assert (Hxd' : (to_float <$> fx_vector f) !! d = Some (to_float xd))
      by by rewrite list_lookup_fmap, Hxd.
    assert (Hxf' : (to_float <$> fx_vector f) !! fi = Some (to_float xf))
      by by rewrite list_lookup_fmap, Hxf.
    rewrite to_float_dot in Hval. change (to_float (NFloat 0)) with 0 in Hval.
    change map with (@fmap list _) in Hval.
    rewrite !list_fmap_insert, fmap_replicate in Hval.
    change (to_float (NFloat (-1))) with (-1) in Hval.
    change (to_float (NFloat 0)) with 0 in Hval.
    destruct (decide (d = fi)) as [<-|Hne].
    { exfalso.
      rewrite (qdot_insert _ _ d _ (-1) (to_float xd)) in Hval; [| |done].
      2:{ apply list_lookup_insert_eq. by rewrite length_replicate. }
      rewrite (qdot_insert _ _ d _ 0 (to_float xd)) in Hval; [| |done].
      2:{ by apply lookup_replicate. }
      rewrite qdot_replicate_0 in Hval.
      replace xf with xd in * by congruence.
      assert (Hm : to_float inv * to_float xd = 0) by (rewrite <- Hval; ring).
      apply Qc_mult_zero in Hm; [done|].
      rewrite Hiv. intros Hc. apply Hzr.
      assert (He : real rt = real rt * (1 / real rt) * real rt) by (field; done).
      rewrite He, Hc. ring. }
    rewrite (qdot_insert _ _ fi _ 0 (to_float xf)) in Hval; [| |done].
    2:{ rewrite list_lookup_insert_ne by done. by apply lookup_replicate. }
    rewrite (qdot_insert _ _ d _ 0 (to_float xd)) in Hval; [| |done].
    2:{ by apply lookup_replicate. }
    rewrite qdot_replicate_0, Hiv in Hval.
    assert (Hvf : to_float xf = real rt * to_float xd).
    { assert (He : to_float xf
               = real rt * (to_float xd
                   + (0 + (-1 - 0) * to_float xd + (1 / real rt - 0) * to_float xf)))
        by (field; done).
      rewrite He at 1. rewrite Hval. ring. }
    exists d, fi, rt. unfold pair_solved.
    repeat split; try done.
    exists xd, xf. repeat split; try done.
    intros v. specialize (Hgrad v). rewrite ngrad_dot in Hgrad.
    change (ngrad (NFloat 0) v) with 0 in Hgrad.
    change map with (@fmap list _) in Hgrad.
    rewrite !list_fmap_insert, !fmap_replicate in Hgrad.
    change (to_float (NFloat (-1))) with (-1) in Hgrad.
    change (to_float (NFloat 0)) with 0 in Hgrad.
    change (ngrad (NFloat (-1)) v) with 0 in Hgrad.
    change (ngrad (NFloat 0) v) with 0 in Hgrad.
    assert (Hgd : ((fun n => ngrad n v) <$> fx_vector f) !! d = Some (ngrad xd v))
      by by rewrite list_lookup_fmap, Hxd.
    assert (Hgf : ((fun n => ngrad n v) <$> fx_vector f) !! fi = Some (ngrad xf v))
      by by rewrite list_lookup_fmap, Hxf.
    rewrite (qdot_insert _ _ fi _ 0 (to_float xf)) in Hgrad; [| |done].
    2:{ rewrite list_lookup_insert_ne by done. by apply lookup_replicate. }
    rewrite (qdot_insert _ _ d _ 0 (to_float xd)) in Hgrad; [| |done].
    2:{ by apply lookup_replicate. }
    rewrite (qdot_insert _ _ fi _ 0 (ngrad xf v)) in Hgrad; [| |done].
    2:{ rewrite list_lookup_insert_ne by done. by apply lookup_replicate. }
    rewrite (qdot_insert _ _ d _ 0 (ngrad xd v)) in Hgrad; [| |done].
    2:{ by apply lookup_replicate. }
    rewrite !qdot_replicate_0, Hiv, Hig, Hvf in Hgrad.
    change (ngrad (NFloat 1) v) with 0 in Hgrad.
    change (ngrad (NDual rt) v) with (gradient rt v) in Hgrad.
    set (E := 0 + (0 - 0) * to_float xd
              + (/ real rt * 0 + - (1 / (real rt * real rt)) * gradient rt v - 0)
                * (real rt * to_float xd)
              + (0 + (-1 - 0) * ngrad xd v + (1 / real rt - 0) * ngrad xf v)) in Hgrad.
    assert (He : ngrad xf v
              = real rt * ngrad xd v + to_float xd * gradient rt v + real rt * E)
      by (unfold E; field; done).
    rewrite He, Hgrad. ring.
  Qed.
End Solved.

(** ** The rate of an input pair *)

Lemma fold_dict_set_get {V} (items acc : list (string * V)) k v :
  dict_get (fold_left (fun d kv => dict_set d (fst kv) (snd kv)) items acc) k = Some v ->
  dict_get acc k = Some v \/ (k, v) ∈ items.
Proof.
  revert acc. induction items as [|[k' v'] items IH]; intros acc; simpl; [by left|].
  intros H. apply IH in H as [H|H]; [|right; apply elem_of_cons; by right].
  destruct (decide (k' = k)) as [->|Hne].
  - rewrite dict_get_set_eq in H. injection H as ->.
    right. apply elem_of_cons. by left.
  - rewrite dict_get_set_ne in H by done. by left.
Qed.

Lemma dict_of_items_get {V} (items : list (string * V)) k v :
  dict_get (dict_of_items items) k = Some v -> (k, v) ∈ items.
Proof.
  intros H. apply fold_dict_set_get in H as [H|H]; [discriminate | done].
Qed.

Lemma dict_get_is_Some {V} (d : list (string * V)) k :
  k ∈ dict_keys d -> exists v, dict_get d k = Some v.
Proof.
  intros H. destruct (dict_get d k) as [v|] eqn:E; [eauto|].
  by apply dict_get_None in E.
Qed.

(** A rate that was given as a plain real is stored as a dual in its own
    variable. *)
Lemma stored_plain fx p rt :
  (forall kv, kv ∈ fx -> is_dual (snd kv) = false) ->
  dict_get (stored_rates fx) p = Some rt ->
  exists x, rt = dual_var x ("fx_" +:+ p).
Proof.
  intros Hplain H. unfold stored_rates in H. apply dict_of_items_get in H.
  apply list_elem_of_fmap in H as ([k v] & [= -> ->] & Hin).
  specialize (Hplain _ Hin). simpl in *.
  destruct v as [x|d]; [|discriminate]. by exists x.
Qed.

Lemma gradient_dual_var x name v :
  gradient (dual_var x name) v = if decide (v = name) then 1 else 0.
Proof.
  unfold gradient, dual_var. simpl.
  destruct (String.eqb name v) eqn:E.
  - apply String.eqb_eq in E. subst. by rewrite decide_True.
  - apply String.eqb_neq in E. by rewrite decide_False by congruence.
Qed.

Section InputRates.
Variable base_currency : string.
Variable dual_solve : matrix -> vector -> option vector.
Hypothesis dual_solve_spec : forall A b x, dual_solve A b = Some x -> solves A x b.

Local Abbreviation init := (FXRates_init base_currency dual_solve).

(** The rate of a pair of the object is the rate that is stored for it. *)
Lemma rate_of_pair fx s b f p :
    init fx s b = Ok f -> p ∈ pairs f ->
    exists n rt,
      dict_get (fx_rates f) p = Some rt
      /\ FXRates_rate f p = Ok n
      /\ num_eq n (NDual rt).
  Proof.
    intros H Hp. pose proof Hp as Hj. apply list_elem_of_lookup in Hj as (j & Hj).
    destruct (init_pair_solved _ _ dual_solve_spec _ _ _ _ _ _ H Hj)
      as (d & fi & rt & Hd & Hf & Hdq & Hfq & Hne & Hrt & Hzr & xd & xf
          & Hxd & Hxf & Hzd & Hzf & Hval & Hgrad).
    destruct (init_entry_sem _ _ _ _ _ _ d fi H Hdq Hfq)
      as (n & xd' & xf' & Hn & Hxd' & Hxf' & _ & _ & Hv & Hg).
    replace xd' with xd in * by congruence. replace xf' with xf in * by congruence.
    assert (Hlow : lower p = p).
    { apply init_inv in H as (_ & Hps & _). rewrite Hps in Hp.
      by apply stored_pairs_lower in Hp. }
    exists n, rt. split; [done|]. split.
    - unfold FXRates_rate. rewrite lower_take, lower_drop, Hlow.
      unfold dict_item. rewrite Hd, Hf. done.
    - split.
      + rewrite Hv, Hval. change (to_float (NDual rt)) with (real rt). field. done.
      + intros v. rewrite Hg, Hgrad, Hval.
        change (ngrad (NDual rt) v) with (gradient rt v). field. done.
  Qed.

(** C2: after construction the rate of an input pair that was given as a
    plain real has that real as its value, partial derivative 1 with respect
    to the variable [fx_<pair>] of the pair, and 0 with respect to every
    other variable. *)
Theorem rate_of_input_pair fx s b f (k : string) (x : Qc) :
    init fx s b = Ok f ->
    NoDup (map (fun kv => lower (fst kv)) fx) ->
    (k, NFloat x) ∈ fx ->
    exists n,
      FXRates_rate f k = Ok n
      /\ to_float n = x
      /\ ngrad n ("fx_" +:+ lower k) = 1
      /\ forall v, v <> "fx_" +:+ lower k -> ngrad n v = 0.
  Proof.
    intros H Hnd Hin.
    assert (Hst : dict_get (stored_rates fx) (lower k)
                  = Some (dual_var x ("fx_" +:+ lower k))).
    { unfold stored_rates. rewrite dict_of_items_nodup.
      - apply dict_get_nodup.
        + unfold dict_keys. by rewrite map_map.
        + apply list_elem_of_fmap. by exists (k, NFloat x).
      - unfold dict_keys. by rewrite map_map. }
    assert (Hp : lower k ∈ pairs f).
    { pose proof H as Hi. apply init_inv in Hi as (_ & -> & _).
      apply dict_get_Some_elem in Hst. unfold dict_keys.
      apply list_elem_of_fmap. by exists (lower k, dual_var x ("fx_" +:+ lower k)). }
    destruct (rate_of_pair _ _ _ _ _ H Hp) as (n & rt & Hrt & Hn & Hv & Hg).
    assert (rt = dual_var x ("fx_" +:+ lower k)) as ->.
    { apply init_inv in H as (Hfr & _). rewrite Hfr in Hrt. congruence. }
    exists n. rewrite <- rate_lower. split; [done|].
    split; [exact Hv|]. split.
    - rewrite Hg. change (ngrad (NDual ?d) ?v) with (gradient d v).
      rewrite gradient_dual_var. by rewrite decide_True.
    - intros v Hne. rewrite Hg. change (ngrad (NDual ?d) ?v) with (gradient d v).
      rewrite gradient_dual_var. by rewrite decide_False.
  Qed.
End InputRates.

(** ** Positions *)

Lemma mat_col_lookup {A} (M : list (list A)) j col :
  mat_col M j = Ok col ->
  length col = length M /\ forall k a, col !! k = Some a <-> mat_get M k j = Ok a.
Proof.
  unfold mat_col. revert col. induction M as [|row M IH]; intros col H; simpl in H.
  - injection H as <-. split; [done|]. intros k a. unfold mat_get, vec_get.
    rewrite !lookup_nil. simpl. done.
  - inv_bind H. inv_bind H. injection H as <-.
    apply IH in Ha0 as [Hlen Hget]. split; [simpl; by rewrite Hlen|].
    intros [|k] b; simpl.
    + unfold mat_get. simpl. rewrite Ha. split; congruence.
    + rewrite Hget. unfold mat_get. simpl. done.
Qed.

Lemma mat_col_defined {A} n (M : list (list A)) j :
  has_shape n M -> (j < n)%nat -> exists col, mat_col M j = Ok col.
Proof.
  intros [_ Hr] Hj. unfold mat_col. clear -Hr Hj.
  induction Hr as [|row M Hrow Hr IH]; simpl; [eauto|].
  destruct (lookup_lt_is_Some_2 row j) as [a Ha]; [lia|].
  destruct IH as (col & ->). unfold vec_get. rewrite Ha. simpl. eauto.
Qed.

Lemma qdot_floats (pos : list Qc) (col : vector) :
  to_float (np_sum (zip_with (fun a c => num_mul (NFloat a) c) pos col))
  = qdot pos (map to_float col).
Proof.
  rewrite to_float_sum. unfold qdot. f_equal.
  revert col. induction pos as [|a pos IH]; intros [|c col]; cbn [zip_with map];
    try done.
  by rewrite IH, to_float_mul.
Qed.

Lemma qdot_grads (pos : list Qc) (col : vector) v :
  ngrad (np_sum (zip_with (fun a c => num_mul (NFloat a) c) pos col)) v
  = qdot pos (map (fun n => ngrad n v) col).
Proof.
  rewrite ngrad_sum. unfold qdot. f_equal.
  revert col. induction pos as [|a pos IH]; intros [|c col]; cbn [zip_with map];
    try done.
  rewrite IH, ngrad_mul, ngrad_float. f_equal.
  change (to_float (NFloat a)) with a. ring.
Qed.

Lemma qdot_indicator_absent (L : list string) bs r Y :
  bs ∉ L ->
  qdot (map (fun ccy => if negb (String.eqb ccy bs) then 0 else r) L) Y = 0.
Proof.
  unfold qdot, qsum. revert Y. induction L as [|c L IH]; intros [|y Y] Hn; simpl;
    try done.
  apply not_elem_of_cons in Hn as [Hne Hn].
  destruct (String.eqb c bs) eqn:E.
  - apply String.eqb_eq in E. congruence.
  - simpl. rewrite IH by done. ring.
Qed.

Lemma qdot_indicator (L : list string) bs r Y i y :
  NoDup L -> L !! i = Some bs -> Y !! i = Some y ->
  qdot (map (fun ccy => if negb (String.eqb ccy bs) then 0 else r) L) Y = r * y.
Proof.
  revert Y i. induction L as [|c L IH]; intros [|y' Y] i Hnd Hi Hy; try done.
  pose proof (NoDup_cons_1_1 _ _ Hnd) as Hc. apply NoDup_cons_1_2 in Hnd.
  destruct i as [|i]; simpl in Hi, Hy.
  - injection Hi as ->. injection Hy as ->.
    change (qdot (map ?g (bs :: L)) (y :: Y))
      with (g bs * y + qdot (map g L) Y).
    rewrite qdot_indicator_absent by done. rewrite String.eqb_refl. simpl. ring.
  - assert (c <> bs).
    { intros ->. apply Hc. eapply list_elem_of_lookup_2; eauto. }
    change (qdot (map ?g (c :: L)) (y' :: Y))
      with (g c * y' + qdot (map g L) Y).
    rewrite (IH _ _ Hnd Hi Hy).
    destruct (String.eqb c bs) eqn:E; [apply String.eqb_eq in E; done|].
    simpl. ring.
Qed.

Lemma qsum_indicator (g : string -> Qc) (names : list string) v :
  NoDup names ->
  qsum (map (fun name => g name * (if decide (v = name) then 1 else 0)) names)
  = if str_in v names then g v else 0.
Proof.
  unfold qsum. induction names as [|a names IH]; intros Hnd; simpl; [done|].
  pose proof (NoDup_cons_1_1 _ _ Hnd) as Ha. apply NoDup_cons_1_2 in Hnd.
  rewrite IH by done.
  destruct (String.eqb v a) eqn:E.
  - apply String.eqb_eq in E. subst a. rewrite decide_True by done. simpl.
    apply str_in_false in Ha. rewrite Ha. ring.
  - apply String.eqb_neq in E. rewrite decide_False by done. simpl. ring.
Qed.

Lemma vec_set_lt {A} (l : list A) i a :
  (i < length l)%nat -> vec_set l i a = Ok (<[i:=a]> l).
Proof.
  intros H. unfold vec_set. by destruct (Nat.ltb_spec i (length l)); [|lia].
Qed.

Section RoundTrip.
Variable base_currency : string.
Variable dual_solve : matrix -> vector -> option vector.
Hypothesis dual_solve_spec : forall A b x, dual_solve A b = Some x -> solves A x b.

Local Abbreviation init := (FXRates_init base_currency dual_solve).

(** The cash positions of the delta of one pair revalue to nothing, and
    carry the delta as their sensitivity to the rate of the pair. *)
Lemma positions_from_delta fx s b f (delta : Qc) (p bs : string) (ib : nat)
      (col : vector) :
    init fx s b = Ok f ->
    p ∈ pairs f ->
    dict_get (currencies f) bs = Some ib ->
    mat_col (fx_array f) ib = Ok col ->
    exists c rt,
      FXRates_get_positions_from_delta f delta p bs = Ok c
      /\ length c = q f
      /\ dict_get (fx_rates f) p = Some rt
      /\ qdot c (map to_float col) = 0
      /\ forall v, qdot c (map (fun n => ngrad n v) col) = delta * gradient rt v.
  Proof.
    intros H Hp Hib Hcol.
    pose proof (init_index_bound _ _ _ _ _ _ _ _ H Hib) as Hibq.
    apply list_elem_of_lookup in Hp as (j & Hj).
    destruct (init_pair_solved _ _ dual_solve_spec _ _ _ _ _ _ H Hj)
      as (d & fi & rt & Hd & Hf & Hdq & Hfq & Hne & Hrt & Hzr & xd & xf
          & Hxd & Hxf & Hzd & Hzf & Hval & Hgrad).
    destruct (init_entry_sem _ _ _ _ _ _ ib fi H Hibq Hfq)
      as (nbf & xb & xf1 & Hnbf & Hxb & Hxf1 & Hzb & _ & Hvbf & _).
    destruct (init_entry_sem _ _ _ _ _ _ fi d H Hfq Hdq)
      as (nfd & xf2 & xd2 & Hnfd & Hxf2 & Hxd2 & _ & _ & Hvfd & _).
    destruct (init_entry_sem _ _ _ _ _ _ d ib H Hdq Hibq)
      as (ndb & xd3 & xb3 & Hndb & Hxd3 & Hxb3 & _ & _ & Hvdb & Hgdb).
    destruct (init_entry_sem _ _ _ _ _ _ fi ib H Hfq Hibq)
      as (nfb & xf4 & xb4 & Hnfb & Hxf4 & Hxb4 & _ & _ & Hvfb & Hgfb).
    replace xf1 with xf in * by congruence. replace xf2 with xf in * by congruence.
    replace xf4 with xf in * by congruence. replace xd2 with xd in * by congruence.
    replace xd3 with xd in * by congruence. replace xb3 with xb in * by congruence.
    replace xb4 with xb in * by congruence.
    apply mat_col_lookup in Hcol as [Hlen Hget].
    apply Hget in Hndb, Hnfb.
    assert (Hzfd : to_float nfd <> 0).
    { rewrite Hvfd. intros Hc. apply Hzd.
      assert (He : to_float xd = to_float xd / to_float xf * to_float xf)
        by (field; done).
      rewrite He, Hc. ring. }
    set (fval := delta * to_float nbf).
    exists (<[fi:=- fval / to_float nfd]> (<[d:=fval]> (replicate (q f) 0))), rt.
    split.
    { unfold FXRates_get_positions_from_delta, dict_item.
      rewrite Hib, Hd, Hf. cbn [of_option mbind result_bind].
      rewrite Hnbf. cbn [mbind result_bind]. fold fval.
      rewrite vec_set_lt by (by rewrite length_replicate).
      cbn [mbind result_bind].
      rewrite Hnfd. cbn [mbind result_bind].
      rewrite decide_False by done. cbn [mbind result_bind].
      rewrite vec_set_lt by (by rewrite length_insert, length_replicate). done. }
    split; [by rewrite !length_insert, length_replicate|].
    split; [done|].
    assert (Hins : forall Y yd yf, Y !! d = Some yd -> Y !! fi = Some yf ->
              qdot (<[fi:=- fval / to_float nfd]> (<[d:=fval]> (replicate (q f) 0))) Y
              = fval * yd + - fval / to_float nfd * yf).
    { intros Y yd yf Hyd Hyf.
      rewrite (qdot_insert _ _ fi _ 0 yf); [| |done].
      2:{ rewrite list_lookup_insert_ne by done. by apply lookup_replicate. }
      rewrite (qdot_insert _ _ d _ 0 yd); [| |done].
      2:{ by apply lookup_replicate. }
      rewrite qdot_replicate_0. ring. }
    split.
    - rewrite (Hins _ (to_float ndb) (to_float nfb));
        [| by rewrite list_lookup_fmap, Hndb | by rewrite list_lookup_fmap, Hnfb].
      unfold fval. rewrite Hvbf, Hvfd, Hvdb, Hvfb. field. done.
    - intros v. rewrite (Hins _ (ngrad ndb v) (ngrad nfb v));
        [| by rewrite list_lookup_fmap, Hndb | by rewrite list_lookup_fmap, Hnfb].
      unfold fval. rewrite Hvbf, Hvfd, Hgdb, Hgfb, Hgrad, Hval. field.
      repeat split; done.
  Qed.
End RoundTrip.

(** ** The round trip of positions *)

Section Positions.
Variable base_currency : string.
Variable dual_solve : matrix -> vector -> option vector.
Hypothesis dual_solve_spec : forall A b x, dual_solve A b = Some x -> solves A x b.

Local Abbreviation init := (FXRates_init base_currency dual_solve).

Lemma positions_fold fx s b f (value : Dual) (bs : string) (ib : nat) (col : vector)
      (names : list string) :
    init fx s b = Ok f ->
    (forall kv, kv ∈ fx -> is_dual (snd kv) = false) ->
    dict_get (currencies f) bs = Some ib ->
    mat_col (fx_array f) ib = Ok col ->
    (forall name, name ∈ names -> exists p, p ∈ pairs f /\ name = "fx_" +:+ p) ->
    forall acc, length acc = q f ->
    exists pos,
      fold_result (fun acc pair =>
             if String.eqb (str_take 3 pair) "fx_" then
               d ← FXRates_get_positions_from_delta f (gradient value pair)
                     (str_drop 3 pair) bs;
               Ok (zip_with Qcplus acc d)
             else Ok acc) names acc = Ok pos
      /\ length pos = q f
      /\ qdot pos (map to_float col) = qdot acc (map to_float col)
      /\ forall v, qdot pos (map (fun n => ngrad n v) col)
           = qdot acc (map (fun n => ngrad n v) col)
             + qsum (map (fun name =>
                        gradient value name * (if decide (v = name) then 1 else 0))
                      names).
  Proof.
    intros H Hplain Hib Hcol. induction names as [|name names IH]; intros Hnames acc Hacc.
    - exists acc. split; [done|]. split; [done|]. split; [done|].
      intros v. unfold qsum. simpl. ring.
    - destruct (Hnames name) as (p & Hp & ->); [apply elem_of_cons; by left|].
      destruct (positions_from_delta _ _ dual_solve_spec _ _ _ _
                  (gradient value ("fx_" +:+ p)) p bs ib col H Hp Hib Hcol)
        as (c & rt & Hc & Hlen & Hrt & Hv & Hg).
      assert (Hx : exists x, rt = dual_var x ("fx_" +:+ p)).
      { pose proof H as Hi. apply init_inv in Hi as (Hfr & _).
        rewrite Hfr in Hrt. eapply stored_plain; eauto. }
      destruct Hx as (x & ->).
      destruct (IH (fun n Hn => Hnames n ltac:(apply elem_of_cons; by right))
                  (zip_with Qcplus acc c))
        as (pos & Hpos & Hlpos & Hvpos & Hgpos).
      { rewrite length_zip_with. lia. }
      exists pos. split.
      { cbn [fold_result].
        change (str_take 3 ("fx_" +:+ p)) with "fx_".
        change (str_drop 3 ("fx_" +:+ p)) with p.
        cbn [String.eqb Ascii.eqb Bool.eqb]. rewrite Hc. exact Hpos. }
      split; [done|]. split.
      + rewrite Hvpos, qdot_add by lia. rewrite Hv. ring.
      + intros v. rewrite Hgpos, qdot_add by lia. rewrite Hg.
        rewrite gradient_dual_var. unfold qsum. simpl. ring.
  Qed.

(** C1, as the code has it: for an object built from plain reals, a base
    currency of the object and a value whose variables are distinct and are
    all of the form [fx_<pair>] for a pair of the object, the positions of
    the value convert back to the value: same real part and same partial
    derivative with respect to every variable. *)
Theorem positions_round_trip fx s b f (value : Number) (base_ : option string) :
    init fx s b = Ok f ->
    (forall kv, kv ∈ fx -> is_dual (snd kv) = false) ->
    match base_ with None => base f | Some c => lower c end ∈ currencies_list f ->
    NoDup (vars (to_dual value)) ->
    (forall name, name ∈ vars (to_dual value) ->
       exists p, p ∈ pairs f /\ name = "fx_" +:+ p) ->
    exists pos r,
      FXRates_positions f value base_ = Ok pos
      /\ FXRates_convert_positions f pos base_ = Ok r
      /\ num_eq r value.
  Proof.
    intros H Hplain Hbase Hnd Hvars.
    set (bs := match base_ with None => base f | Some c => lower c end) in *.
    destruct (init_currency _ _ _ _ _ _ _ H Hbase) as (_ & ib & Hib & Hibq).
    pose proof (init_array _ _ _ _ _ _ H) as (Hshape & _ & Hdiag).
    destruct (mat_col_defined _ _ ib Hshape Hibq) as (col & Hcol).
    pose proof (mat_col_lookup _ _ _ Hcol) as [Hlcol Hgcol].
    assert (Hlist : currencies_list f !! ib = Some bs /\ NoDup (currencies_list f)
                    /\ length (currencies_list f) = q f).
    { pose proof H as Hi. apply init_inv in Hi as (_ & _ & Hcur & Hl & Hq & _).
      rewrite Hl, Hq. split; [|split; [apply find_currencies_NoDup | done]].
      rewrite Hcur in Hib. apply enumerate_lookup; [apply find_currencies_NoDup | done]. }
    destruct Hlist as (Hlb & Hlnd & Hll).
    destruct (positions_fold _ _ _ _ (to_dual value) bs ib col (vars (to_dual value))
                H Hplain Hib Hcol Hvars
                (map (fun ccy => if negb (String.eqb ccy bs) then 0 else real (to_dual value))
                   (currencies_list f)))
      as (pos & Hpos & Hlpos & Hvpos & Hgpos).
    { by rewrite length_map. }
    assert (Hone : col !! ib = Some (NFloat 1)) by (apply Hgcol; auto).
    exists pos, (np_sum (zip_with (fun a c => num_mul (NFloat a) c) pos col)).
    split; [exact Hpos|]. split.
    { unfold FXRates_convert_positions. fold bs. unfold dict_item. rewrite Hib.
      cbn [of_option mbind result_bind]. rewrite Hcol. cbn [mbind result_bind].
      unfold np_mul. destruct Hshape as [Hrows _].
      replace (length pos =? length col)%nat with true; [done|].
      symmetry. apply Nat.eqb_eq. lia. }
    split.
    - rewrite qdot_floats, Hvpos.
      rewrite (qdot_indicator _ bs _ _ ib 1 Hlnd Hlb).
      + change (to_float value) with (real (to_dual value)). ring.
      + by rewrite list_lookup_fmap, Hone.
    - intros v. rewrite qdot_grads, Hgpos.
      rewrite (qdot_indicator _ bs _ _ ib 0 Hlnd Hlb).
      + rewrite qsum_indicator by done. unfold ngrad.
        destruct (str_in v (vars (to_dual value))) eqn:E; [ring|].
        rewrite gradient_absent by done. ring.
      + by rewrite list_lookup_fmap, Hone.
  Qed.
End Positions.

(** ** The certifying solver meets the contract of [dual_solve] *)

Lemma num_eqb_eq a b : num_eqb a b = true -> num_eq a b.
Proof.
  unfold num_eqb. intros H. apply andb_true_iff in H as [Hv Hg].
  apply bool_decide_eq_true in Hv. split; [done|]. intros v.
  rewrite forallb_forall in Hg.
  destruct (str_in v (vars (to_dual a) ++ vars (to_dual b))) eqn:E.
  - apply str_in_true, list_elem_of_In in E. specialize (Hg v E).
    by apply bool_decide_eq_true in Hg.
  - rewrite str_in_app in E. apply orb_false_iff in E as [Ea Eb].
    unfold ngrad. by rewrite !gradient_absent.
Qed.

Lemma dual_solve_gauss_spec A b x : dual_solve_gauss A b = Some x -> solves A x b.
Proof.
  unfold dual_solve_gauss. destruct (gauss_jordan _ _ _) as [rows|]; [|done].
  destruct (solvesb A (map snd rows) b) eqn:E; [|done]. intros [= <-].
  unfold solvesb in E. apply andb_true_iff in E as [Hl Hall].
  apply Nat.eqb_eq in Hl. split; [done|].
  intros i row bi Hrow Hbi. rewrite forallb_forall in Hall.
  apply num_eqb_eq. apply (Hall (row, bi)).
  apply list_elem_of_In. apply list_elem_of_lookup. exists i.
  by apply lookup_zip_Some.
Qed.

(** * The theorems at the sample markets *)

Lemma sample_usdnok :
  FXRates_init "usd" dual_solve_gauss usdnok_rates None None = Ok fxr_usdnok.
Proof. vm_compute. reflexivity. Defined.

Lemma sample_market :
  FXRates_init "usd" dual_solve_gauss market_rates None None = Ok fxr_market.
Proof. vm_compute. reflexivity. Defined.

Lemma sample_plain (fx : list (string * Number)) :
  forallb (fun kv => negb (is_dual (snd kv))) fx = true ->
  forall kv, kv ∈ fx -> is_dual (snd kv) = false.
Proof.
  intros H kv Hkv. rewrite forallb_forall in H.
  apply negb_true_iff, H. by apply list_elem_of_In.
Defined.

Lemma sample_elem (k : string) (l : list string) : str_in k l = true -> k ∈ l.
Proof. apply str_in_true. Defined.

Lemma positions_round_trip_witness :
  exists pos r,
    FXRates_positions fxr_usdnok value_usdnok (Some "usd") = Ok pos
    /\ FXRates_convert_positions fxr_usdnok pos (Some "usd") = Ok r
    /\ num_eq r value_usdnok.
Proof.
  apply (positions_round_trip "usd" dual_solve_gauss dual_solve_gauss_spec
           usdnok_rates None None fxr_usdnok value_usdnok (Some "usd")).
  - vm_compute. reflexivity.
  - apply sample_plain. reflexivity.
  - apply sample_elem. reflexivity.
  - apply NoDup_cons_2; [apply not_elem_of_nil | apply NoDup_nil_2].
  - intros name Hname. apply list_elem_of_singleton in Hname as ->.
    exists "usdnok". split; [apply sample_elem; reflexivity | reflexivity].
Defined.

Lemma rate_of_input_pair_witness :
  exists n,
    FXRates_rate fxr_market "GBPUSD" = Ok n
    /\ to_float n = qq 5 4
    /\ ngrad n ("fx_" +:+ lower "GBPUSD") = 1
    /\ forall v, v <> "fx_" +:+ lower "GBPUSD" -> ngrad n v = 0.
Proof.
  apply (rate_of_input_pair "usd" dual_solve_gauss dual_solve_gauss_spec
           [("eurusd", NFloat (qq 11 10)); ("GBPUSD", NFloat (qq 5 4));
            ("usdjpy", NFloat (qz 100))]
           None None fxr_market "GBPUSD" (qq 5 4)).
  - vm_compute. reflexivity.
  - simpl. repeat (apply NoDup_cons_2; [by rewrite <- str_in_false|]).
    apply NoDup_nil_2.
  - apply elem_of_cons. right. apply elem_of_cons. by left.
Defined.

Lemma rate_triangular_witness :
  exists n1 n2 n3,
    FXRates_rate fxr_market ("gbp" +:+ "usd") = Ok n1
    /\ FXRates_rate fxr_market ("usd" +:+ "jpy") = Ok n2
    /\ FXRates_rate fxr_market ("gbp" +:+ "jpy") = Ok n3
    /\ num_eq (num_mul n1 n2) n3.
Proof.
  apply (rate_triangular "usd" dual_solve_gauss market_rates None None fxr_market
           "gbp" "usd" "jpy").
  - vm_compute. reflexivity.
  - apply sample_elem. reflexivity.
  - apply sample_elem. reflexivity.
  - apply sample_elem. reflexivity.
  - reflexivity.
  - reflexivity.
Defined.

Lemma currencies_first_seen_witness :
  currencies_list fxr_market
    = first_seen (map (str_take 3) (pairs fxr_market)
                  ++ map (str_slice 3 6) (pairs fxr_market))
  /\ forall i c, currencies_list fxr_market !! i = Some c
                 <-> dict_get (currencies fxr_market) c = Some i.
Proof.
  apply (currencies_first_seen "usd" dual_solve_gauss market_rates None None fxr_market).
  vm_compute. reflexivity.
Defined.

Lemma unknown_currency_policy_witness :
  FXRates_convert fxr_usdnok (NFloat (qz 1000000)) "NOK" (Some "inr") "warn"
    = spec_on_error "warn" "inr"
  /\ exists k, FXRates_rate fxr_usdnok "usdinr" = Raise (KeyError k).
Proof.
  apply (unknown_currency_policy fxr_usdnok (NFloat (qz 1000000)) "NOK" (Some "inr")
           "warn" "inr" "usdinr").
  - reflexivity.
  - vm_compute. discriminate.
Defined.


Lemma update_in_place_witness :
  let new_rates := dict_of_items (map (fun kv => (lower (fst kv), snd kv)) usdeur_update) in
  exists self self',
    heap_before !! 0%nat = Some self /\ heap_after !! 0%nat = Some self'
    /\ length heap_after = length heap_before
    /\ (forall j, j <> 0%nat -> heap_after !! j = heap_before !! j)
    /\ pairs self' = pairs self
    /\ currencies self' = currencies self
    /\ currencies_list self' = currencies_list self
    /\ base self' = base self
    /\ settlement self' = settlement self
    /\ variables self' = variables self
    /\ q self' = q self
    /\ _ad self' = _ad self
    /\ FXRates_update "usd" dual_solve_gauss self usdeur_update = Ok self'
    /\ exists items new,
         Forall2 (fun p (item : string * Number) =>
              fst item = p
              /\ (p ∈ dict_keys new_rates -> dict_get new_rates p = Some (snd item))
              /\ (p ∉ dict_keys new_rates ->
                  exists r, dict_get (fx_rates self) p = Some r
                            /\ snd item = NFloat (real r)))
           (pairs self) items
         /\ FXRates_init "usd" dual_solve_gauss (dict_of_items items) (settlement self)
              (Some (base self)) = Ok new
         /\ fx_rates self' = fx_rates new
         /\ fx_vector self' = fx_vector new
         /\ fx_array self' = fx_array new.
Proof.
  apply (update_in_place "usd" dual_solve_gauss heap_before 0 usdeur_update heap_after).
  vm_compute. reflexivity.
Defined.

Lemma FXRates_case_insensitive_witness :
  FXRates_rate_unicode fxr_market "GBPjpy"
  = FXRates_rate_unicode fxr_market (lower_unicode "GBPjpy")
  /\ FXRates_convert_unicode fxr_market (NFloat (qz 100)) "GBP" (Some "Jpy") "raise"
     = FXRates_convert_unicode fxr_market (NFloat (qz 100)) (lower_unicode "GBP")
         (lower_unicode <$> Some "Jpy") "raise"
  /\ FXRates_init_unicode "usd" dual_solve_gauss [("USDnok", NFloat (qz 8))] None
       (Some "NOK")
     = FXRates_init_unicode "usd" dual_solve_gauss
         (map (fun kv => (lower_unicode (fst kv), snd kv)) [("USDnok", NFloat (qz 8))])
         None (lower_unicode <$> Some "NOK").
Proof.
  pose proof (FXRates_case_insensitive "usd" dual_solve_gauss) as (Hrate & Hconv & Hinit).
  split; [|split].
  - apply Hrate. reflexivity.
  - apply Hconv.
  - apply Hinit.
Defined.

(** * Where the code departs from the wording of the specification *)

(** C1: a value that is sensitive to something other than an FX rate does not
    survive the round trip; [positions] skips every variable that does not
    start with [fx_]. *)
Lemma positions_round_trip_counterexample :
  exists pos r,
    FXRates_init "usd" dual_solve_gauss usdnok_rates None None = Ok fxr_usdnok
    /\ FXRates_positions fxr_usdnok value_curve (Some "usd") = Ok pos
    /\ FXRates_convert_positions fxr_usdnok pos (Some "usd") = Ok r
    /\ ngrad value_curve "v0" = 1
    /\ ngrad r "v0" = 0
    /\ ~ num_eq r value_curve.
Proof.
  eexists _, _. split; [vm_compute; reflexivity|].
  split; [vm_compute; reflexivity|].
  split; [vm_compute; reflexivity|].
  split; [vm_compute; reflexivity|].
  split; [vm_compute; reflexivity|].
  intros [_ Hg]. specialize (Hg "v0"). vm_compute in Hg. discriminate Hg.
Qed.

(** C5: for three pairs the code lists all domestic codes before the foreign
    codes, which is not the order of a walk pair by pair; the same holds for
    the pair list of the claim. *)
Lemma currencies_order_counterexample :
  FXRates_init "usd" dual_solve_gauss market_rates None None = Ok fxr_market
  /\ currencies_list fxr_market = ["eur"; "gbp"; "usd"; "jpy"]
  /\ spec_walk_currencies (pairs fxr_market) = ["eur"; "usd"; "gbp"; "jpy"]
  /\ currencies_list fxr_market <> spec_walk_currencies (pairs fxr_market)
  /\ find_currencies ["eurusd"; "gbpjpy"] = ["eur"; "gbp"; "usd"; "jpy"]
  /\ spec_walk_currencies ["eurusd"; "gbpjpy"] = ["eur"; "usd"; "gbp"; "jpy"].
Proof.
  split; [vm_compute; reflexivity|].
  split; [reflexivity|]. split; [reflexivity|].
  split; [vm_compute; discriminate|]. split; reflexivity.
Qed.

(** C6: [update] with one of the two pairs of the object does not raise. *)
Lemma update_subset_counterexample :
  exists self',
    FXRates_init "usd" dual_solve_gauss eurnok_rates None None = Ok fxr_eurnok
    /\ pairs fxr_eurnok = ["usdeur"; "eurnok"]
    /\ set_eqb (dict_keys usdeur_update) (pairs fxr_eurnok) = false
    /\ FXRates_update "usd" dual_solve_gauss fxr_eurnok usdeur_update = Ok self'.
Proof.
  eexists. split; [vm_compute; reflexivity|].
  split; [reflexivity|]. split; [reflexivity|]. vm_compute. reflexivity.
Qed.

(** C7: [rate] raises for an unknown currency whatever policy one has in
    mind, where the policy "ignore" would return [None]. *)
Lemma rate_on_error_counterexample :
  unknown_currency fxr_usdnok "usd" "inr" = Some "inr"
  /\ FXRates_rate fxr_usdnok "usdinr" = Raise (KeyError "inr")
  /\ spec_on_error "ignore" "inr" = Ok (None, [])
  /\ as_optional (FXRates_rate fxr_usdnok "usdinr") <> spec_on_error "ignore" "inr".
Proof.
  split; [reflexivity|]. split; [reflexivity|]. split; [reflexivity|].
  vm_compute. discriminate.
Qed.

(** C8: with no pair and no base, [FXRates({})], the constructor fails before
    it counts the pairs, with an [IndexError] and no [ValueError], although
    the number of pairs, 0, differs from [q - 1 = -1]; with a base the same
    map raises the [ValueError] of an overspecified market. *)
Lemma init_empty_counterexample :
  FXRates_init "usd" dual_solve_gauss [] None None = Raise IndexError
  /\ Z.of_nat (length (dict_keys (stored_rates []))) = 0%Z
  /\ (Z.of_nat (length (find_currencies (dict_keys (stored_rates [])))) - 1 = -1)%Z
  /\ (forall e, FXRates_init "usd" dual_solve_gauss [] None None <> Raise (ValueError e))
  /\ FXRates_init "usd" dual_solve_gauss [] None (Some "usd")
     = Raise (ValueError (Overspecified 0 0)).
Proof.
  split; [reflexivity|]. split; [reflexivity|]. split; [reflexivity|].
  split; [|reflexivity]. intros e. vm_compute. discriminate.
Qed.

(** C10: [rate] slices the pair before it lowercases the two parts.  The
    lowercase form of [İausd] has six characters, [i], U+0307, [a], [u],
    [s], [d]; the object built on it has the currencies [i̇a] and [usd].
    For [İausd], [rate] looks up the lowercase form of [İau], which has
    four characters and is no currency of the object, and raises
    [KeyError]; for the lowercase form of the pair it returns the rate. *)
Lemma rate_case_counterexample :
  lower_unicode dotted_pair = dotted_key
  /\ FXRates_init_unicode "usd" dual_solve_gauss [(dotted_key, NFloat (qz 2))] None None
     = Ok fxr_dotted
  /\ dict_keys (currencies fxr_dotted) = [String "i" (String combining_dot "a"); "usd"]
  /\ FXRates_rate_unicode fxr_dotted dotted_pair
     = Raise (KeyError (String "i" (String combining_dot "au")))
  /\ (exists n, FXRates_rate_unicode fxr_dotted (lower_unicode dotted_pair) = Ok n
                /\ to_float n = qz 2)
  /\ FXRates_rate_unicode fxr_dotted dotted_pair
     <> FXRates_rate_unicode fxr_dotted (lower_unicode dotted_pair).
Proof.
  split; [reflexivity|].
  split; [vm_compute; reflexivity|]. split; [reflexivity|].
  split; [vm_compute; reflexivity|]. split.
  - eexists. split; [vm_compute; reflexivity|]. vm_compute. reflexivity.
  - vm_compute. discriminate.
Qed.

(** * Further properties of the code *)

(** ** Reciprocal rates and conversions *)

Section MoreRates.
Variable base_currency : string.
Variable dual_solve : matrix -> vector -> option vector.

Local Abbreviation init := (FXRates_init base_currency dual_solve).

Lemma rate_by_index fx s b f (ca cb : string) :
  init fx s b = Ok f ->
  ca ∈ currencies_list f -> cb ∈ currencies_list f -> String.length ca = 3%nat ->
  exists i j,
    dict_get (currencies f) ca = Some i /\ dict_get (currencies f) cb = Some j
    /\ (i < q f)%nat /\ (j < q f)%nat
    /\ FXRates_rate f (ca +:+ cb) = mat_get (fx_array f) i j.
Proof.
  intros H Ha Hb La.
  destruct (init_currency _ _ _ _ _ _ _ H Ha) as (Hla & i & Hi & Hiq).
  destruct (init_currency _ _ _ _ _ _ _ H Hb) as (Hlb & j & Hj & Hjq).
  exists i, j. repeat split; try done.
  unfold FXRates_rate. rewrite str_take_app, str_drop_app by done.
  rewrite Hla, Hlb. unfold dict_item. by rewrite Hi, Hj.
Qed.

(** X1: the rate of a pair times the rate of the reverse pair is 1, as duals. *)
Theorem rate_reciprocal fx s b f (ca cb : string) :
  init fx s b = Ok f ->
  ca ∈ currencies_list f -> cb ∈ currencies_list f ->
  String.length ca = 3%nat -> String.length cb = 3%nat ->
  exists n1 n2,
    FXRates_rate f (ca +:+ cb) = Ok n1
    /\ FXRates_rate f (cb +:+ ca) = Ok n2
    /\ num_eq (num_mul n1 n2) (NFloat 1).
Proof.
  intros H Ha Hb La Lb.
  destruct (rate_by_index _ _ _ _ _ _ H Ha Hb La) as (i & j & Hi & Hj & Hiq & Hjq & R1).
  destruct (rate_by_index _ _ _ _ _ _ H Hb Ha Lb) as (j' & i' & Hj' & Hi' & _ & _ & R2).
  replace i' with i in * by congruence. replace j' with j in * by congruence.
  destruct (init_entry_sem _ _ _ _ _ _ i j H Hiq Hjq)
    as (n1 & xi & xj & Hn1 & Hxi & Hxj & Hzi & Hzj & Hv1 & Hg1).
  destruct (init_entry_sem _ _ _ _ _ _ j i H Hjq Hiq)
    as (n2 & xj' & xi' & Hn2 & Hxj' & Hxi' & _ & _ & Hv2 & Hg2).
  replace xi' with xi in * by congruence. replace xj' with xj in * by congruence.
  exists n1, n2. rewrite R1, R2. repeat split; try done.
  - rewrite to_float_mul, Hv1, Hv2. change (to_float (NFloat 1)) with 1. field. done.
  - intros v. rewrite ngrad_mul, Hv1, Hv2, Hg1, Hg2, ngrad_float. field. done.
Qed.

(** X2: the rate of a currency against itself is the plain number 1. *)
Theorem rate_same_currency fx s b f (ca : string) :
  init fx s b = Ok f -> ca ∈ currencies_list f -> String.length ca = 3%nat ->
  FXRates_rate f (ca +:+ ca) = Ok (NFloat 1).
Proof.
  intros H Ha La.
  destruct (rate_by_index _ _ _ _ _ _ H Ha Ha La) as (i & j & Hi & Hj & Hiq & _ & R).
  replace j with i in * by congruence. rewrite R.
  by apply (init_array _ _ _ _ _ _ H).
Qed.

(** X3: with both currencies known, [convert] returns the value times the cross
    rate, without a warning, whatever the policy and the case of the codes. *)
Theorem convert_known fx s b f (value : Number) (domestic : string)
    (foreign : option string) (on_error : string) :
  init fx s b = Ok f ->
  lower domestic ∈ currencies_list f ->
  match foreign with None => base f | Some c => lower c end ∈ currencies_list f ->
  exists r,
    FXRates_convert f value domestic foreign on_error = Ok (Some (num_mul value r), [])
    /\ (String.length domestic = 3%nat ->
        FXRates_rate f (domestic +:+ match foreign with
                                     | None => base f
                                     | Some c => lower c
                                     end) = Ok r).
Proof.
  intros H Hd Hf. set (fo := match foreign with None => base f | Some c => lower c end) in *.
  destruct (init_currency _ _ _ _ _ _ _ H Hd) as (_ & i & Hi & Hiq).
  destruct (init_currency _ _ _ _ _ _ _ H Hf) as (Hlf & j & Hj & Hjq).
  destruct (init_entry_sem _ _ _ _ _ _ i j H Hiq Hjq) as (r & _ & _ & Hr & _).
  exists r. split.
  - unfold FXRates_convert. fold fo. cbn [List.find].
    unfold dict_mem. rewrite Hi, Hj. cbn [negb].
    rewrite lower_idemp, Hlf. unfold dict_item. rewrite Hi, Hj.
    cbn [of_option mbind result_bind]. by rewrite Hr.
  - intros Ld. unfold FXRates_rate.
    rewrite lower_take, lower_drop.
    assert (Ll : String.length (lower domestic) = 3%nat).
    { clear -Ld. revert Ld. generalize 3%nat.
      induction domestic as [|c d IH]; intros n Hn; simpl in *; [done|].
      destruct n; [done|]. injection Hn as Hn. by rewrite (IH n). }
    assert (Happ : lower (domestic +:+ fo) = lower domestic +:+ fo).
    { rewrite <- Hlf at 2. clear. induction domestic as [|c d IH]; simpl; [done|].
      by rewrite IH. }
    rewrite Happ, str_take_app, str_drop_app by done.
    unfold dict_item. by rewrite Hi, Hj.
Qed.

(** X4: converting from a currency into itself gives the value back. *)
Theorem convert_same_currency fx s b f (value : Number) (ccy : string)
    (on_error : string) :
  init fx s b = Ok f -> lower ccy ∈ currencies_list f ->
  exists r,
    FXRates_convert f value ccy (Some ccy) on_error = Ok (Some r, [])
    /\ num_eq r value.
Proof.
  intros H Hc.
  destruct (init_currency _ _ _ _ _ _ _ H Hc) as (_ & i & Hi & Hiq).
  pose proof (init_array _ _ _ _ _ _ H) as (_ & _ & Hdiag).
  exists (num_mul value (NFloat 1)). split.
  - unfold FXRates_convert. cbn [List.find].
    unfold dict_mem. rewrite Hi. cbn [negb].
    rewrite lower_idemp. unfold dict_item. rewrite Hi.
    cbn [of_option mbind result_bind]. by rewrite Hdiag.
  - split.
    + rewrite to_float_mul. change (to_float (NFloat 1)) with 1. ring.
    + intros v. rewrite ngrad_mul, ngrad_float. change (to_float (NFloat 1)) with 1. ring.
Qed.
End MoreRates.

Lemma rate_reciprocal_witness :
  exists n1 n2,
    FXRates_rate fxr_market ("eur" +:+ "jpy") = Ok n1
    /\ FXRates_rate fxr_market ("jpy" +:+ "eur") = Ok n2
    /\ num_eq (num_mul n1 n2) (NFloat 1).
Proof.
  apply (rate_reciprocal "usd" dual_solve_gauss market_rates None None fxr_market
           "eur" "jpy").
  - vm_compute. reflexivity.
  - apply sample_elem. reflexivity.
  - apply sample_elem. reflexivity.
  - reflexivity.
  - reflexivity.
Defined.

Lemma rate_same_currency_witness :
  FXRates_rate fxr_market ("jpy" +:+ "jpy") = Ok (NFloat 1).
Proof.
  apply (rate_same_currency "usd" dual_solve_gauss market_rates None None fxr_market "jpy").
  - vm_compute. reflexivity.
  - apply sample_elem. reflexivity.
  - reflexivity.
Defined.

Lemma convert_known_witness :
  exists r,
    FXRates_convert fxr_market (NFloat (qz 100)) "GBP" (Some "JPY") "raise"
      = Ok (Some (num_mul (NFloat (qz 100)) r), [])
    /\ (String.length "GBP" = 3%nat -> FXRates_rate fxr_market ("GBP" +:+ lower "JPY") = Ok r).
Proof.
  apply (convert_known "usd" dual_solve_gauss market_rates None None fxr_market
           (NFloat (qz 100)) "GBP" (Some "JPY") "raise").
  - vm_compute. reflexivity.
  - apply sample_elem. reflexivity.
  - apply sample_elem. reflexivity.
Defined.

Lemma convert_same_currency_witness :
  exists r,
    FXRates_convert fxr_market value_usdnok "Eur" (Some "Eur") "warn" = Ok (Some r, [])
    /\ num_eq r value_usdnok.
Proof.
  apply (convert_same_currency "usd" dual_solve_gauss market_rates None None fxr_market
           value_usdnok "Eur" "warn").
  - vm_compute. reflexivity.
  - apply sample_elem. reflexivity.
Defined.

(** ** The first currency is the numeraire of the solved vector *)

Section Numeraire.
Variable base_currency : string.
Variable dual_solve : matrix -> vector -> option vector.
Hypothesis dual_solve_spec : forall A b x, dual_solve A b = Some x -> solves A x b.

Local Abbreviation init := (FXRates_init base_currency dual_solve).

Lemma init_first_row fx s b f :
  init fx s b = Ok f ->
  exists A rhs,
    dual_solve A rhs = Some (fx_vector f)
    /\ A !! 0%nat = Some (<[0%nat:=NFloat 1]> (replicate (q f) (NFloat 0)))
    /\ rhs !! 0%nat = Some (NFloat 1).
Proof.
  intros H. pose proof (init_q_ge_2 _ _ _ _ _ _ H) as Hq2.
  apply init_inv in H
    as (_ & _ & _ & _ & Hq & _ & _ & A0 & [A rhs] & HA0 & Hloop & Hsolve & _).
  exists A, rhs. split; [done|]. rewrite Hq in *.
  set (n := length (find_currencies (dict_keys (stored_rates fx)))) in *.
  pose proof HA0 as HA0'. apply mat_set_Ok in HA0' as (row0 & Hrow0 & _ & ->).
  unfold np_zeros2 in Hrow0. apply lookup_replicate in Hrow0 as [-> _].
  unfold enumerate in Hloop. apply system_loop with (n := n) in Hloop as [Hkeep _].
  - destruct (Hkeep 0%nat (Nat.le_refl _)) as [-> ->]. split.
    + apply list_lookup_insert_eq. unfold np_zeros2. rewrite length_replicate. lia.
    + apply lookup_replicate. split; [done|lia].
  - intros r row Hr Hrow. rewrite list_lookup_insert_ne in Hrow by lia.
    unfold np_zeros2 in Hrow. by apply lookup_replicate in Hrow as [-> _].
Qed.

(** X5: the solved vector holds the rates out of the first currency: its first
    entry is 1 as a dual, and row 0 of the cross-rate array is the vector. *)
Theorem first_currency_numeraire fx s b f :
  init fx s b = Ok f ->
  exists x0,
    fx_vector f !! 0%nat = Some x0
    /\ num_eq x0 (NFloat 1)
    /\ forall j, (j < q f)%nat ->
         exists xj n,
           fx_vector f !! j = Some xj
           /\ mat_get (fx_array f) 0 j = Ok n
           /\ num_eq n xj.
Proof.
  intros H. pose proof (init_q_ge_2 _ _ _ _ _ _ H) as Hq2.
  destruct (init_first_row _ _ _ _ H) as (A & rhs & Hsolve & Hrow & Hrhs).
  apply dual_solve_spec in Hsolve as [_ Hsolve].
  specialize (Hsolve _ _ _ Hrow Hrhs) as [Hval Hgrad].
  destruct (init_entry_sem _ _ _ _ _ _ 0%nat 0%nat H ltac:(lia) ltac:(lia))
    as (_ & x0 & _ & _ & Hx0 & _ & Hz0 & _).
  assert (Hx0' : (to_float <$> fx_vector f) !! 0%nat = Some (to_float x0))
    by by rewrite list_lookup_fmap, Hx0.
  rewrite to_float_dot in Hval. change (to_float (NFloat 1)) with 1 in Hval.
  change map with (@fmap list _) in Hval.
  rewrite list_fmap_insert, fmap_replicate in Hval.
  change (to_float (NFloat 1)) with 1 in Hval.
  change (to_float (NFloat 0)) with 0 in Hval.
  rewrite (qdot_insert _ _ 0%nat _ 0 (to_float x0)) in Hval; [| |done].
  2:{ apply lookup_replicate. split; [done|lia]. }
  rewrite qdot_replicate_0 in Hval.
  assert (Hv0 : to_float x0 = 1) by (rewrite <- Hval; ring).
  assert (Hg0 : forall v, ngrad x0 v = 0).
  { intros v. specialize (Hgrad v). rewrite ngrad_dot in Hgrad.
    change (ngrad (NFloat 1) v) with 0 in Hgrad.
    change map with (@fmap list _) in Hgrad.
    rewrite !list_fmap_insert, !fmap_replicate in Hgrad.
    change (to_float (NFloat 1)) with 1 in Hgrad.
    change (to_float (NFloat 0)) with 0 in Hgrad.
    change (ngrad (NFloat 1) v) with 0 in Hgrad.
    change (ngrad (NFloat 0) v) with 0 in Hgrad.
    assert (Hgx : ((fun n => ngrad n v) <$> fx_vector f) !! 0%nat = Some (ngrad x0 v))
      by by rewrite list_lookup_fmap, Hx0.
    rewrite (qdot_insert _ _ 0%nat _ 0 (to_float x0)) in Hgrad; [| |done].
    2:{ apply lookup_replicate. split; [done|lia]. }
    rewrite (qdot_insert _ _ 0%nat _ 0 (ngrad x0 v)) in Hgrad; [| |done].
    2:{ apply lookup_replicate. split; [done|lia]. }
    rewrite !qdot_replicate_0 in Hgrad. rewrite <- Hgrad. ring. }
  exists x0. split; [done|]. split.
  { split; [done|]. intros v. by rewrite Hg0, ngrad_float. }
  intros j Hj.
  destruct (init_entry_sem _ _ _ _ _ _ 0%nat j H ltac:(lia) Hj)
    as (n & x0' & xj & Hn & Hx0'' & Hxj & _ & _ & Hnv & Hng).
  replace x0' with x0 in * by congruence.
  exists xj, n. repeat split; try done.
  - rewrite Hnv, Hv0. field. discriminate.
  - intros v. rewrite Hng, Hg0, Hv0. field. discriminate.
Qed.
End Numeraire.

Lemma first_currency_numeraire_witness :
  exists x0,
    fx_vector fxr_market !! 0%nat = Some x0
    /\ num_eq x0 (NFloat 1)
    /\ forall j, (j < q fxr_market)%nat ->
         exists xj n,
           fx_vector fxr_market !! j = Some xj
           /\ mat_get (fx_array fxr_market) 0 j = Ok n
           /\ num_eq n xj.
Proof.
  apply (first_currency_numeraire "usd" dual_solve_gauss dual_solve_gauss_spec
           market_rates None None fxr_market).
  vm_compute. reflexivity.
Defined.

(** ** Constructing again from the stored state: [copy] and [restate] *)

Lemma fold_dict_set_NoDup {V} (items acc : list (string * V)) :
  NoDup (dict_keys acc) ->
  NoDup (dict_keys (fold_left (fun d kv => dict_set d (fst kv) (snd kv)) items acc)).
Proof.
  revert acc. induction items as [|[k v] items IH]; intros acc Hnd; simpl; [done|].
  apply IH. rewrite dict_keys_set.
  destruct (str_in k (dict_keys acc)) eqn:E; [done|].
  apply str_in_false in E. apply list.NoDup_app. split; [done|]. split.
  - intros x Hx Hk. apply list_elem_of_singleton in Hk. by subst.
  - apply NoDup_cons_2; [apply not_elem_of_nil | apply NoDup_nil_2].
Qed.

Lemma dict_of_items_NoDup {V} (items : list (string * V)) :
  NoDup (dict_keys (dict_of_items items)).
Proof. apply fold_dict_set_NoDup, NoDup_nil_2. Qed.

Lemma map_id_on {A} (g : A -> A) (l : list A) :
  (forall a, a ∈ l -> g a = a) -> map g l = l.
Proof.
  induction l as [|a l IH]; intros H; simpl; [done|].
  rewrite H by (apply elem_of_cons; by left).
  rewrite IH; [done|]. intros b Hb. apply H, elem_of_cons. by right.
Qed.

Lemma stored_again fx :
  stored_rates (map (fun kd => (fst kd, NDual (snd kd))) (stored_rates fx))
  = stored_rates fx.
Proof.
  unfold stored_rates at 1. rewrite map_map. simpl.
  rewrite (map_id_on _ (stored_rates fx)).
  - apply dict_of_items_nodup. unfold stored_rates. apply dict_of_items_NoDup.
  - intros [k d] Hkd. simpl. f_equal. apply (stored_pairs_lower fx).
    unfold dict_keys. apply list_elem_of_fmap. by exists (k, d).
Qed.

Section Again.
Variable base_currency : string.
Variable dual_solve : matrix -> vector -> option vector.

Local Abbreviation init := (FXRates_init base_currency dual_solve).

Lemma init_ext fx1 fx2 s b :
  stored_rates fx1 = stored_rates fx2 -> init fx1 s b = init fx2 s b.
Proof. intros H. unfold FXRates_init. fold (stored_rates fx1) (stored_rates fx2). by rewrite H. Qed.

Lemma init_pairs_NoDup fx s b f : init fx s b = Ok f -> NoDup (pairs f).
Proof.
  intros H. apply init_inv in H as (_ & -> & _). apply dict_of_items_NoDup.
Qed.

Lemma init_base fx s b f :
  init fx s b = Ok f ->
  lower (base f) = base f /\ init fx s (Some (base f)) = Ok f.
Proof.
  intros H. pose proof H as H0. unfold FXRates_init in H.
  fold (stored_rates fx) in H.
  set (ps := dict_keys (stored_rates fx)) in *.
  rewrite currencies_enumerate in H. fold (index_map ps) in H.
  assert (Hk : dict_keys (index_map ps) = find_currencies ps) by apply enumerate_keys.
  rewrite Hk in H. inv_bind H.
  assert (Hlow : lower a = a).
  { destruct b as [b|].
    - injection Ha as <-. apply lower_idemp.
    - assert (Hin : a ∈ find_currencies ps).
      { destruct (str_in base_currency (find_currencies ps)) eqn:E.
        - injection Ha as <-. by apply str_in_true.
        - apply of_option_Ok in Ha. eapply list_elem_of_lookup_2; eauto. }
      eapply find_currencies_lower; [|exact Hin]. apply stored_pairs_lower. }
  assert (Hb : base f = a).
  { destruct (Z.of_nat _ - 1 <? _)%Z; [discriminate|].
    destruct (_ <? _)%Z; [discriminate|].
    inv_bind H. inv_bind H. inv_bind H. inv_bind H. by injection H as <-. }
  rewrite Hb. split; [done|].
  unfold FXRates_init. fold (stored_rates fx). fold ps.
  rewrite currencies_enumerate. fold (index_map ps). rewrite Hk.
  cbn [mbind result_bind]. rewrite Hlow. exact H.
Qed.

Lemma init_stored_again fx s b f :
  init fx s b = Ok f ->
  init (map (fun kd => (fst kd, NDual (snd kd))) (fx_rates f)) (settlement f)
    (Some (base f)) = Ok f.
Proof.
  intros H.
  pose proof (init_inv _ _ _ _ _ _ H) as (Hfr & _ & _ & _ & _ & Hs & _).
  rewrite Hfr, Hs. rewrite (init_ext _ fx) by apply stored_again.
  by apply init_base in H as [_ H].
Qed.

(** X6: [copy] of a constructed object is the object: every attribute, the
    automatic-differentiation content of the rates included, is as before. *)
Theorem copy_unchanged fx s b f :
  init fx s b = Ok f -> FXRates_copy base_currency dual_solve f = Ok f.
Proof.
  intros H. unfold FXRates_copy.
  pose proof (init_inv _ _ _ _ _ _ H) as (Hfr & _ & _ & _ & _ & Hs & _).
  rewrite Hfr, Hs. rewrite (init_ext _ fx) by apply stored_again.
  by apply init_base in H as [_ H].
Qed.

(** X7: [restate] onto the pairs the object already has, in any order and with
    repetitions, keeping the derivatives, returns the object as it is. *)
Theorem restate_same_pairs fx s b f (ps : list string) :
  init fx s b = Ok f -> set_eqb ps (pairs f) = true ->
  FXRates_restate base_currency dual_solve f ps true = Ok f.
Proof.
  intros H Hps. unfold FXRates_restate. rewrite Hps. cbn [andb].
  unfold FXRates_copy. by apply init_stored_again in H.
Qed.
End Again.

Lemma copy_unchanged_witness :
  FXRates_copy "usd" dual_solve_gauss fxr_market = Ok fxr_market.
Proof.
  apply (copy_unchanged "usd" dual_solve_gauss market_rates None None fxr_market).
  vm_compute. reflexivity.
Defined.

Lemma restate_same_pairs_witness :
  FXRates_restate "usd" dual_solve_gauss fxr_market
    ["usdjpy"; "eurusd"; "gbpusd"; "eurusd"] true = Ok fxr_market.
Proof.
  apply (restate_same_pairs "usd" dual_solve_gauss market_rates None None fxr_market).
  - vm_compute. reflexivity.
  - reflexivity.
Defined.

(** ** The rates of a restated and of an updated object *)

Lemma dict_of_items_elem {V} (items : list (string * V)) kv :
  kv ∈ dict_of_items items -> kv ∈ items.
Proof.
  destruct kv as [k v]. intros H. apply dict_of_items_get.
  apply dict_get_nodup; [apply dict_of_items_NoDup | done].
Qed.

Lemma Forall2_elem_l {A B} (P : A -> B -> Prop) l k a :
  Forall2 P l k -> a ∈ l -> exists b, b ∈ k /\ P a b.
Proof.
  induction 1 as [|x y l k Hxy _ IH]; intros Ha.
  - by apply elem_of_nil in Ha.
  - apply elem_of_cons in Ha as [->|Ha].
    + exists y. split; [apply elem_of_cons; by left | done].
    + destruct (IH Ha) as (b & Hb & HP). exists b. split; [|done].
      apply elem_of_cons. by right.
Qed.

Lemma Forall2_elem_r {A B} (P : A -> B -> Prop) l k b :
  Forall2 P l k -> b ∈ k -> exists a, a ∈ l /\ P a b.
Proof.
  induction 1 as [|x y l k Hxy _ IH]; intros Hb.
  - by apply elem_of_nil in Hb.
  - apply elem_of_cons in Hb as [->|Hb].
    + exists x. split; [apply elem_of_cons; by left | done].
    + destruct (IH Hb) as (a & Ha & HP). exists a. split; [|done].
      apply elem_of_cons. by right.
Qed.

Section Rebuilt.
Variable base_currency : string.
Variable dual_solve : matrix -> vector -> option vector.
Hypothesis dual_solve_spec : forall A b x, dual_solve A b = Some x -> solves A x b.

Local Abbreviation init := (FXRates_init base_currency dual_solve).
Local Abbreviation restate := (FXRates_restate base_currency dual_solve).
Local Abbreviation update := (FXRates_update base_currency dual_solve).

(** The rate of an input pair is the rate it is stored with, when the keys
    that agree in lowercase carry the same rate. *)
Lemma rate_of_item fx s b g (k : string) (v : Number) :
  init fx s b = Ok g ->
  (forall kv kv', kv ∈ fx -> kv' ∈ fx -> lower (fst kv) = lower (fst kv') ->
     convert_dual (fst kv) (snd kv) = convert_dual (fst kv') (snd kv')) ->
  (k, v) ∈ fx ->
  exists n, FXRates_rate g k = Ok n /\ num_eq n (NDual (convert_dual k v)).
Proof.
  intros H Hcons Hin.
  pose proof (init_inv _ _ _ _ _ _ H) as (Hfr & Hps & _).
  assert (Hp : lower k ∈ pairs g).
  { rewrite Hps. unfold stored_rates. apply dict_of_items_keys.
    rewrite map_map. simpl. apply list_elem_of_fmap. by exists (k, v). }
  destruct (rate_of_pair _ _ dual_solve_spec _ _ _ _ _ H Hp) as (n & rt & Hrt & Hn & Heq).
  exists n. rewrite <- rate_lower. split; [done|].
  rewrite Hfr in Hrt. unfold stored_rates in Hrt. apply dict_of_items_get in Hrt.
  apply list_elem_of_fmap in Hrt as ([k' v'] & [= Hk ->] & Hin').
  pose proof (Hcons (k, v) (k', v') Hin Hin' Hk) as Hc. simpl in Hc. by rewrite Hc.
Qed.

Lemma restate_rate f (ps : list string) (keep_ad : bool) g (p : string) :
  restate f ps keep_ad = Ok g ->
  set_eqb ps (pairs f) && keep_ad = false ->
  p ∈ ps ->
  exists r n,
    FXRates_rate f p = Ok r /\ FXRates_rate g p = Ok n
    /\ num_eq n (NDual (convert_dual p (if keep_ad then r else NFloat (to_float r)))).
Proof.
  intros H Hs Hp. unfold FXRates_restate in H. rewrite Hs in H.
  inv_bind H. apply map_result_Ok in Ha.
  destruct (Forall2_elem_l _ _ _ _ Ha Hp) as (item & Hitem & Hr).
  inv_bind Hr. injection Hr as <-. rename a0 into r.
  assert (Hfun : forall kv, kv ∈ a ->
            exists r', FXRates_rate f (fst kv) = Ok r'
                       /\ snd kv = if keep_ad then r' else NFloat (to_float r')).
  { intros kv Hkv. destruct (Forall2_elem_r _ _ _ _ Ha Hkv) as (p' & _ & Hr').
    inv_bind Hr'. injection Hr' as <-. simpl. eauto. }
  assert (Hcons : forall kv kv', kv ∈ a -> kv' ∈ a -> lower (fst kv) = lower (fst kv') ->
            convert_dual (fst kv) (snd kv) = convert_dual (fst kv') (snd kv')).
  { intros kv kv' Hkv Hkv' Hl.
    destruct (Hfun _ Hkv) as (r1 & Hr1 & ->). destruct (Hfun _ Hkv') as (r2 & Hr2 & ->).
    rewrite <- rate_lower, Hl, rate_lower, Hr2 in Hr1. injection Hr1 as <-.
    destruct (if keep_ad then r2 else NFloat (to_float r2)); simpl; [by rewrite Hl | done]. }
  assert (Hk : p ∈ dict_keys (dict_of_items a)).
  { apply dict_of_items_keys. apply list_elem_of_fmap.
    by exists (p, if keep_ad then r else NFloat (to_float r)). }
  apply dict_get_is_Some in Hk as (v' & Hv'). apply dict_get_Some_elem in Hv'.
  destruct (rate_of_item _ _ _ _ p v' H) as (n & Hn & Heq); [|done|].
  { intros kv kv' Hkv Hkv'. apply Hcons; by apply dict_of_items_elem. }
  exists r, n. split; [done|]. split; [done|].
  apply dict_of_items_elem in Hv'.
  pose proof (Hcons _ _ Hitem Hv' eq_refl) as Hc. simpl in Hc. by rewrite Hc.
Qed.

(** X8: [restate] without [keep_ad]: the rate of every new pair has the value it
    had in the old object, and is a variable of its own, with derivative 1
    with respect to [fx_<pair>] and 0 with respect to anything else. *)
Theorem restate_resets_ad f (ps : list string) g (p : string) :
  restate f ps false = Ok g -> p ∈ ps ->
  exists r n,
    FXRates_rate f p = Ok r /\ FXRates_rate g p = Ok n
    /\ to_float n = to_float r
    /\ ngrad n ("fx_" +:+ lower p) = 1
    /\ forall v, v <> "fx_" +:+ lower p -> ngrad n v = 0.
Proof.
  intros H Hp.
  destruct (restate_rate _ _ _ _ _ H (andb_false_r _) Hp) as (r & n & Hr & Hn & Hv & Hg).
  exists r, n. split; [done|]. split; [done|]. simpl in Hv, Hg.
  split; [exact Hv|]. split.
  - rewrite Hg. change (ngrad (NDual ?d) ?v) with (gradient d v).
    rewrite gradient_dual_var. by rewrite decide_True.
  - intros v Hne. rewrite Hg. change (ngrad (NDual ?d) ?v) with (gradient d v).
    rewrite gradient_dual_var. by rewrite decide_False.
Qed.

(** X9: [restate] with [keep_ad], from a constructed object: the rate of every
    new pair has its old value, and when the old rate is a dual, all of its
    old derivatives. *)
Theorem restate_keeps_ad fx s b f (ps : list string) g (p : string) :
  init fx s b = Ok f ->
  restate f ps true = Ok g -> p ∈ ps ->
  exists r n,
    FXRates_rate f p = Ok r /\ FXRates_rate g p = Ok n
    /\ to_float n = to_float r
    /\ (is_dual r = true -> num_eq n r).
Proof.
  intros Hf H Hp.
  destruct (set_eqb ps (pairs f)) eqn:E.
  - unfold FXRates_restate in H. rewrite E in H. cbn [andb] in H.
    unfold FXRates_copy in H.
    rewrite (init_stored_again _ _ _ _ _ _ Hf) in H. injection H as <-.
    assert (Hpf : p ∈ pairs f).
    { unfold set_eqb in E. apply andb_prop in E as [E _].
      rewrite forallb_forall in E. apply str_in_true, E. by apply list_elem_of_In. }
    destruct (rate_of_pair _ _ dual_solve_spec _ _ _ _ _ Hf Hpf) as (n & _ & _ & Hn & _).
    by exists n, n.
  - destruct (restate_rate _ _ _ _ _ H ltac:(by rewrite E) Hp)
      as (r & n & Hr & Hn & Heq).
    exists r, n. split; [done|]. split; [done|]. split.
    + destruct Heq as [-> _]. by destruct r.
    + intros Hd. destruct r; [discriminate|]. exact Heq.
Qed.

Lemma update_items (self : FXRates) (new_rates : list (string * Number)) items :
  map_result (fun pair =>
          if negb (str_in pair (dict_keys new_rates)) then
            r ← dict_item (fx_rates self) pair; Ok (pair, NFloat (real r))
          else v ← dict_item new_rates pair; Ok (pair, v)) (pairs self) = Ok items ->
  map fst items = pairs self
  /\ forall p v, (p, v) ∈ items ->
       match dict_get new_rates p with
       | Some v' => v = v'
       | None => exists r, dict_get (fx_rates self) p = Some r /\ v = NFloat (real r)
       end.
Proof.
  intros H. apply map_result_Ok in H. split.
  - induction H as [|p item ps its Hp _ IH]; simpl; [done|]. rewrite IH. f_equal.
    destruct (negb _); inv_bind Hp; by injection Hp as <-.
  - intros p v Hin. destruct (Forall2_elem_r _ _ _ _ H Hin) as (p' & _ & Hp).
    destruct (str_in p' (dict_keys new_rates)) eqn:E; simpl in Hp.
    + inv_bind Hp. injection Hp as <- <-. apply dict_item_Ok in Ha. by rewrite Ha.
    + inv_bind Hp. injection Hp as <- <-. apply dict_item_Ok in Ha.
      apply str_in_false, dict_get_None in E. rewrite E. eauto.
Qed.

(** X10: after [update] of a constructed object the rate of each of its pairs is
    the supplied rate where one was supplied (a plain real becoming a
    variable of its own), and otherwise the real part of the old stored rate
    as a fresh variable [fx_<pair>]: its old derivatives are not kept. *)
Theorem update_rates fx s b self ups self' (p : string) :
  init fx s b = Ok self ->
  update self ups = Ok self' ->
  p ∈ pairs self ->
  exists n,
    FXRates_rate self' p = Ok n
    /\ match dict_get (dict_of_items (map (fun kv => (lower (fst kv), snd kv)) ups)) p with
       | Some v => num_eq n (NDual (convert_dual p v))
       | None =>
           exists r, dict_get (fx_rates self) p = Some r
                     /\ num_eq n (NDual (dual_var (real r) ("fx_" +:+ p)))
       end.
Proof.
  intros Hself H Hp.
  apply update_inv in H as (items & new & Hitems & Hnew & ->).
  apply update_items in Hitems as [Hkeys Hvals].
  pose proof (init_pairs_NoDup _ _ _ _ _ _ Hself) as Hnd.
  pose proof (init_inv _ _ _ _ _ _ Hself) as (_ & Hps & Hcur & _).
  assert (Hlow : forall k, k ∈ pairs self -> lower k = k).
  { intros k Hk. rewrite Hps in Hk. by apply stored_pairs_lower in Hk. }
  assert (Hid : dict_of_items items = items).
  { apply dict_of_items_nodup. unfold dict_keys. by rewrite Hkeys. }
  rewrite Hid in Hnew.
  assert (Hml : map (fun kv : string * Number => lower (fst kv)) items = pairs self).
  { rewrite <- Hkeys. apply map_ext_in. intros kv Hkv. apply Hlow.
    rewrite <- Hkeys. apply list_elem_of_fmap. exists kv. split; [done|].
    by apply list_elem_of_In. }
  assert (Hst : dict_keys (stored_rates items) = pairs self).
  { unfold stored_rates. rewrite dict_of_items_nodup.
    - unfold dict_keys. rewrite map_map. exact Hml.
    - unfold dict_keys. rewrite map_map. simpl. by rewrite Hml. }
  assert (Hcn : currencies new = currencies self).
  { pose proof (init_inv _ _ _ _ _ _ Hnew) as (_ & _ & Hc & _).
    rewrite Hc, Hst, Hcur. by rewrite <- Hps. }
  assert (Hin : exists v, (p, v) ∈ items).
  { rewrite <- Hkeys in Hp. apply list_elem_of_fmap in Hp as ([k v] & -> & Hin). eauto. }
  destruct Hin as (v & Hin).
  destruct (rate_of_item _ _ _ _ p v Hnew) as (n & Hn & Heq); [|done|].
  { intros [k1 v1] [k2 v2] H1 H2 Hl. simpl in *.
    assert (k1 = k2) as <-.
    { rewrite <- (Hlow k1), <- (Hlow k2), Hl; [done| |].
      - rewrite <- Hkeys. apply list_elem_of_fmap. by exists (k2, v2).
      - rewrite <- Hkeys. apply list_elem_of_fmap. by exists (k1, v1). }
    assert (Hg : forall w, (k1, w) ∈ items -> dict_get items k1 = Some w).
    { intros w Hw. apply dict_get_nodup; [|done]. unfold dict_keys. by rewrite Hkeys. }
    rewrite (Hg _ H1) in Hg. specialize (Hg _ H2). by injection Hg as ->. }
  exists n. split.
  { unfold FXRates_rate in *. simpl. by rewrite <- Hcn. }
  specialize (Hvals _ _ Hin).
  destruct (dict_get _ p) as [v'|].
  - by subst.
  - destruct Hvals as (r & Hr & ->). exists r. split; [done|].
    simpl in Heq. by rewrite (Hlow p Hp) in Heq.
Qed.
End Rebuilt.

Lemma restate_resets_ad_witness :
  exists r n,
    FXRates_rate fxr_market "gbpjpy" = Ok r /\ FXRates_rate fxr_restated "gbpjpy" = Ok n
    /\ to_float n = to_float r
    /\ ngrad n ("fx_" +:+ lower "gbpjpy") = 1
    /\ forall v, v <> "fx_" +:+ lower "gbpjpy" -> ngrad n v = 0.
Proof.
  apply (restate_resets_ad "usd" dual_solve_gauss dual_solve_gauss_spec fxr_market
           ["eurgbp"; "gbpjpy"; "usdjpy"] fxr_restated "gbpjpy").
  - vm_compute. reflexivity.
  - apply sample_elem. reflexivity.
Defined.

Lemma restate_keeps_ad_witness :
  exists r n,
    FXRates_rate fxr_market "gbpjpy" = Ok r /\ FXRates_rate fxr_restated_ad "gbpjpy" = Ok n
    /\ to_float n = to_float r
    /\ (is_dual r = true -> num_eq n r).
Proof.
  apply (restate_keeps_ad "usd" dual_solve_gauss dual_solve_gauss_spec market_rates
           None None fxr_market ["eurgbp"; "gbpjpy"; "usdjpy"] fxr_restated_ad "gbpjpy").
  - vm_compute. reflexivity.
  - vm_compute. reflexivity.
  - apply sample_elem. reflexivity.
Defined.

Lemma update_rates_witness :
  exists n,
    FXRates_rate fxr_eurnok_updated "eurnok" = Ok n
    /\ match dict_get (dict_of_items
                         (map (fun kv => (lower (fst kv), snd kv)) usdeur_update)) "eurnok" with
       | Some v => num_eq n (NDual (convert_dual "eurnok" v))
       | None =>
           exists r, dict_get (fx_rates fxr_eurnok) "eurnok" = Some r
                     /\ num_eq n (NDual (dual_var (real r) ("fx_" +:+ "eurnok")))
       end.
Proof.
  apply (update_rates "usd" dual_solve_gauss dual_solve_gauss_spec eurnok_rates None None
           fxr_eurnok usdeur_update fxr_eurnok_updated "eurnok").
  - vm_compute. reflexivity.
  - vm_compute. reflexivity.
  - apply sample_elem. reflexivity.
Defined.

(** ** The table of rates and the conversion of positions *)

Section Table.
Variable base_currency : string.
Variable dual_solve : matrix -> vector -> option vector.

Local Abbreviation init := (FXRates_init base_currency dual_solve).

Lemma init_list_index fx s b f i c :
  init fx s b = Ok f ->
  (currencies_list f !! i = Some c <-> dict_get (currencies f) c = Some i).
Proof.
  intros H. apply init_inv in H as (_ & _ & -> & -> & _).
  apply enumerate_lookup, find_currencies_NoDup.
Qed.

Lemma init_list_length fx s b f : init fx s b = Ok f -> length (currencies_list f) = q f.
Proof. intros H. by apply init_inv in H as (_ & _ & _ & -> & -> & _). Qed.

Lemma rate_at fx s b f i j (ca cb : string) :
  init fx s b = Ok f ->
  currencies_list f !! i = Some ca -> currencies_list f !! j = Some cb ->
  String.length ca = 3%nat ->
  FXRates_rate f (ca +:+ cb) = mat_get (fx_array f) i j.
Proof.
  intros H Hi Hj La.
  assert (Ha : ca ∈ currencies_list f) by (eapply list_elem_of_lookup_2; eauto).
  assert (Hb : cb ∈ currencies_list f) by (eapply list_elem_of_lookup_2; eauto).
  destruct (init_currency _ _ _ _ _ _ _ H Ha) as (Hla & _).
  destruct (init_currency _ _ _ _ _ _ _ H Hb) as (Hlb & _).
  apply (init_list_index _ _ _ _ _ _ H) in Hi, Hj.
  unfold FXRates_rate. rewrite str_take_app, str_drop_app by done.
  rewrite Hla, Hlb. unfold dict_item. by rewrite Hi, Hj.
Qed.

(** X11: the table of rates is square over the currencies of the object, and its
    entry in the row of one currency and the column of another is the value
    of the rate of that pair. *)
Theorem rates_table_rates fx s b f :
  init fx s b = Ok f ->
  let t := FXRates_rates_table f in
  has_shape (length (df_index t)) (df_data t)
  /\ df_columns t = df_index t
  /\ forall i j ca cb,
       df_index t !! i = Some ca -> df_columns t !! j = Some cb ->
       String.length ca = 3%nat ->
       exists n,
         FXRates_rate f (ca +:+ cb) = Ok n
         /\ mat_get (df_data t) i j = Ok (to_float n).
Proof.
  intros H t. unfold t, FXRates_rates_table. simpl.
  pose proof (init_array _ _ _ _ _ _ H) as ([Hlen Hrows] & _).
  rewrite (init_list_length _ _ _ _ H). split; [|split; [done|]].
  - split; [by rewrite length_map|].
    apply Forall_forall. intros row Hrow. apply in_map_iff in Hrow as (r & <- & Hr).
    rewrite length_map. rewrite Forall_forall in Hrows. by apply Hrows.
  - intros i j ca cb Hi Hj La. rewrite (rate_at _ _ _ _ _ _ _ _ H Hi Hj La).
    assert (Hiq : (i < q f)%nat).
    { rewrite <- (init_list_length _ _ _ _ H). eapply lookup_lt_Some; eauto. }
    assert (Hjq : (j < q f)%nat).
    { rewrite <- (init_list_length _ _ _ _ H). eapply lookup_lt_Some; eauto. }
    destruct (mat_get_shape (q f) (fx_array f) i j) as (n & Hn); [done|done|done|].
    exists n. split; [done|].
    unfold mat_get, vec_get in *.
    change map with (@fmap list _). rewrite list_lookup_fmap.
    destruct (fx_array f !! i) as [row|]; [|discriminate]. simpl in *.
    rewrite list_lookup_fmap. destruct (row !! j) as [a|]; [|discriminate].
    simpl in *. by injection Hn as ->.
Qed.

(** X12: [convert_positions] of one amount per currency is the sum of the amounts,
    each times the rate from its currency into the base. *)
Theorem convert_positions_sum fx s b f (array : list Qc) (base_ : option string) :
  init fx s b = Ok f ->
  (forall c, c ∈ currencies_list f -> String.length c = 3%nat) ->
  length array = q f ->
  match base_ with None => base f | Some c => lower c end ∈ currencies_list f ->
  exists col,
    Forall2 (fun c n =>
               FXRates_rate f (c +:+ match base_ with
                                     | None => base f
                                     | Some c' => lower c'
                                     end) = Ok n) (currencies_list f) col
    /\ FXRates_convert_positions f array base_
       = Ok (np_sum (zip_with (fun a n => num_mul (NFloat a) n) array col)).
Proof.
  intros H Hlen3 Hlen Hb.
  set (bs := match base_ with None => base f | Some c => lower c end) in *.
  destruct (init_currency _ _ _ _ _ _ _ H Hb) as (_ & j & Hj & Hjq).
  pose proof (init_array _ _ _ _ _ _ H) as (Hsh & _).
  destruct (mat_col_defined _ _ _ Hsh Hjq) as (col & Hcol).
  pose proof (mat_col_lookup _ _ _ Hcol) as [Hcl Hget].
  destruct Hsh as [Hrows _]. rewrite Hrows in Hcl.
  exists col. split.
  - apply Forall2_same_length_lookup. split.
    + by rewrite (init_list_length _ _ _ _ H).
    + intros i c n Hc Hn.
      rewrite (rate_at _ _ _ _ i j _ _ H Hc); [by apply Hget| |].
      * by apply (init_list_index _ _ _ _ _ _ H).
      * apply Hlen3. eapply list_elem_of_lookup_2; eauto.
  - unfold FXRates_convert_positions. fold bs. unfold dict_item. rewrite Hj.
    cbn [of_option mbind result_bind]. rewrite Hcol. cbn [mbind result_bind].
    unfold np_mul. rewrite Hlen, Hcl, Nat.eqb_refl. done.
Qed.
End Table.

Lemma rates_table_rates_witness :
  let t := FXRates_rates_table fxr_market in
  has_shape (length (df_index t)) (df_data t)
  /\ df_columns t = df_index t
  /\ forall i j ca cb,
       df_index t !! i = Some ca -> df_columns t !! j = Some cb ->
       String.length ca = 3%nat ->
       exists n,
         FXRates_rate fxr_market (ca +:+ cb) = Ok n
         /\ mat_get (df_data t) i j = Ok (to_float n).
Proof.
  apply (rates_table_rates "usd" dual_solve_gauss market_rates None None fxr_market).
  vm_compute. reflexivity.
Defined.

Lemma convert_positions_sum_witness :
  exists col,
    Forall2 (fun c n => FXRates_rate fxr_market (c +:+ lower "JPY") = Ok n)
      (currencies_list fxr_market) col
    /\ FXRates_convert_positions fxr_market [qz 100; qz 0; qz (-110); qz 5] (Some "JPY")
       = Ok (np_sum (zip_with (fun a n => num_mul (NFloat a) n)
                       [qz 100; qz 0; qz (-110); qz 5] col)).
Proof.
  apply (convert_positions_sum "usd" dual_solve_gauss market_rates None None fxr_market
           [qz 100; qz 0; qz (-110); qz 5] (Some "JPY")).
  - vm_compute. reflexivity.
  - intros c Hc. apply list_elem_of_In in Hc. simpl in Hc.
    repeat (destruct Hc as [<-|Hc]; [reflexivity|]). destruct Hc.
  - reflexivity.
  - apply sample_elem. reflexivity.
Defined.

(** ** The cash positions of a delta *)

Section Delta.
Variable base_currency : string.
Variable dual_solve : matrix -> vector -> option vector.
Hypothesis dual_solve_spec : forall A b x, dual_solve A b = Some x -> solves A x b.

Local Abbreviation init := (FXRates_init base_currency dual_solve).

(** X13: the two cash positions that stand for a delta to the rate of a pair are
    worth nothing in the base currency, and their value has the delta as its
    sensitivity: [delta] times the derivative of the stored rate. *)
Theorem delta_positions_neutral fx s b f (delta : Qc) (p bs : string) :
  init fx s b = Ok f ->
  p ∈ pairs f -> bs ∈ currencies_list f ->
  exists pos r rt,
    FXRates_get_positions_from_delta f delta p bs = Ok pos
    /\ FXRates_convert_positions f pos (Some bs) = Ok r
    /\ dict_get (fx_rates f) p = Some rt
    /\ to_float r = 0
    /\ forall v, ngrad r v = delta * gradient rt v.
Proof.
  intros H Hp Hb.
  destruct (init_currency _ _ _ _ _ _ _ H Hb) as (Hlow & ib & Hib & Hibq).
  pose proof (init_array _ _ _ _ _ _ H) as (Hshape & _).
  destruct (mat_col_defined _ _ ib Hshape Hibq) as (col & Hcol).
  destruct (positions_from_delta _ _ dual_solve_spec _ _ _ _ delta _ _ _ _ H Hp Hib Hcol)
    as (pos & rt & Hpos & Hlen & Hrt & Hval & Hgrad).
  pose proof (mat_col_lookup _ _ _ Hcol) as [Hlcol _].
  destruct Hshape as [Hrows _].
  exists pos, (np_sum (zip_with (fun a c => num_mul (NFloat a) c) pos col)), rt.
  split; [done|]. split.
  { unfold FXRates_convert_positions. rewrite Hlow. unfold dict_item. rewrite Hib.
    cbn [of_option mbind result_bind]. rewrite Hcol. cbn [mbind result_bind].
    unfold np_mul. replace (length pos =? length col)%nat with true; [done|].
    symmetry. apply Nat.eqb_eq. lia. }
  split; [done|]. split.
  - by rewrite qdot_floats.
  - intros v. by rewrite qdot_grads.
Qed.
End Delta.

Lemma delta_positions_neutral_witness :
  exists pos r rt,
    FXRates_get_positions_from_delta fxr_market (qz 1000) "gbpusd" "jpy" = Ok pos
    /\ FXRates_convert_positions fxr_market pos (Some "jpy") = Ok r
    /\ dict_get (fx_rates fxr_market) "gbpusd" = Some rt
    /\ to_float r = 0
    /\ forall v, ngrad r v = qz 1000 * gradient rt v.
Proof.
  apply (delta_positions_neutral "usd" dual_solve_gauss dual_solve_gauss_spec
           market_rates None None fxr_market (qz 1000) "gbpusd" "jpy").
  - vm_compute. reflexivity.
  - apply sample_elem. reflexivity.
  - apply sample_elem. reflexivity.
Defined.

(** ** Positions with a base that is not known, or of the wrong length *)

Section PositionErrors.
Variable base_currency : string.
Variable dual_solve : matrix -> vector -> option vector.

Local Abbreviation init := (FXRates_init base_currency dual_solve).

Lemma init_unknown fx s b f c :
  init fx s b = Ok f -> c ∉ currencies_list f -> dict_get (currencies f) c = None.
Proof.
  intros H Hc. apply init_inv in H as (_ & _ & Hcur & Hl & _).
  apply dict_get_None. rewrite Hcur. unfold index_map. rewrite enumerate_keys.
  by rewrite <- Hl.
Qed.

(** X14: [positions] in a base that is not a currency of the object: a value with
    no FX sensitivity gives all-zero positions without an error, and a value
    with a variable [fx_...] raises [KeyError] for the base. *)
Theorem positions_unknown_base fx s b f (value : Number) (base_ : option string) :
  init fx s b = Ok f ->
  match base_ with None => base f | Some c => lower c end ∉ currencies_list f ->
  FXRates_positions f value base_
  = if existsb (fun name => String.eqb (str_take 3 name) "fx_") (vars (to_dual value))
    then Raise (KeyError match base_ with None => base f | Some c => lower c end)
    else Ok (replicate (q f) 0).
Proof.
  intros H Hb. set (bs := match base_ with None => base f | Some c => lower c end) in *.
  unfold FXRates_positions. fold bs.
  assert (Hstart : map (fun ccy => if negb (String.eqb ccy bs) then 0
                                   else real (to_dual value)) (currencies_list f)
                   = replicate (q f) 0).
  { rewrite <- (init_list_length _ _ _ _ _ _ H). clear -Hb.
    induction (currencies_list f) as [|c l IH]; simpl; [done|].
    apply not_elem_of_cons in Hb as [Hne Hb]. rewrite IH by done.
    destruct (String.eqb c bs) eqn:E; [|done]. apply String.eqb_eq in E. congruence. }
  rewrite Hstart. generalize (replicate (q f) 0) as acc.
  induction (vars (to_dual value)) as [|name names IH]; intros acc; cbn [fold_result existsb].
  - done.
  - destruct (String.eqb (str_take 3 name) "fx_") eqn:E; cbn [orb].
    + unfold FXRates_get_positions_from_delta, dict_item.
      by rewrite (init_unknown _ _ _ _ _ H Hb).
    + cbn [mbind result_bind]. apply IH.
Qed.

(** X15: [convert_positions] raises [KeyError] for a base that is not known; with
    a known base it raises the broadcasting [ValueError] exactly when the
    array has neither one entry per currency nor a single entry, and returns
    a number otherwise. *)
Theorem convert_positions_errors fx s b f (array : list Qc) (base_ : option string) :
  init fx s b = Ok f ->
  (match base_ with None => base f | Some c => lower c end ∉ currencies_list f ->
   FXRates_convert_positions f array base_
   = Raise (KeyError match base_ with None => base f | Some c => lower c end))
  /\ (match base_ with None => base f | Some c => lower c end ∈ currencies_list f ->
      if decide (length array = q f \/ length array = 1%nat)
      then exists r, FXRates_convert_positions f array base_ = Ok r
      else FXRates_convert_positions f array base_ = Raise (ValueError Broadcast)).
Proof.
  intros H. set (bs := match base_ with None => base f | Some c => lower c end) in *.
  split.
  - intros Hb. unfold FXRates_convert_positions. fold bs. unfold dict_item.
    by rewrite (init_unknown _ _ _ _ _ H Hb).
  - intros Hb.
    destruct (init_currency _ _ _ _ _ _ _ H Hb) as (_ & j & Hj & Hjq).
    pose proof (init_array _ _ _ _ _ _ H) as (Hsh & _).
    pose proof (init_q_ge_2 _ _ _ _ _ _ H) as Hq2.
    destruct (mat_col_defined _ _ _ Hsh Hjq) as (col & Hcol).
    pose proof (mat_col_lookup _ _ _ Hcol) as [Hcl _].
    destruct Hsh as [Hrows _]. rewrite Hrows in Hcl.
    unfold FXRates_convert_positions. fold bs. unfold dict_item. rewrite Hj.
    cbn [of_option mbind result_bind]. rewrite Hcol. cbn [mbind result_bind].
    unfold np_mul. rewrite Hcl.
    destruct (length array =? q f)%nat eqn:E.
    + apply Nat.eqb_eq in E. rewrite decide_True by auto. eauto.
    + apply Nat.eqb_neq in E.
      destruct array as [|a [|a' array]].
      * rewrite decide_False by (simpl; lia).
        destruct col as [|c [|c' col]]; simpl in Hcl; try lia; done.
      * rewrite decide_True by auto. eauto.
      * rewrite decide_False by (simpl in *; lia).
        destruct col as [|c [|c' col]]; simpl in Hcl; try lia; done.
Qed.
End PositionErrors.

Lemma positions_unknown_base_witness :
  FXRates_positions fxr_usdnok value_usdnok (Some "EUR")
  = if existsb (fun name => String.eqb (str_take 3 name) "fx_") (vars (to_dual value_usdnok))
    then Raise (KeyError (lower "EUR"))
    else Ok (replicate (q fxr_usdnok) 0).
Proof.
  apply (positions_unknown_base "usd" dual_solve_gauss usdnok_rates None None fxr_usdnok
           value_usdnok (Some "EUR")).
  - vm_compute. reflexivity.
  - apply str_in_false. reflexivity.
Defined.

Lemma convert_positions_errors_witness :
  (lower "EUR" ∉ currencies_list fxr_usdnok ->
   FXRates_convert_positions fxr_usdnok [qz 1; qz 2; qz 3] (Some "EUR")
   = Raise (KeyError (lower "EUR")))
  /\ (lower "EUR" ∈ currencies_list fxr_usdnok ->
      if decide (length [qz 1; qz 2; qz 3] = q fxr_usdnok
                 \/ length [qz 1; qz 2; qz 3] = 1%nat)
      then exists r, FXRates_convert_positions fxr_usdnok [qz 1; qz 2; qz 3] (Some "EUR")
                     = Ok r
      else FXRates_convert_positions fxr_usdnok [qz 1; qz 2; qz 3] (Some "EUR")
           = Raise (ValueError Broadcast)).
Proof.
  apply (convert_positions_errors "usd" dual_solve_gauss usdnok_rates None None fxr_usdnok
           [qz 1; qz 2; qz 3] (Some "EUR")).
  vm_compute. reflexivity.
Defined.

(** ** The pairs of a constructed and of a restated object *)

Lemma str_take_length n s : (String.length (str_take n s) <= n)%nat.
Proof.
  revert s. induction n as [|n IH]; intros [|c s]; simpl; try lia.
  specialize (IH s). lia.
Qed.

Lemma str_drop_length n s :
  (String.length (str_drop n s) <= 3)%nat -> (String.length s <= n + 3)%nat.
Proof.
  revert s. induction n as [|n IH]; intros [|c s]; simpl; try lia.
  intros H. specialize (IH s H). lia.
Qed.

Section Pairs.
Variable base_currency : string.
Variable dual_solve : matrix -> vector -> option vector.
Hypothesis dual_solve_spec : forall A b x, dual_solve A b = Some x -> solves A x b.

Local Abbreviation init := (FXRates_init base_currency dual_solve).
Local Abbreviation restate := (FXRates_restate base_currency dual_solve).

(** X16: every pair of a constructed object is in lowercase, has at most six
    characters, names two different currencies of the object, and is stored
    with a rate that is not zero. *)
Theorem init_pairs_wellformed fx s b f (p : string) :
  init fx s b = Ok f -> p ∈ pairs f ->
  lower p = p
  /\ (String.length p <= 6)%nat
  /\ str_take 3 p ∈ currencies_list f
  /\ str_drop 3 p ∈ currencies_list f
  /\ str_take 3 p <> str_drop 3 p
  /\ exists rt, dict_get (fx_rates f) p = Some rt /\ real rt <> 0.
Proof.
  intros H Hp. pose proof Hp as Hj. apply list_elem_of_lookup in Hj as (j & Hj).
  destruct (init_pair_solved _ _ dual_solve_spec _ _ _ _ _ _ H Hj)
    as (d & fi & rt & Hd & Hf & Hdq & Hfq & Hne & Hrt & Hzr & _).
  pose proof (init_inv _ _ _ _ _ _ H) as (_ & Hps & Hcur & Hl & _).
  assert (Hin : forall c i, dict_get (currencies f) c = Some i -> c ∈ currencies_list f).
  { intros c i Hc. rewrite Hcur in Hc. rewrite Hl.
    apply enumerate_lookup in Hc; [|apply find_currencies_NoDup].
    eapply list_elem_of_lookup_2; eauto. }
  split. { rewrite Hps in Hp. by apply stored_pairs_lower in Hp. }
  split.
  { apply (str_drop_length 3). pose proof (Hin _ _ Hf) as Hc. rewrite Hl in Hc.
    apply find_currencies_elem in Hc as (p' & _ & [->| ->]).
    - apply str_take_length.
    - unfold str_slice. apply (str_take_length 3). }
  split; [eauto|]. split; [eauto|]. split; [congruence|]. eauto.
Qed.

(** X17: the pairs of a restated object are the requested pairs, in lowercase. *)
Theorem restate_pairs fx s b f (ps : list string) (keep_ad : bool) g :
  init fx s b = Ok f ->
  restate f ps keep_ad = Ok g ->
  forall p, p ∈ pairs g <-> exists p', p' ∈ ps /\ p = lower p'.
Proof.
  intros Hf H p. unfold FXRates_restate in H.
  destruct (set_eqb ps (pairs f) && keep_ad) eqn:E.
  - unfold FXRates_copy in H. rewrite (init_stored_again _ _ _ _ _ _ Hf) in H.
    injection H as <-. apply andb_prop in E as [E _].
    unfold set_eqb in E. apply andb_prop in E as [E1 E2].
    rewrite forallb_forall in E1, E2.
    assert (Hlow : forall k, k ∈ pairs f -> lower k = k).
    { intros k Hk. apply init_inv in Hf as (_ & Hps & _). rewrite Hps in Hk.
      by apply stored_pairs_lower in Hk. }
    split.
    + intros Hp. exists p. split; [|by rewrite Hlow].
      apply str_in_true, E2. by apply list_elem_of_In.
    + intros (p' & Hp' & ->).
      assert (p' ∈ pairs f) by (apply str_in_true, E1; by apply list_elem_of_In).
      by rewrite Hlow.
  - inv_bind H. rename a into items.
    assert (Hkeys : map fst items = ps).
    { apply map_result_Ok in Ha. clear -Ha.
      induction Ha as [|p0 item ps its Hp _ IH]; simpl; [done|]. rewrite IH. f_equal.
      inv_bind Hp. by injection Hp as <-. }
    apply init_inv in H as (_ & -> & _).
    unfold stored_rates. rewrite dict_of_items_keys, map_map. simpl.
    rewrite list_elem_of_fmap. split.
    + intros ([k v] & -> & Hkv). simpl. exists k. split; [|done].
      apply dict_of_items_elem in Hkv. rewrite <- Hkeys.
      apply list_elem_of_fmap. by exists (k, v).
    + intros (p' & Hp' & ->). rewrite <- Hkeys in Hp'.
      assert (Hk : p' ∈ dict_keys (dict_of_items items)) by by apply dict_of_items_keys.
      apply dict_get_is_Some in Hk as (v & Hv). apply dict_get_Some_elem in Hv.
      by exists (p', v).
Qed.
End Pairs.

Lemma init_pairs_wellformed_witness :
  lower "gbpusd" = "gbpusd"
  /\ (String.length "gbpusd" <= 6)%nat
  /\ str_take 3 "gbpusd" ∈ currencies_list fxr_market
  /\ str_drop 3 "gbpusd" ∈ currencies_list fxr_market
  /\ str_take 3 "gbpusd" <> str_drop 3 "gbpusd"
  /\ exists rt, dict_get (fx_rates fxr_market) "gbpusd" = Some rt /\ real rt <> 0.
Proof.
  apply (init_pairs_wellformed "usd" dual_solve_gauss dual_solve_gauss_spec market_rates
           None None fxr_market "gbpusd").
  - vm_compute. reflexivity.
  - apply sample_elem. reflexivity.
Defined.

Lemma restate_pairs_witness :
  FXRates_restate "usd" dual_solve_gauss fxr_market ["eurgbp"; "gbpjpy"; "usdjpy"] false
  = Ok fxr_restated
  /\ forall p, p ∈ pairs fxr_restated <->
               exists p', p' ∈ ["eurgbp"; "gbpjpy"; "usdjpy"] /\ p = lower p'.
Proof.
  split; [vm_compute; reflexivity|].
  apply (restate_pairs "usd" dual_solve_gauss market_rates None None fxr_market
           ["eurgbp"; "gbpjpy"; "usdjpy"] false fxr_restated).
  - vm_compute. reflexivity.
  - vm_compute. reflexivity.
Defined.

(** ** The transformation matrix of [FXForwards] *)

Lemma mat_set_defined {A} n (M : list (list A)) i j a :
  has_shape n M -> (i < n)%nat -> (j < n)%nat -> exists M', mat_set M i j a = Ok M'.
Proof.
  intros [Hl Hr] Hi Hj. unfold mat_set, vec_get.
  destruct (lookup_lt_is_Some_2 M i) as [row Hrow]; [lia|].
  rewrite Hrow. cbn [of_option mbind result_bind].
  eapply Forall_lookup_1 in Hr; eauto.
  rewrite vec_set_lt by lia. cbn [mbind result_bind].
  rewrite vec_set_lt by lia. eauto.
Qed.

Lemma mat_get_bound {A} n (M : list (list A)) i j a :
  has_shape n M -> mat_get M i j = Ok a -> (i < n)%nat /\ (j < n)%nat.
Proof.
  intros [Hl Hr] H. unfold mat_get in H. inv_bind H.
  apply vec_get_Ok in Ha0, H.
  pose proof (lookup_lt_Some _ _ _ Ha0). pose proof (lookup_lt_Some _ _ _ H).
  eapply Forall_lookup_1 in Hr; eauto. lia.
Qed.

Lemma mat_get_replicate {A} n (a b : A) i j :
  mat_get (replicate n (replicate n a)) i j = Ok b -> b = a.
Proof.
  unfold mat_get. intros H. inv_bind H. apply vec_get_Ok in Ha0, H.
  apply lookup_replicate in Ha0 as [-> _]. by apply lookup_replicate in H as [-> _].
Qed.

Lemma elem_of_concat_get {A} (M : list (list A)) t :
  In t (concat M) -> exists i j, mat_get M i j = Ok t.
Proof.
  intros H. apply in_concat in H as (row & Hrow & Ht).
  apply list_elem_of_In, list_elem_of_lookup in Hrow as (i & Hi).
  apply list_elem_of_In, list_elem_of_lookup in Ht as (j & Hj).
  exists i, j. unfold mat_get, vec_get. rewrite Hi. simpl. by rewrite Hj.
Qed.

Lemma qsum_units (l : list Qc) :
  (forall t, In t l -> t = 0 \/ t = 1) ->
  qsum l = Qc_of_Z (Z.of_nat (length (List.filter (fun t => bool_decide (t = 1)) l))).
Proof.
  induction l as [|t l IH]; intros H.
  - symmetry. exact Z2Qc_inj_0.
  - change (qsum (t :: l)) with (t + qsum l).
    rewrite IH by (intros; apply H; by right). cbn [List.filter].
    destruct (H t (or_introl eq_refl)) as [->| ->].
    + rewrite bool_decide_false by discriminate. ring.
    + rewrite bool_decide_true by done. cbn [length].
      rewrite Nat2Z.inj_succ, <- Z.add_1_l, Z2Qc_inj_add, Z2Qc_inj_1. ring.
Qed.

Section Transform.
Variable Curve : Type.
Variable matrix_rank : list (list Qc) -> nat.

Local Abbreviation transform_step cur :=
  (fun (T : list (list Qc)) (kc : string * Curve) =>
     let cash := lower (str_take 3 (fst kc)) in
     let coll := lower (str_drop 3 (fst kc)) in
     match dict_get cur cash, dict_get cur coll with
     | Some cash_idx, Some coll_idx => mat_set T cash_idx coll_idx 1
     | _, _ => Raise (ValueError (UnexpectedCurrency cash coll))
     end).

Local Abbreviation covers cur kc i j :=
  (dict_get cur (lower (str_take 3 (fst kc))) = Some i
   /\ dict_get cur (lower (str_drop 3 (fst kc))) = Some j).

Lemma transform_loop n (cur : list (string * nat)) (curves : list (string * Curve)) :
  forall T0 T,
    fold_result (transform_step cur) curves T0 = Ok T ->
    has_shape n T0 ->
    has_shape n T
    /\ (forall i j, mat_get T i j = Ok 1 <->
          mat_get T0 i j = Ok 1 \/ exists kc, kc ∈ curves /\ covers cur kc i j)
    /\ (forall i j t, mat_get T i j = Ok t -> t = 1 \/ mat_get T0 i j = Ok t).
Proof.
  induction curves as [|kc curves IH]; intros T0 T H Hs; cbn [fold_result] in H.
  - injection H as <-. split; [done|]. split.
    + intros i j. split; [by left|]. intros [?|(kc & Hkc & _)]; [done|].
      by apply elem_of_nil in Hkc.
    + intros i j t Ht. by right.
  - inv_bind H. rename a into T1. cbv beta zeta in Ha. revert Ha.
    destruct (dict_get cur (lower (str_take 3 (fst kc)))) as [ci|] eqn:Ec; [|discriminate].
    destruct (dict_get cur (lower (str_drop 3 (fst kc)))) as [cj|] eqn:Ed; [|discriminate].
    intros Ha.
    pose proof (mat_set_shape _ _ _ _ _ _ Hs Ha) as Hs1.
    destruct (IH _ _ H Hs1) as (HsT & Hone & Hval).
    split; [done|]. split.
    + intros i j. rewrite Hone, (mat_get_set _ _ _ _ _ i j Ha). split.
      * intros [H1|(kc' & Hkc' & Hcov)].
        -- destruct (decide (ci = i /\ cj = j)) as [[<- <-]|_]; [|by left].
           right. exists kc. split; [apply elem_of_cons; by left | done].
        -- right. exists kc'. split; [apply elem_of_cons; by right | done].
      * intros [H1|(kc' & Hkc' & Hcov)].
        -- left. by destruct (decide (ci = i /\ cj = j)).
        -- apply elem_of_cons in Hkc' as [->|Hkc'].
           ++ left. destruct Hcov as [Hi Hj]. rewrite Ec in Hi. rewrite Ed in Hj.
              injection Hi as <-. injection Hj as <-. by rewrite decide_True.
           ++ right. eauto.
    + intros i j t Ht. destruct (Hval _ _ _ Ht) as [->|H1]; [by left|].
      rewrite (mat_get_set _ _ _ _ _ i j Ha) in H1.
      destruct (decide (ci = i /\ cj = j)); [left; congruence | by right].
Qed.

Lemma transform_needs_curves n (cur : list (string * nat)) T :
  get_forwards_transformation_matrix Curve matrix_rank n cur [] = Ok T -> False.
Proof.
  unfold get_forwards_transformation_matrix. cbn [fold_result mbind result_bind].
  intros H.
  destruct (decide (_ < _)) as [|Hle1]; [discriminate|].
  destruct (decide (_ < _)) as [|Hle2]; [discriminate|].
  assert (Hsum : foldr Qcplus 0 (concat (replicate n (replicate n 0))) = Qc_of_Z 0).
  { change (foldr Qcplus 0) with qsum. rewrite qsum_units.
    - f_equal. destruct (List.filter _ _) as [|t l] eqn:E; [done|].
      assert (Ht : In t (List.filter (fun t : Qc => bool_decide (t = 1))
                           (concat (replicate n (replicate n 0)))))
        by (rewrite E; by left).
      apply filter_In in Ht as [Ht H1]. apply bool_decide_eq_true in H1. subst.
      apply elem_of_concat_get in Ht as (i & j & Ht). by apply mat_get_replicate in Ht.
    - intros t Ht. apply elem_of_concat_get in Ht as (i & j & Ht).
      left. by apply mat_get_replicate in Ht. }
  rewrite Hsum in Hle1, Hle2.
  assert (Heq : Qc_of_Z (2 * Z.of_nat n - 1) = Qc_of_Z 0)
    by (apply Qcle_antisym; by apply Qcnot_lt_le).
  apply Z2Qc_inj in Heq. lia.
Qed.

(** X18: a transformation matrix that is returned is square of size [q], holds
    only zeros and ones, has a one exactly at the (cash, collateral) index
    pairs of the curve keys, has exactly [2q - 1] ones, and has rank [q]. *)
Theorem transformation_matrix_entries n (cur : list (string * nat))
    (curves : list (string * Curve)) T :
  get_forwards_transformation_matrix Curve matrix_rank n cur curves = Ok T ->
  has_shape n T
  /\ (forall i j, mat_get T i j = Ok 1 <-> exists kc, kc ∈ curves /\ covers cur kc i j)
  /\ (forall i j t, mat_get T i j = Ok t -> t = 0 \/ t = 1)
  /\ Z.of_nat (length (List.filter (fun t => bool_decide (t = 1)) (concat T)))
     = (2 * Z.of_nat n - 1)%Z
  /\ matrix_rank T = n.
Proof.
  unfold get_forwards_transformation_matrix. intros H. inv_bind H. rename a into T'.
  destruct (transform_loop n _ _ _ _ Ha (replicate_shape n 0)) as (Hs & Hone & Hval).
  destruct (decide (_ < _)) as [|Hle1]; [discriminate|].
  destruct (decide (_ < _)) as [|Hle2]; [discriminate|].
  destruct (matrix_rank T' =? n)%nat eqn:Hrank; [|discriminate].
  injection H as <-. apply Nat.eqb_eq in Hrank.
  assert (Hunits : forall i j t, mat_get T' i j = Ok t -> t = 0 \/ t = 1).
  { intros i j t Ht. destruct (Hval _ _ _ Ht) as [->|H0]; [by right|].
    left. by apply mat_get_replicate in H0. }
  split; [done|]. split; [|split; [done|split; [|done]]].
  - intros i j. rewrite Hone. split; [|by right].
    intros [H0|?]; [|done]. by apply mat_get_replicate in H0.
  - apply Z2Qc_inj. rewrite <- qsum_units.
    + apply Qcle_antisym; by apply Qcnot_lt_le.
    + intros t Ht. apply elem_of_concat_get in Ht as (i & j & Ht). eauto.
Qed.

Lemma transform_loop_cases n (cur : list (string * nat)) (curves : list (string * Curve)) :
  (forall c i, dict_get cur c = Some i -> (i < n)%nat) ->
  forall T0, has_shape n T0 ->
    (exists T, fold_result (transform_step cur) curves T0 = Ok T
               /\ forall kc, kc ∈ curves -> exists i j, covers cur kc i j)
    \/ (exists kc, kc ∈ curves
          /\ (dict_get cur (lower (str_take 3 (fst kc))) = None
              \/ dict_get cur (lower (str_drop 3 (fst kc))) = None)
          /\ fold_result (transform_step cur) curves T0
             = Raise (ValueError (UnexpectedCurrency (lower (str_take 3 (fst kc)))
                                    (lower (str_drop 3 (fst kc)))))).
Proof.
  intros Hb. induction curves as [|kc curves IH]; intros T0 Hs.
  - left. exists T0. split; [done|]. intros kc Hkc. by apply elem_of_nil in Hkc.
  - cbn [fold_result].
    destruct (dict_get cur (lower (str_take 3 (fst kc)))) as [ci|] eqn:Ec.
    2:{ right. exists kc. split; [apply elem_of_cons; by left|]. split; [by left|done]. }
    destruct (dict_get cur (lower (str_drop 3 (fst kc)))) as [cj|] eqn:Ed.
    2:{ right. exists kc. split; [apply elem_of_cons; by left|]. split; [by right|done]. }
    destruct (mat_set_defined n T0 ci cj 1 Hs (Hb _ _ Ec) (Hb _ _ Ed)) as (T1 & HT1).
    rewrite HT1. cbn [mbind result_bind].
    destruct (IH T1 (mat_set_shape _ _ _ _ _ _ Hs HT1)) as [(T & HT & Hall)|(kc' & Hkc' & Hun & HR)].
    + left. exists T. split; [done|]. intros kc' Hkc'.
      apply elem_of_cons in Hkc' as [->|Hkc']; eauto.
    + right. exists kc'. split; [apply elem_of_cons; by right|]. done.
Qed.

(** X19: with every currency index below [q], the transformation matrix fails
    only with a [ValueError], and the error is that of an unexpected
    currency exactly when a curve key names a currency that is not known. *)
Theorem transformation_matrix_errors n (cur : list (string * nat))
    (curves : list (string * Curve)) :
  (forall c i, dict_get cur c = Some i -> (i < n)%nat) ->
  (forall e, get_forwards_transformation_matrix Curve matrix_rank n cur curves = Raise e ->
     exists v, e = ValueError v)
  /\ ((exists cash coll,
         get_forwards_transformation_matrix Curve matrix_rank n cur curves
         = Raise (ValueError (UnexpectedCurrency cash coll)))
      <-> exists kc, kc ∈ curves
            /\ (dict_get cur (lower (str_take 3 (fst kc))) = None
                \/ dict_get cur (lower (str_drop 3 (fst kc))) = None)).
Proof.
  intros Hb.
  destruct (transform_loop_cases n cur curves Hb _ (replicate_shape n 0))
    as [(T & HT & Hall)|(kc & Hkc & Hun & HR)];
    unfold get_forwards_transformation_matrix; cbv zeta in *.
  - rewrite HT. cbn [mbind result_bind]. split.
    + intros e H.
      repeat match type of H with
        | context [decide ?P] => destruct (decide P); [injection H as <-; eauto|]
        end.
      destruct (negb _); [injection H as <-; eauto | discriminate].
    + split.
      * intros (cash & coll & H).
        repeat match type of H with
          | context [decide ?P] => destruct (decide P); [discriminate|]
          end.
        destruct (negb _); discriminate.
      * intros (kc & Hkc & Hun). destruct (Hall _ Hkc) as (i & j & Hi & Hj).
        destruct Hun; congruence.
  - rewrite HR. cbn [mbind result_bind]. split.
    + intros e [= <-]. eauto.
    + split; [eauto | eauto].
Qed.
End Transform.

Lemma transformation_matrix_entries_witness :
  let T := fxf_transform fxf_eurusd in
  let cur := currencies fxr_eurusd in
  has_shape 2 T
  /\ (forall i j, mat_get T i j = Ok 1 <->
        exists kc, kc ∈ sample_curves
          /\ dict_get cur (lower (str_take 3 (fst kc))) = Some i
             /\ dict_get cur (lower (str_drop 3 (fst kc))) = Some j)
  /\ (forall i j t, mat_get T i j = Ok t -> t = 0 \/ t = 1)
  /\ Z.of_nat (length (List.filter (fun t => bool_decide (t = 1)) (concat T)))
     = (2 * Z.of_nat 2 - 1)%Z
  /\ full_rank T = 2%nat.
Proof.
  apply (transformation_matrix_entries flat_curve full_rank 2 (currencies fxr_eurusd)
           sample_curves (fxf_transform fxf_eurusd)).
  vm_compute. reflexivity.
Defined.

Lemma transformation_matrix_errors_witness :
  (forall e, get_forwards_transformation_matrix flat_curve full_rank 2
               (currencies fxr_eurusd) sample_curves = Raise e ->
     exists v, e = ValueError v)
  /\ ((exists cash coll,
         get_forwards_transformation_matrix flat_curve full_rank 2
           (currencies fxr_eurusd) sample_curves
         = Raise (ValueError (UnexpectedCurrency cash coll)))
      <-> exists kc, kc ∈ sample_curves
            /\ (dict_get (currencies fxr_eurusd) (lower (str_take 3 (fst kc))) = None
                \/ dict_get (currencies fxr_eurusd) (lower (str_drop 3 (fst kc))) = None)).
Proof.
  apply (transformation_matrix_errors flat_curve full_rank 2 (currencies fxr_eurusd)
           sample_curves).
  intros c i. unfold fxr_eurusd. cbn [currencies dict_get].
  destruct (String.eqb "eur" c); [intros H; injection H; lia|].
  destruct (String.eqb "usd" c); [intros H; injection H; lia | discriminate].
Defined.

(** ** The search for a chain of curves *)

Lemma nat_in_true i l : nat_in i l = true <-> i ∈ l.
Proof.
  unfold nat_in. rewrite existsb_exists. split.
  - intros (x & Hx & He). apply Nat.eqb_eq in He. subst. by apply list_elem_of_In.
  - intros H. exists i. split; [by apply list_elem_of_In | apply Nat.eqb_refl].
Qed.

Lemma nat_in_false i l : nat_in i l = false <-> i ∉ l.
Proof. rewrite <- nat_in_true. destruct (nat_in i l); split; congruence. Qed.

Lemma where_one_from (v : list Qc) (k i : nat) :
  i ∈ map fst (List.filter (fun ix : nat * Qc => bool_decide (snd ix = 1))
                 (combine (seq k (length v)) v))
  <-> exists j, i = (k + j)%nat /\ v !! j = Some 1.
Proof.
  revert k. induction v as [|t v IH]; intros k; simpl.
  - split; [intros H; by apply elem_of_nil in H | intros (j & _ & H); done].
  - destruct (bool_decide (t = 1)) eqn:E; simpl.
    + apply bool_decide_eq_true in E. subst.
      rewrite elem_of_cons, IH. split.
      * intros [->|(j & -> & Hj)]; [exists 0%nat | exists (S j)]; split; auto; lia.
      * intros ([|j] & -> & Hj); [left; lia|]. right. exists j. split; [lia|done].
    + apply bool_decide_eq_false in E. rewrite IH. split.
      * intros (j & -> & Hj). exists (S j). split; [lia|done].
      * intros ([|j] & -> & Hj); [simpl in Hj; congruence|]. exists j. split; [lia|done].
Qed.

Lemma where_one v i : i ∈ np_where_one v <-> v !! i = Some 1.
Proof.
  unfold np_where_one, enumerate. rewrite where_one_from. split.
  - by intros (j & -> & Hj).
  - intros H. by exists i.
Qed.

Lemma is_one_true r : is_one r = true <-> r = Ok 1.
Proof.
  destruct r as [t|e]; simpl; [|split; discriminate].
  rewrite bool_decide_eq_true. split; congruence.
Qed.

(** The steps that the search may take from [start] are the unit entries of
    its row and of its column. *)
Lemma chain_steps (T : list (list Qc)) start row col r :
  vec_get T start = Ok row -> mat_col T start = Ok col ->
  (r ∈ map RouteRow (np_where_one row) ++ map RouteCol (np_where_one col)
   <-> chain_walk T start [r] (route_idx r) = true).
Proof.
  intros Hrow Hcol. apply mat_col_lookup in Hcol as [_ Hcol].
  rewrite elem_of_app.
  change map with (@fmap list _). rewrite !list_elem_of_fmap.
  destruct r as [j|i]; cbn [route_idx chain_walk];
    rewrite Nat.eqb_refl, andb_true_r, is_one_true.
  - unfold mat_get. rewrite Hrow. cbn [mbind result_bind]. rewrite vec_get_Ok. split.
    + intros [(j' & [= <-] & Hj)|(i' & ? & _)]; [|done]. by apply where_one.
    + intros H. left. exists j. split; [done|]. by apply where_one.
  - rewrite <- Hcol. split.
    + intros [(j' & ? & _)|(i' & [= <-] & Hi)]; [done|]. by apply where_one.
    + intros H. right. exists i. split; [done|]. by apply where_one.
Qed.

Lemma chain_walk_app T cur s1 s2 mid goal :
  chain_walk T cur s1 mid = true -> chain_walk T mid s2 goal = true ->
  chain_walk T cur (s1 ++ s2) goal = true.
Proof.
  revert cur. induction s1 as [|r s1 IH]; intros cur H1 H2; simpl in *.
  - apply Nat.eqb_eq in H1. by subst.
  - destruct r; apply andb_prop in H1 as [Ha Hb]; rewrite Ha; simpl; eauto.
Qed.

Lemma chain_loop_true recurse start search traced path steps p :
  chain_loop recurse start search traced path steps = Some (Ok (true, p)) ->
  exists r, r ∈ steps /\ recurse r = Some (Ok (true, p)).
Proof.
  induction steps as [|r steps IH]; cbn [chain_loop]; [discriminate|].
  intros H.
  assert (Hrest : chain_loop recurse start search traced path steps = Some (Ok (true, p)) ->
                  exists r', r' ∈ r :: steps /\ recurse r' = Some (Ok (true, p))).
  { intros H'. destruct (IH H') as (r' & Hr' & Hrec). exists r'.
    split; [apply elem_of_cons; by right | done]. }
  destruct (route_idx r =? start)%nat; [auto|].
  destruct (negb _ && negb _); [|auto].
  destruct (recurse r) as [[[[] p']|e]|] eqn:E; try discriminate; [|auto].
  injection H as <-. exists r. split; [apply elem_of_cons; by left | done].
Qed.

Lemma chain_loop_false recurse start search traced path steps p :
  chain_loop recurse start search traced path steps = Some (Ok (false, p)) ->
  p = path
  /\ forall r, r ∈ steps -> route_idx r <> start -> route_idx r <> search ->
       route_idx r ∉ traced -> exists p', recurse r = Some (Ok (false, p')).
Proof.
  induction steps as [|r steps IH]; cbn [chain_loop].
  - intros [= <-]. split; [done|]. intros r Hr. by apply elem_of_nil in Hr.
  - intros H.
    destruct (route_idx r =? start)%nat eqn:E1.
    { destruct (IH H) as [-> Hall]. split; [done|]. intros r' Hr' Hs.
      apply elem_of_cons in Hr' as [->|Hr']; [|auto].
      apply Nat.eqb_eq in E1. done. }
    destruct (negb (route_idx r =? search)%nat && negb (nat_in (route_idx r) traced)) eqn:E2.
    2:{ destruct (IH H) as [-> Hall]. split; [done|]. intros r' Hr' Hs Hg Ht.
        apply elem_of_cons in Hr' as [->|Hr']; [|auto].
        apply andb_false_iff in E2 as [E2|E2]; apply negb_false_iff in E2.
        - by apply Nat.eqb_eq in E2.
        - by apply nat_in_true in E2. }
    destruct (recurse r) as [[[[] p']|e]|] eqn:E; try discriminate.
    destruct (IH H) as [-> Hall]. split; [done|]. intros r' Hr' Hs Hg Ht.
    apply elem_of_cons in Hr' as [->|Hr']; [eauto|auto].
Qed.

(** X20: a chain that is found extends the path that was passed by steps that
    lead from the start to the currency searched for, each along a unit entry
    of the matrix; when none is found the path comes back as it was. *)
Theorem recursive_chain_sound (T : list (list Qc)) (search : nat) :
  forall fuel start traced path found p,
    get_recursive_chain fuel T start search traced path = Some (Ok (found, p)) ->
    if found then
      exists steps, p = path ++ steps /\ steps <> []
                    /\ chain_walk T start steps search = true
    else p = path.
Proof.
  induction fuel as [|fuel IH]; intros start traced path found p H; [discriminate|].
  cbn [get_recursive_chain] in H.
  destruct (vec_get T start) as [row|e] eqn:Hrow; [|discriminate].
  destruct (mat_col T start) as [col|e] eqn:Hcol; [|discriminate].
  pose proof (fun r => chain_steps T start row col r Hrow Hcol) as Hsteps.
  destruct (nat_in search (np_where_one row)) eqn:E1.
  { injection H as <- <-. exists [RouteRow search]. split; [done|]. split; [done|].
    apply (Hsteps (RouteRow search)). apply elem_of_app. left.
    apply list_elem_of_fmap. exists search. split; [done|]. by apply nat_in_true. }
  destruct (nat_in search (np_where_one col)) eqn:E2.
  { injection H as <- <-. exists [RouteCol search]. split; [done|]. split; [done|].
    apply (Hsteps (RouteCol search)). apply elem_of_app. right.
    apply list_elem_of_fmap. exists search. split; [done|]. by apply nat_in_true. }
  destruct found.
  - apply chain_loop_true in H as (r & Hr & Hrec).
    apply IH in Hrec as (steps & -> & _ & Hwalk).
    exists (r :: steps). split; [by rewrite <- app_assoc|]. split; [done|].
    apply Hsteps in Hr.
    apply (chain_walk_app T start [r] steps (route_idx r) search Hr Hwalk).
  - by apply chain_loop_false in H as [-> _].
Qed.

Lemma chain_loop_defined recurse start search traced path steps :
  (forall r, r ∈ steps -> route_idx r <> start -> route_idx r <> search ->
     route_idx r ∉ traced -> exists found p, recurse r = Some (Ok (found, p))) ->
  exists found p,
    chain_loop recurse start search traced path steps = Some (Ok (found, p)).
Proof.
  induction steps as [|r steps IH]; intros H; cbn [chain_loop]; [eauto|].
  assert (Hrest : exists found p,
            chain_loop recurse start search traced path steps = Some (Ok (found, p))).
  { apply IH. intros r' Hr'. apply H, elem_of_cons. by right. }
  destruct (route_idx r =? start)%nat eqn:E1; [done|].
  destruct (negb (route_idx r =? search)%nat && negb (nat_in (route_idx r) traced)) eqn:E2;
    [|done].
  apply andb_prop in E2 as [E2 E3]. apply negb_true_iff in E2, E3.
  apply Nat.eqb_neq in E1, E2. apply nat_in_false in E3.
  destruct (H r) as ([] & p & ->); try done; [apply elem_of_cons; by left | eauto].
Qed.

Lemma bounded_NoDup_length (l : list nat) n :
  NoDup l -> (forall x, x ∈ l -> (x < n)%nat) -> (length l <= n)%nat.
Proof.
  intros Hnd Hb.
  assert (H : l ⊆+ seq 0 n).
  { apply NoDup_submseteq; [done|]. intros x Hx. apply elem_of_seq.
    specialize (Hb x Hx). lia. }
  apply submseteq_length in H. by rewrite length_seq in H.
Qed.

Lemma chain_total n (T : list (list Qc)) (search : nat) :
  has_shape n T ->
  forall fuel start traced path,
    NoDup traced -> (forall x, x ∈ traced -> (x < n)%nat) -> traced <> [] ->
    (start < n)%nat -> (n - length traced < fuel)%nat ->
    exists found p,
      get_recursive_chain fuel T start search traced path = Some (Ok (found, p)).
Proof.
  intros Hs. induction fuel as [|fuel IH]; intros start traced path Hnd Hb Hne Hst Hf; [lia|].
  cbn [get_recursive_chain].
  destruct traced as [|t0 traced0] eqn:Et; [done|]. rewrite <- Et in *.
  replace (length traced =? 0)%nat with false by (subst; done).
  pose proof Hs as [Hl Hr].
  destruct (lookup_lt_is_Some_2 T start) as [row Hrow]; [lia|].
  assert (Hrl : length row = n) by (eapply Forall_lookup_1 in Hr; eauto).
  unfold vec_get at 1. rewrite Hrow. cbn [of_option].
  destruct (mat_col_defined n T start Hs Hst) as (col & Hcol). rewrite Hcol.
  pose proof (mat_col_lookup _ _ _ Hcol) as [Hcl _]. rewrite Hl in Hcl.
  destruct (nat_in search (np_where_one row)); [eauto|].
  destruct (nat_in search (np_where_one col)); [eauto|].
  apply chain_loop_defined. intros r Hr' Hrs Hrg Hrt.
  assert (Hrn : (route_idx r < n)%nat).
  { apply elem_of_app in Hr' as [Hr'|Hr']; apply list_elem_of_fmap in Hr' as (i & -> & Hi);
      apply where_one, lookup_lt_Some in Hi; simpl; lia. }
  assert (Hnd' : NoDup (traced ++ [route_idx r])).
  { apply list.NoDup_app. split; [done|]. split.
    - intros x Hx Hx'. apply list_elem_of_singleton in Hx'. by subst.
    - apply NoDup_cons_2; [apply not_elem_of_nil | apply NoDup_nil_2]. }
  assert (Hb' : forall x, x ∈ traced ++ [route_idx r] -> (x < n)%nat).
  { intros x Hx. apply elem_of_app in Hx as [Hx|Hx]; [auto|].
    apply list_elem_of_singleton in Hx. by subst. }
  pose proof (bounded_NoDup_length _ _ Hnd' Hb') as Hlen.
  rewrite length_app in Hlen. simpl in Hlen.
  apply IH; try done.
  - by destruct traced.
  - rewrite length_app. simpl. lia.
Qed.

(** X21: on a square matrix of size [q] the search ends within [q] nested calls:
    with a start index out of range it raises [IndexError], otherwise it
    returns an answer. *)
Theorem recursive_chain_terminates n (T : list (list Qc)) (start search : nat)
    (fuel : nat) (path : list route) :
  has_shape n T -> (n <= fuel)%nat -> (0 < fuel)%nat ->
  if (start <? n)%nat then
    exists found p, get_recursive_chain fuel T start search [] path = Some (Ok (found, p))
  else get_recursive_chain fuel T start search [] path = Some (Raise IndexError).
Proof.
  intros Hs Hf Hpos. destruct (start <? n)%nat eqn:E.
  - apply Nat.ltb_lt in E.
    destruct fuel as [|fuel]; [lia|].
    destruct (chain_total n T search Hs (S fuel) start [start] path) as (found & p & H).
    + apply NoDup_cons_2; [apply not_elem_of_nil | apply NoDup_nil_2].
    + intros x Hx. apply list_elem_of_singleton in Hx. by subst.
    + done.
    + done.
    + simpl. lia.
    + exists found, p. cbn [get_recursive_chain] in *.
      change (length [] =? 0)%nat with true. cbn [app]. exact H.
  - apply Nat.ltb_ge in E. destruct fuel as [|fuel]; [lia|].
    cbn [get_recursive_chain]. destruct Hs as [Hl _].
    unfold vec_get. rewrite lookup_ge_None_2 by lia. done.
Qed.

Section ChainComplete.
(** The indices a walk passes through before it arrives. *)
Local Abbreviation inner steps := (removelast (map route_idx steps)).

Lemma inner_cons r steps : steps <> [] -> inner (r :: steps) = route_idx r :: inner steps.
Proof. by destruct steps. Qed.

Lemma chain_walk_cons T cur r steps goal :
  chain_walk T cur (r :: steps) goal = true
  <-> chain_walk T cur [r] (route_idx r) = true
      /\ chain_walk T (route_idx r) steps goal = true.
Proof.
  destruct r; cbn [chain_walk route_idx];
    rewrite Nat.eqb_refl, andb_true_r, andb_true_iff; done.
Qed.

Lemma chain_walk_suffix T cur s1 r s2 goal :
  chain_walk T cur (s1 ++ r :: s2) goal = true ->
  chain_walk T (route_idx r) s2 goal = true.
Proof.
  revert cur. induction s1 as [|r1 s1 IH]; intros cur H.
  - by apply chain_walk_cons in H as [_ H].
  - rewrite <- app_comm_cons in H. apply chain_walk_cons in H as [_ H]. eauto.
Qed.

Lemma inner_elem_split x steps :
  x ∈ inner steps ->
  exists s1 r s2, steps = s1 ++ r :: s2 /\ route_idx r = x /\ s2 <> []
                  /\ forall y, y ∈ inner s2 -> y ∈ inner steps.
Proof.
  induction steps as [|r steps IH]; [intros H; by apply elem_of_nil in H|].
  destruct steps as [|r' steps]; [intros H; simpl in H; by apply elem_of_nil in H|].
  rewrite (inner_cons r (r' :: steps)) by done. intros H. apply elem_of_cons in H as [->|H].
  - exists [], r, (r' :: steps). split; [done|]. split; [done|]. split; [done|].
    intros y Hy. apply elem_of_cons. by right.
  - destruct (IH H) as (s1 & r0 & s2 & Heq & Hr0 & Hs2 & Hsub).
    exists (r :: s1), r0, s2. split; [by rewrite Heq|]. split; [done|]. split; [done|].
    intros y Hy. apply elem_of_cons. right. auto.
Qed.

Lemma chain_walk_avoid T (idx goal : nat) :
  forall k steps, (length steps <= k)%nat -> steps <> [] ->
    chain_walk T idx steps goal = true ->
    exists steps', steps' <> [] /\ chain_walk T idx steps' goal = true
                   /\ (idx ∉ inner steps')
                   /\ forall y, y ∈ inner steps' -> y ∈ inner steps.
Proof.
  induction k as [|k IH]; intros steps Hk Hne Hw.
  - destruct steps; [done | simpl in Hk; lia].
  - destruct (decide (idx ∈ inner steps)) as [Hin|Hout].
    + apply inner_elem_split in Hin as (s1 & r & s2 & -> & <- & Hs2 & Hsub).
      apply chain_walk_suffix in Hw.
      destruct (IH s2) as (steps' & Hne' & Hw' & Hav & Hsub'); try done.
      { rewrite length_app in Hk. simpl in Hk. lia. }
      exists steps'. split; [done|]. split; [done|]. split; [done|]. auto.
    + exists steps. eauto.
Qed.

Lemma chain_exhausted (T : list (list Qc)) (search : nat) :
  forall fuel start traced path p,
    traced = [] \/ start ∈ traced ->
    get_recursive_chain fuel T start search traced path = Some (Ok (false, p)) ->
    forall steps, steps <> [] -> chain_walk T start steps search = true ->
      exists x, x ∈ inner steps /\ x ∈ start :: traced.
Proof.
  induction fuel as [|fuel IH]; intros start traced path p Htr H steps Hne Hw; [discriminate|].
  cbn [get_recursive_chain] in H.
  set (traced' := if (length traced =? 0)%nat then traced ++ [start] else traced) in *.
  assert (Htr' : forall x, x ∈ traced' <-> x ∈ start :: traced).
  { intros x. unfold traced'. destruct traced as [|t0 tr]; simpl.
    - done.
    - destruct Htr as [?|Htr]; [done|]. rewrite (elem_of_cons (t0 :: tr) x start).
      split; [by right|]. by intros [->|?]. }
  destruct (vec_get T start) as [row|e] eqn:Hrow; [|discriminate].
  destruct (mat_col T start) as [col|e] eqn:Hcol; [|discriminate].
  pose proof (fun r => chain_steps T start row col r Hrow Hcol) as Hsteps.
  destruct (nat_in search (np_where_one row)) eqn:E1; [discriminate|].
  destruct (nat_in search (np_where_one col)) eqn:E2; [discriminate|].
  apply nat_in_false in E1, E2.
  apply chain_loop_false in H as [_ Hall].
  destruct steps as [|r rest]; [done|].
  apply chain_walk_cons in Hw as [Hfirst Hrest].
  pose proof (proj2 (Hsteps r) Hfirst) as Hr.
  assert (Hns : route_idx r <> search).
  { intros Heq. apply elem_of_app in Hr as [Hr|Hr];
      apply list_elem_of_fmap in Hr as (i & -> & Hi); simpl in Heq; by subst. }
  destruct rest as [|r' rest'].
  { simpl in Hrest. by apply Nat.eqb_eq in Hrest. }
  rewrite inner_cons by done.
  destruct (decide (route_idx r ∈ traced')) as [Hin|Hout].
  { exists (route_idx r). split; [apply elem_of_cons; by left | by apply Htr']. }
  assert (Hnst : route_idx r <> start).
  { intros Heq. apply Hout, Htr'. rewrite Heq. apply elem_of_cons. by left. }
  destruct (Hall r Hr Hnst Hns Hout) as (p' & Hrec).
  destruct (chain_walk_avoid T (route_idx r) search _ (r' :: rest') (Nat.le_refl _)
              ltac:(done) Hrest) as (steps' & Hne' & Hw' & Hav & Hsub).
  destruct (IH _ _ _ _ ltac:(right; apply elem_of_app; right; by apply list_elem_of_singleton)
              Hrec steps' Hne' Hw') as (x & Hx & Hxt).
  exists x. split; [apply elem_of_cons; right; auto|].
  apply elem_of_cons in Hxt as [->|Hxt]; [done|].
  apply elem_of_app in Hxt as [Hxt|Hxt]; [by apply Htr'|].
  apply list_elem_of_singleton in Hxt. by subst.
Qed.

(** X22: when the search answers that there is no chain, there is none: no
    sequence of row and column steps along unit entries leads from the start
    to the currency searched for. *)
Theorem recursive_chain_complete (T : list (list Qc)) (fuel start search : nat)
    (path p : list route) :
  get_recursive_chain fuel T start search [] path = Some (Ok (false, p)) ->
  forall steps, steps <> [] -> chain_walk T start steps search = false.
Proof.
  intros H steps Hne. destruct (chain_walk T start steps search) eqn:Hw; [|done].
  exfalso.
  destruct (chain_walk_avoid T start search _ steps (Nat.le_refl _) Hne Hw)
    as (steps' & Hne' & Hw' & Hav & _).
  destruct (chain_exhausted T search _ _ _ _ _ (or_introl eq_refl) H steps' Hne' Hw')
    as (x & Hx & Hxt).
  apply list_elem_of_singleton in Hxt. by subst.
Qed.

End ChainComplete.

Lemma recursive_chain_sound_witness :
  exists steps,
    [RouteRow 1; RouteRow 3] = [] ++ steps /\ steps <> []
    /\ chain_walk chain_example 0 steps 3 = true.
Proof.
  apply (recursive_chain_sound chain_example 3 5 0 [] [] true [RouteRow 1; RouteRow 3]).
  vm_compute. reflexivity.
Defined.

Lemma recursive_chain_terminates_witness :
  exists found p, get_recursive_chain 4 chain_example 2 3 [] [] = Some (Ok (found, p)).
Proof.
  apply (recursive_chain_terminates 4 chain_example 2 3 4 []).
  - split; [reflexivity|]. repeat constructor.
  - lia.
  - lia.
Defined.

Lemma recursive_chain_complete_witness :
  get_recursive_chain 3 chain_apart 0 2 [] [] = Some (Ok (false, []))
  /\ forall steps, steps <> [] -> chain_walk chain_apart 0 steps 2 = false.
Proof.
  split; [vm_compute; reflexivity|].
  apply (recursive_chain_complete chain_apart 3 0 2 [] []).
  vm_compute. reflexivity.
Defined.

(** ** The curves of a set of currencies *)

(** X23: the curves selected for a list of currencies are the curves whose key is
    one currency of the list followed by another, each under its own key. *)
Theorem curves_for_currencies_lookup {Curve} (fx_curves : list (string * Curve))
    (ccys : list string) :
  (forall a b, a ∈ ccys -> b ∈ ccys ->
     dict_get (get_curves_for_currencies fx_curves ccys) (a +:+ b)
     = dict_get fx_curves (a +:+ b))
  /\ forall k c, dict_get (get_curves_for_currencies fx_curves ccys) k = Some c ->
       dict_get fx_curves k = Some c
       /\ exists a b, a ∈ ccys /\ b ∈ ccys /\ k = a +:+ b.
Proof.
  unfold get_curves_for_currencies.
  set (items := flat_map _ _).
  assert (Hitems : forall k c, (k, c) ∈ items <->
            dict_get fx_curves k = Some c
            /\ exists a b, a ∈ ccys /\ b ∈ ccys /\ k = a +:+ b).
  { intros k c. unfold items. rewrite list_elem_of_In, in_flat_map. split.
    - intros ([a b] & Hp & Hin). apply in_prod_iff in Hp as [Ha Hb]. simpl in Hin.
      destruct (dict_get fx_curves (a +:+ b)) as [c'|] eqn:E; [|done].
      destruct Hin as [[= <- <-]|[]]. split; [done|].
      exists a, b. by rewrite !list_elem_of_In.
    - intros (Hk & a & b & Ha & Hb & ->). exists (a, b). split.
      + apply in_prod_iff. by rewrite <- !list_elem_of_In.
      + simpl. rewrite Hk. by left. }
  assert (Hget : forall k c, dict_get (dict_of_items items) k = Some c -> (k, c) ∈ items)
    by apply dict_of_items_get.
  split.
  - intros a b Ha Hb.
    destruct (dict_get fx_curves (a +:+ b)) as [c|] eqn:E.
    + assert (Hin : (a +:+ b, c) ∈ items) by (apply Hitems; eauto 6).
      assert (Hk : a +:+ b ∈ dict_keys (dict_of_items items)).
      { apply dict_of_items_keys. apply list_elem_of_fmap. by exists (a +:+ b, c). }
      apply dict_get_is_Some in Hk as (c' & Hc'). rewrite Hc'.
      apply Hget, Hitems in Hc' as [Hc' _]. congruence.
    + destruct (dict_get (dict_of_items items) (a +:+ b)) as [c|] eqn:E'; [|done].
      apply Hget, Hitems in E' as [E' _]. congruence.
  - intros k c H. by apply Hget, Hitems in H.
Qed.

(** ** The dates of a constructed [FXForwards] *)

Section ForwardsDates.
Variable base_currency : string.
Variable dual_solve : matrix -> vector -> option vector.
Variable Curve : Type.
Variable curve_getitem : Curve -> option date -> result Number.
Variable node_dates : Curve -> list date.
Variable is_line_curve : Curve -> bool.
Variable matrix_rank : list (list Qc) -> nat.

Local Abbreviation dates_step := (curve_dates_step Curve node_dates is_line_curve).

Local Abbreviation dated_curve c d terminal :=
  (node_dates c !! 0%nat = Some d
   /\ is_line_curve c = false
   /\ exists final, node_dates c !! Nat.sub (length (node_dates c)) 1 = Some final
                    /\ (terminal <= final)%Z).

Lemma curve_dates_step_Ok it kc it' :
  dates_step it kc = Ok it' ->
  exists first final,
    node_dates (snd kc) !! 0%nat = Some first
    /\ (fst it = None \/ fst it = Some first)
    /\ fst it' = Some first
    /\ is_line_curve (snd kc) = false
    /\ node_dates (snd kc) !! (length (node_dates (snd kc)) - 1)%nat = Some final
    /\ (snd it' <= final)%Z /\ (snd it' <= snd it)%Z.
Proof.
  unfold curve_dates_step. intros H. inv_bind H. inv_bind H.
  apply vec_get_Ok in Ha. rename a into first.
  assert (Him : (fst it = None \/ fst it = Some first) /\ a0 = Some first).
  { destruct (fst it) as [d|]; [|injection Ha0 as <-; auto].
    destruct (d =? first)%Z eqn:E; simpl in Ha0; [|discriminate].
    apply Z.eqb_eq in E. subst. injection Ha0 as <-. auto. }
  destruct Him as [Hit ->].
  destruct (is_line_curve (snd kc)); [discriminate|].
  inv_bind H. apply vec_get_Ok in Ha1. injection H as <-. simpl.
  exists first, a. repeat split; try done.
  all: destruct (a <? snd it)%Z eqn:E;
    [apply Z.ltb_lt in E | apply Z.ltb_ge in E]; simpl; lia.
Qed.

Lemma curve_dates_loop (curves : list (string * Curve)) :
  forall it it',
    fold_result dates_step curves it = Ok it' ->
    (snd it' <= snd it)%Z
    /\ (forall d, fst it = Some d -> fst it' = Some d)
    /\ (curves <> [] -> exists d, fst it' = Some d)
    /\ forall kc d, kc ∈ curves -> fst it' = Some d -> dated_curve (snd kc) d (snd it').
Proof.
  induction curves as [|kc curves IH]; intros it it' H; cbn [fold_result] in H.
  - injection H as <-. split; [lia|]. split; [done|]. split; [done|].
    intros kc d Hkc. by apply elem_of_nil in Hkc.
  - inv_bind H. rename a into it1.
    apply curve_dates_step_Ok in Ha
      as (first & final & Hfirst & Hit & Hit1 & Hline & Hfinal & Hle & Hle').
    destruct (IH _ _ H) as (Hs & Hkeep & _ & Hall).
    split; [lia|]. split; [|split].
    + intros d Hd. apply Hkeep. rewrite Hit1. destruct Hit; congruence.
    + intros _. exists first. by apply Hkeep.
    + intros kc' d Hkc' Hd. apply elem_of_cons in Hkc' as [->|Hkc']; [|by apply Hall].
      rewrite (Hkeep _ Hit1) in Hd. injection Hd as <-.
      split; [done|]. split; [done|]. exists final. split; [done|lia].
Qed.

Lemma init_settlement fx s b f :
  FXRates_init base_currency dual_solve fx s b = Ok f -> settlement f = s.
Proof. intros H. by apply init_inv in H as (_ & _ & _ & _ & _ & Hs & _). Qed.

Lemma restate_settlement f ps keep g :
  FXRates_restate base_currency dual_solve f ps keep = Ok g -> settlement g = settlement f.
Proof.
  unfold FXRates_restate, FXRates_copy. intros H.
  destruct (set_eqb ps (pairs f) && keep).
  - by apply init_settlement in H.
  - inv_bind H. by apply init_settlement in H.
Qed.

(** X24: a constructed [FXForwards] has an immediate date, which is the first
    node date of every curve and the settlement of its immediate rates; no
    curve is a [LineCurve]; and the terminal date is at most the last node
    date of every curve and at most 1 January 2200. *)
Theorem forwards_init_dates (fxr : FXRates) (fx_curves : list (string * Curve))
    (base_ : option string) fxf :
  FXForwards_init base_currency dual_solve Curve curve_getitem node_dates is_line_curve
    matrix_rank fxr fx_curves base_ = Ok fxf ->
  exists d,
    fxf_immediate fxf = Some d
    /\ settlement (fxf_fx_rates_immediate fxf) = Some d
    /\ (fxf_terminal fxf <= 803169)%Z
    /\ forall kc, kc ∈ fxf_fx_curves fxf -> dated_curve (snd kc) d (fxf_terminal fxf).
Proof.
  unfold FXForwards_init. intros H. inv_bind H. inv_bind H. inv_bind H.
  injection H as <-. cbn [fxf_immediate fxf_terminal fxf_fx_curves fxf_fx_rates_immediate].
  rename a into dates, a0 into T, a1 into imm.
  set (curves := dict_of_items _) in *.
  destruct (curve_dates_loop _ _ _ Ha) as (Hterm & _ & Hne & Hall).
  assert (Hcurves : curves <> []).
  { intros Hnil. rewrite Hnil in Ha0. by apply transform_needs_curves in Ha0. }
  destruct (Hne Hcurves) as (d & Hd). exists d.
  split; [done|]. split; [|split; [simpl in Hterm; lia|]].
  - unfold update_fx_rates_immediate in Ha1. inv_bind Ha1. inv_bind Ha1.
    apply restate_settlement in Ha1. apply init_settlement in Ha3. congruence.
  - intros kc Hkc. by apply Hall.
Qed.
End ForwardsDates.

Lemma forwards_init_dates_witness :
  exists d,
    fxf_immediate fxf_eurusd = Some d
    /\ settlement (fxf_fx_rates_immediate fxf_eurusd) = Some d
    /\ (fxf_terminal fxf_eurusd <= 803169)%Z
    /\ forall kc, kc ∈ fxf_fx_curves fxf_eurusd ->
         flat_node_dates (snd kc) !! 0%nat = Some d
         /\ never_line_curve (snd kc) = false
         /\ exists final,
              flat_node_dates (snd kc) !! (length (flat_node_dates (snd kc)) - 1)%nat
              = Some final
              /\ (fxf_terminal fxf_eurusd <= final)%Z.
Proof.
  apply (forwards_init_dates "usd" dual_solve_gauss flat_curve flat_getitem
           flat_node_dates never_line_curve full_rank fxr_eurusd sample_curves None
           fxf_eurusd).
  vm_compute. reflexivity.
Defined.

(** * The immediate rates of [FXForwards], rate by rate *)

Lemma lower_app a b : lower (a +:+ b) = lower a +:+ lower b.
Proof. induction a as [|c a IH]; simpl; [done|]. by rewrite IH. Qed.

Section Restated.
Variable base_currency : string.
Variable dual_solve : matrix -> vector -> option vector.
Hypothesis dual_solve_spec : forall A b x, dual_solve A b = Some x -> solves A x b.

Local Abbreviation init := (FXRates_init base_currency dual_solve).
Local Abbreviation restate := (FXRates_restate base_currency dual_solve).

(** The restated object has the pairs it was restated onto. *)
Lemma restate_onto fx s b f (ps : list string) (keep_ad : bool) g :
  init fx s b = Ok f ->
  restate f ps keep_ad = Ok g ->
  (forall p, p ∈ ps -> lower p = p) ->
  forall p, p ∈ pairs g <-> p ∈ ps.
Proof.
  intros Hf H Hlow p. unfold FXRates_restate in H.
  destruct (set_eqb ps (pairs f) && keep_ad) eqn:E.
  - unfold FXRates_copy in H. rewrite (init_stored_again _ _ _ _ _ _ Hf) in H.
    injection H as <-. apply andb_prop in E as [E _].
    unfold set_eqb in E. apply andb_prop in E as [E1 E2].
    rewrite forallb_forall in E1, E2. split; intros Hp.
    + apply str_in_true, E2. by apply list_elem_of_In.
    + apply str_in_true, E1. by apply list_elem_of_In.
  - inv_bind H. rename a into items.
    assert (Hkeys : map fst items = ps).
    { apply map_result_Ok in Ha. clear -Ha.
      induction Ha as [|p0 item ps its Hp _ IH]; simpl; [done|]. rewrite IH. f_equal.
      inv_bind Hp. by injection Hp as <-. }
    apply init_inv in H as (_ & -> & _).
    unfold stored_rates. rewrite dict_of_items_keys, map_map. cbn [fst].
    rewrite list_elem_of_fmap. split.
    + intros ([k v] & -> & Hkv). cbn [fst].
      assert (Hk : k ∈ ps).
      { apply dict_of_items_elem in Hkv. rewrite <- Hkeys.
        apply list_elem_of_fmap. by exists (k, v). }
      by rewrite (Hlow k Hk).
    + intros Hp. pose proof Hp as Hp'. rewrite <- Hkeys in Hp'.
      assert (Hk : p ∈ dict_keys (dict_of_items items)) by by apply dict_of_items_keys.
      apply dict_get_is_Some in Hk as (v & Hv). apply dict_get_Some_elem in Hv.
      exists (p, v). cbn [fst]. by rewrite (Hlow p Hp).
Qed.

(** Restating with [keep_ad] keeps the rate of every pair it restates onto:
    its value, and for a dual all of its derivatives. *)
Lemma restate_keeps fx s b f (ps : list string) g (p : string) :
  init fx s b = Ok f ->
  restate f ps true = Ok g -> p ∈ ps ->
  exists r n,
    FXRates_rate f p = Ok r /\ FXRates_rate g p = Ok n
    /\ to_float n = to_float r
    /\ (is_dual r = true -> num_eq n r).
Proof.
  intros Hf H Hp.
  destruct (set_eqb ps (pairs f)) eqn:E.
  - unfold FXRates_restate in H. rewrite E in H. cbn [andb] in H.
    unfold FXRates_copy in H.
    rewrite (init_stored_again _ _ _ _ _ _ Hf) in H. injection H as <-.
    assert (Hpf : p ∈ pairs f).
    { unfold set_eqb in E. apply andb_prop in E as [E _].
      rewrite forallb_forall in E. apply str_in_true, E. by apply list_elem_of_In. }
    destruct (rate_of_pair _ _ dual_solve_spec _ _ _ _ _ Hf Hpf) as (n & _ & _ & Hn & _).
    by exists n, n.
  - destruct (restate_rate _ _ dual_solve_spec _ _ _ _ _ H ltac:(by rewrite E) Hp)
      as (r & n & Hr & Hn & Heq).
    exists r, n. split; [done|]. split; [done|]. split.
    + destruct Heq as [-> _]. by destruct r.
    + intros Hd. destruct r; [discriminate|]. exact Heq.
Qed.
End Restated.

Section ImmediateRates.
Variable base_currency : string.
Variable dual_solve : matrix -> vector -> option vector.
Hypothesis dual_solve_spec : forall A b x, dual_solve A b = Some x -> solves A x b.
Variable Curve : Type.
Variable curve_getitem : Curve -> option date -> result Number.
Variable node_dates : Curve -> list date.
Variable is_line_curve : Curve -> bool.
Variable matrix_rank : list (list Qc) -> nat.

Local Abbreviation init := (FXRates_init base_currency dual_solve).
Local Abbreviation restate := (FXRates_restate base_currency dual_solve).
Local Abbreviation FXF := (FXForwards Curve).

(** The immediate rate of the entry (row = cash, col = coll) under its key:
    [fx_array[cash, coll] * v_coll(settlement) / w_cashcoll(settlement)]. *)
Local Abbreviation immediate_rate_of fxr curves rc item :=
  (exists cash coll cv cw v w a r,
     currencies_list fxr !! fst rc = Some cash
     /\ currencies_list fxr !! snd rc = Some coll
     /\ dict_get curves (coll +:+ coll) = Some cv
     /\ curve_getitem cv (settlement fxr) = Ok v
     /\ dict_get curves (cash +:+ coll) = Some cw
     /\ curve_getitem cw (settlement fxr) = Ok w
     /\ mat_get (fx_array fxr) (fst rc) (snd rc) = Ok a
     /\ num_div (num_mul a v) w = Ok r
     /\ item = (cash +:+ coll, r)).

Lemma spec_immediate_rate_Ok (self : FXF) rc item :
  spec_immediate_rate Curve curve_getitem self rc = Ok item ->
  exists cash coll cv cw v w a r,
     fxf_currencies_list self !! fst rc = Some cash
     /\ fxf_currencies_list self !! snd rc = Some coll
     /\ dict_get (fxf_fx_curves self) (coll +:+ coll) = Some cv
     /\ curve_getitem cv (settlement (fxf_fx_rates self)) = Ok v
     /\ dict_get (fxf_fx_curves self) (cash +:+ coll) = Some cw
     /\ curve_getitem cw (settlement (fxf_fx_rates self)) = Ok w
     /\ mat_get (fx_array (fxf_fx_rates self)) (fst rc) (snd rc) = Ok a
     /\ num_div (num_mul a v) w = Ok r
     /\ item = (cash +:+ coll, r).
Proof.
  unfold spec_immediate_rate. intros H.
  inv_bind H. inv_bind H. inv_bind H. inv_bind H. inv_bind H. inv_bind H.
  inv_bind H. inv_bind H. injection H as <-.
  apply vec_get_Ok in Ha, Ha0. apply dict_item_Ok in Ha1, Ha3.
  exists a, a0, a1, a3, a2, a4, a5, a6. repeat split; done.
Qed.

(** The entries of a transformation matrix are zeros and ones. *)
Lemma transform_units n cur (curves : list (string * Curve)) T i j t :
  get_forwards_transformation_matrix Curve matrix_rank n cur curves = Ok T ->
  mat_get T i j = Ok t -> t = 0 \/ t = 1.
Proof.
  unfold get_forwards_transformation_matrix. intros H Ht. inv_bind H.
  destruct (transform_loop Curve n _ _ _ _ Ha (replicate_shape n 0)) as (_ & _ & Hval).
  destruct (decide (_ < _)); [discriminate|].
  destruct (decide (_ < _)); [discriminate|].
  destruct (negb _); [discriminate|]. injection H as <-.
  destruct (Hval _ _ _ Ht) as [->|H0]; [by right|].
  left. by apply mat_get_replicate in H0.
Qed.

Lemma unit_entries_spec (self : FXF) i j :
  has_shape (fxf_q self) (fxf_transform self) ->
  (forall i j t, mat_get (fxf_transform self) i j = Ok t -> t = 0 \/ t = 1) ->
  ((i, j) ∈ unit_entries Curve self
   <-> i <> j /\ mat_get (fxf_transform self) i j = Ok 1).
Proof.
  intros Hs Hunits. unfold unit_entries.
  rewrite list_elem_of_In, filter_In, <- list_elem_of_In.
  unfold is_unit_entry. cbn [fst snd].
  rewrite andb_true_iff, negb_true_iff, Nat.eqb_neq.
  assert (Hiff : match fxf_transform self !! i with
                 | Some row =>
                     match row !! j with
                     | Some t => negb (bool_decide (t = 0))
                     | None => false
                     end
                 | None => false
                 end = true <-> mat_get (fxf_transform self) i j = Ok 1).
  { pose proof (Hunits i j) as Hu. unfold mat_get, vec_get in *.
    destruct (fxf_transform self !! i) as [row|]; cbn in *; [|split; discriminate].
    destruct (row !! j) as [t|]; cbn in *; [|split; discriminate].
    rewrite negb_true_iff, bool_decide_eq_false. split.
    - intros Hne. destruct (Hu t eq_refl) as [->| ->]; done.
    - intros [= ->]. discriminate. }
  rewrite Hiff. split; [tauto|]. intros [Hne H]. split; [|done].
  destruct (mat_get_bound _ _ _ _ _ Hs H) as [Hi Hj].
  unfold all_pairs. rewrite list_elem_of_In, in_flat_map. exists i. split.
  - apply in_seq. lia.
  - apply in_map, in_seq. lia.
Qed.
Lemma init_keys_list fx s b f :
  init fx s b = Ok f -> dict_keys (currencies f) = currencies_list f.
Proof.
  intros H. apply init_inv in H as (_ & _ & -> & -> & _). apply enumerate_keys.
Qed.

Lemma immediate_rate_key fxr (curves : list (string * Curve)) rc1 rc2 item1 item2 :
  NoDup (currencies_list fxr) ->
  (forall c, c ∈ currencies_list fxr -> String.length c = 3%nat) ->
  immediate_rate_of fxr curves rc1 item1 ->
  immediate_rate_of fxr curves rc2 item2 ->
  fst item1 = fst item2 -> item1 = item2.
Proof.
  intros Hnd Hlen (cash1 & coll1 & cv1 & cw1 & v1 & w1 & a1 & r1
                   & Hc1 & Hl1 & Hcv1 & Hv1 & Hcw1 & Hw1 & Ha1 & Hr1 & ->)
    (cash2 & coll2 & cv2 & cw2 & v2 & w2 & a2 & r2
     & Hc2 & Hl2 & Hcv2 & Hv2 & Hcw2 & Hw2 & Ha2 & Hr2 & ->) Hk.
  cbn [fst] in Hk.
  assert (L1 : String.length cash1 = 3%nat)
    by (apply Hlen; eapply list_elem_of_lookup_2; eauto).
  assert (L2 : String.length cash2 = 3%nat)
    by (apply Hlen; eapply list_elem_of_lookup_2; eauto).
  assert (cash1 = cash2) as <-.
  { rewrite <- (str_take_app cash1 coll1 3 L1), Hk. by apply str_take_app. }
  assert (coll1 = coll2) as <-.
  { rewrite <- (str_drop_app cash1 coll1 3 L1), Hk. by apply str_drop_app. }
  assert (fst rc1 = fst rc2) as Hi by (eapply NoDup_lookup; eauto).
  assert (snd rc1 = snd rc2) as Hj by (eapply NoDup_lookup; eauto).
  rewrite Hi, Hj in Ha1.
  replace cv2 with cv1 in * by congruence. replace cw2 with cw1 in * by congruence.
  replace v2 with v1 in * by congruence. replace w2 with w1 in * by congruence.
  replace a2 with a1 in * by congruence. congruence.
Qed.

(** C4: for an [FXForwards] built from a single constructed [FXRates] with
    3-character currency codes, the immediate rates are what the
    specification describes.  The off-diagonal unit entries of the transform
    matrix each give, under the key [cash || coll], the rate
    [fx_array[cash, coll] * v_coll(settlement) / w_cashcoll(settlement)];
    the [FXRates] constructed from these, dated at [immediate], has these
    very rates for these pairs (with every derivative of a dual);
    [fx_rates_immediate] is that object restated with [keep_ad = True]: it
    is dated at [immediate], its pairs are the pairs of the input
    [FXRates], and its rate for each of them is the rate of that object,
    with every derivative. *)
Theorem fx_rates_immediate_spec fx s b (fxr : FXRates) (curves : list (string * Curve))
    (base_ : option string) (self : FXF) :
  init fx s b = Ok fxr ->
  (forall c, c ∈ currencies_list fxr -> String.length c = 3%nat) ->
  FXForwards_init base_currency dual_solve Curve curve_getitem node_dates
    is_line_curve matrix_rank fxr curves base_ = Ok self ->
  exists items fxi,
    (forall i j, (i, j) ∈ unit_entries Curve self
                 <-> i <> j /\ mat_get (fxf_transform self) i j = Ok 1)
    /\ Forall2 (fun rc item => immediate_rate_of fxr (fxf_fx_curves self) rc item)
         (unit_entries Curve self) items
    /\ init (dict_of_items items) (fxf_immediate self) None = Ok fxi
    /\ (forall item, item ∈ items ->
          exists n, FXRates_rate fxi (fst item) = Ok n
                    /\ to_float n = to_float (snd item)
                    /\ (is_dual (snd item) = true -> num_eq n (snd item)))
    /\ restate fxi (pairs fxr) true = Ok (fxf_fx_rates_immediate self)
    /\ settlement (fxf_fx_rates_immediate self) = fxf_immediate self
    /\ (forall p, p ∈ pairs (fxf_fx_rates_immediate self) <-> p ∈ pairs fxr)
    /\ (forall p, p ∈ pairs fxr ->
          exists r n,
            FXRates_rate fxi p = Ok r
            /\ FXRates_rate (fxf_fx_rates_immediate self) p = Ok n
            /\ to_float n = to_float r
            /\ (is_dual r = true -> num_eq n r)).
Proof.
  intros Hfxr Hlen H. unfold FXForwards_init in H.
  inv_bind H. inv_bind H. inv_bind H. injection H as <-.
  rename a into dates, a0 into T, a1 into imm.
  match goal with
  | |- context [unit_entries Curve ?r] => set (self := r)
  end.
  cbn [fxf_fx_rates_immediate fxf_immediate fxf_fx_curves].
  set (curves_ := dict_of_items _) in *.
  pose proof (init_keys_list _ _ _ _ Hfxr) as Hkl.
  assert (Hshape : has_shape (fxf_q self) (fxf_transform self))
    by (eapply transformation_matrix_shape; exact Ha0).
  assert (Hunits : forall i j t, mat_get (fxf_transform self) i j = Ok t -> t = 0 \/ t = 1)
    by (intros i j t; eapply transform_units; exact Ha0).
  unfold update_fx_rates_immediate in Ha1. inv_bind Ha1. inv_bind Ha1.
  rename a into d, a0 into fxi, Ha2 into Hd, Ha3 into Hfxi, Ha1 into Hres.
  assert (Hloop : Ok d
            = items ← map_result (spec_immediate_rate Curve curve_getitem self)
                        (unit_entries Curve self);
              Ok (dict_of_items items)).
  { rewrite <- Hd. apply (immediate_loop Curve curve_getitem self).
    intros [i j] Hin. apply all_pairs_elem in Hin as [Hi Hj].
    eapply mat_get_shape; eauto. }
  destruct (map_result _ _) as [items|] eqn:Hitems; [|discriminate].
  cbn [mbind result_bind] in Hloop. injection Hloop as ->.
  assert (Hrel : Forall2 (fun rc item => immediate_rate_of fxr curves_ rc item)
                   (unit_entries Curve self) items).
  { apply map_result_Ok in Hitems. revert Hitems. apply Forall2_impl.
    intros rc item Hrc. apply spec_immediate_rate_Ok in Hrc.
    unfold self in Hrc. cbn [fxf_currencies_list fxf_fx_curves fxf_fx_rates] in Hrc.
    by rewrite Hkl in Hrc. }
  pose proof (init_inv _ _ _ _ _ _ Hfxr) as (_ & Hps & _ & Hcl & _).
  assert (Hnd : NoDup (currencies_list fxr))
    by (rewrite Hcl; apply find_currencies_NoDup).
  assert (Hof : forall item, item ∈ items ->
            exists rc, immediate_rate_of fxr curves_ rc item).
  { intros item Hin. destruct (Forall2_elem_r _ _ _ _ Hrel Hin) as (rc & _ & Hrc).
    by exists rc. }
  assert (Hlowkey : forall item, item ∈ items -> lower (fst item) = fst item).
  { intros item Hin. destruct (Hof _ Hin) as (rc & cash & coll & cv & cw & v & w & a & r
      & Hc & Hl & _ & _ & _ & _ & _ & _ & ->).
    cbn [fst]. rewrite lower_app.
    destruct (init_currency _ _ _ _ _ _ cash Hfxr) as [-> _];
      [eapply list_elem_of_lookup_2; eauto|].
    destruct (init_currency _ _ _ _ _ _ coll Hfxr) as [-> _];
      [eapply list_elem_of_lookup_2; eauto|]. done. }
  assert (Hsame : forall it1 it2, it1 ∈ items -> it2 ∈ items ->
            fst it1 = fst it2 -> it1 = it2).
  { intros it1 it2 H1 H2 Hk. destruct (Hof _ H1) as (rc1 & Hr1).
    destruct (Hof _ H2) as (rc2 & Hr2).
    eapply (immediate_rate_key fxr curves_ rc1 rc2); eauto. }
  assert (Hmem : forall item, item ∈ items -> item ∈ dict_of_items items).
  { intros [k v] Hin.
    assert (Hk : k ∈ dict_keys (dict_of_items items)).
    { apply dict_of_items_keys. apply list_elem_of_fmap. by exists (k, v). }
    apply dict_get_is_Some in Hk as (v' & Hv'). apply dict_get_Some_elem in Hv'.
    pose proof (dict_of_items_elem _ _ Hv') as Hin'.
    by rewrite (Hsame (k, v) (k, v') Hin Hin' eq_refl). }
  exists items, fxi.
  split. { intros i j. by apply unit_entries_spec. }
  split; [exact Hrel|]. split; [exact Hfxi|]. split.
  { intros [k v] Hin. cbn [fst snd].
    destruct (rate_of_item _ _ dual_solve_spec _ _ _ _ k v Hfxi) as (n & Hn & Heq).
    - intros kv kv' Hkv Hkv' Hl.
      apply dict_of_items_elem in Hkv, Hkv'.
      rewrite (Hlowkey _ Hkv), (Hlowkey _ Hkv') in Hl.
      by rewrite (Hsame _ _ Hkv Hkv' Hl).
    - by apply Hmem.
    - exists n. split; [done|]. split.
      + destruct Heq as [-> _]. by destruct v.
      + intros Hdual. destruct v; [discriminate|]. exact Heq. }
  split; [exact Hres|]. split.
  { pose proof (restate_settlement _ _ _ _ _ _ Hres) as H1.
    pose proof (init_settlement _ _ _ _ _ _ Hfxi) as H2. unfold self. cbn [fxf_fx_rates_immediate fxf_immediate]. congruence. }
  split.
  { apply (restate_onto _ _ _ _ _ _ _ _ _ Hfxi Hres).
    intros p Hp. rewrite Hps in Hp. by apply stored_pairs_lower in Hp. }
  intros p Hp. by apply (restate_keeps _ _ dual_solve_spec _ _ _ _ _ _ _ Hfxi Hres).
Qed.
End ImmediateRates.

Lemma fx_rates_immediate_spec_witness :
  exists items fxi,
    (forall i j, (i, j) ∈ unit_entries flat_curve fxf_usdeur
                 <-> i <> j /\ mat_get (fxf_transform fxf_usdeur) i j = Ok 1)
    /\ Forall2 (fun rc item =>
          exists cash coll cv cw v w a r,
            currencies_list fxr_usdeur !! fst rc = Some cash
            /\ currencies_list fxr_usdeur !! snd rc = Some coll
            /\ dict_get (fxf_fx_curves fxf_usdeur) (coll +:+ coll) = Some cv
            /\ flat_getitem cv (settlement fxr_usdeur) = Ok v
            /\ dict_get (fxf_fx_curves fxf_usdeur) (cash +:+ coll) = Some cw
            /\ flat_getitem cw (settlement fxr_usdeur) = Ok w
            /\ mat_get (fx_array fxr_usdeur) (fst rc) (snd rc) = Ok a
            /\ num_div (num_mul a v) w = Ok r
            /\ item = (cash +:+ coll, r))
         (unit_entries flat_curve fxf_usdeur) items
    /\ FXRates_init "usd" dual_solve_gauss (dict_of_items items)
         (fxf_immediate fxf_usdeur) None = Ok fxi
    /\ (forall item, item ∈ items ->
          exists n, FXRates_rate fxi (fst item) = Ok n
                    /\ to_float n = to_float (snd item)
                    /\ (is_dual (snd item) = true -> num_eq n (snd item)))
    /\ FXRates_restate "usd" dual_solve_gauss fxi (pairs fxr_usdeur) true
       = Ok (fxf_fx_rates_immediate fxf_usdeur)
    /\ settlement (fxf_fx_rates_immediate fxf_usdeur) = fxf_immediate fxf_usdeur
    /\ (forall p, p ∈ pairs (fxf_fx_rates_immediate fxf_usdeur) <-> p ∈ pairs fxr_usdeur)
    /\ (forall p, p ∈ pairs fxr_usdeur ->
          exists r n,
            FXRates_rate fxi p = Ok r
            /\ FXRates_rate (fxf_fx_rates_immediate fxf_usdeur) p = Ok n
            /\ to_float n = to_float r
            /\ (is_dual r = true -> num_eq n r)).
Proof.
  apply (fx_rates_immediate_spec "usd" dual_solve_gauss dual_solve_gauss_spec
           flat_curve flat_getitem flat_node_dates never_line_curve full_rank
           usdeur_rates (Some 3%Z) None fxr_usdeur sample_curves None fxf_usdeur).
  - vm_compute. reflexivity.
  - intros c Hc. apply list_elem_of_In in Hc. simpl in Hc.
    destruct Hc as [<-|[<-|[]]]; reflexivity.
  - vm_compute. reflexivity.
Defined.

(** At this market the immediate rates are restated, not copied: the rate
    constructed is that of [eurusd], the pair of the input is [usdeur]. *)
Lemma immediate_restated_sample :
  unit_entries flat_curve fxf_usdeur = [(1%nat, 0%nat)]
  /\ pairs fxr_usdeur = ["usdeur"]
  /\ pairs (fxf_fx_rates_immediate fxf_usdeur) = ["usdeur"].
Proof. vm_compute. done. Qed.
